(** * cairo-vm.go: a shallow embedding of the VM core and its specification

    The development follows the Go packages of the repository:
    [lambdaworks] (field elements), [memory] (relocatable addresses and the
    segmented write-once memory), [builtins] (builtin runners), [vm]
    (instruction decoding and the step executor) and [runners] (the Cairo
    runner).  Machine integers are integers of [Z] with their wrap-around
    written out; Go maps are finite maps of stdpp; a Go method that mutates
    its receiver and returns an [error] becomes a function returning the new
    state together with [option Error]; where a method also works through
    a pointer argument that may point into its receiver (the machine that
    the run phase of the runner steps), the state records where the
    pointer points. *)

From Stdlib Require Import ZArith Lia List Bool String.
From stdpp Require Import base decidable countable strings gmap list.

Local Open Scope Z_scope.

(** ** Machine integers *)

(** Go's [uint] and [uint64] are 64-bit: arithmetic wraps modulo 2^64. *)
Definition wrap64 (z : Z) : Z := z mod 2 ^ 64.

(** The conversion [int(u)] of a 64-bit unsigned value. *)
Definition to_int (u : Z) : Z := if u <? 2 ^ 63 then u else u - 2 ^ 64.

(** The conversion [uint(i)] of a 64-bit signed value. *)
Definition to_uint (i : Z) : Z := i mod 2 ^ 64.

(** ** Errors

    The sentinel errors and [errors.New] messages of the repository, one
    constructor each; an error that wraps another one carries it. *)
Inductive Error : Type :=
  (* decoding *)
  | ErrNonZeroHighBitError
  | ErrInvalidOp1RegError
  | ErrInvalidPcUpdateError
  | ErrInvalidResError
  | ErrInvalidOpcodeError
  | ErrInvalidApUpdateError
  (* felts and relocatables *)
  | ConversionError (f : Z)
  | ErrDifferentSegmentIndexes
  | ErrNegativeOffset
  | ErrRelocatableAdd
  | ErrSubRelocatableFromFelt
  (* memory *)
  | ErrUnallocatedSegment
  | ErrWriteOnce
  | ErrValueNotFound
  | ErrExpectedFelt
  (* builtins *)
  | NotAFeltError
  | OutsideBoundsError (f : Z)
  | ErrFeltBiggerThanPowerOfTwo (f : Z)
  | ErrInsufficientAllocatedCells
  (* step executor *)
  | ErrFetchInstruction
  | ErrWrongInstructionEncoding
  | ErrFailedToComputeDstAddr
  | ErrFailedToComputeOp0Addr (e : Error)
  | ErrFailedToComputeOp1Addr (e : Error)
  | ErrUnknownOp0
  | ErrAddressNotRelocatable
  | ErrFailedToDeduceOp0
  | ErrFailedToDeduceOp1
  | ErrComputeResRelocatableMul
  | ErrUnconstrainedResAssertEq
  | ErrDiffAssertValues
  | ErrCantWriteReturnPc
  | ErrCantWriteReturnFp
  | ErrUnconstrainedResJump
  | ErrJumpTargetNotRelocatable
  | ErrUnconstrainedResJumpRel
  | ErrRelJumpTargetNotFelt
  | ErrUnconstrainedResApAdd
  | ErrUnknownOp0Imm
  | ErrNilDereference
  | ErrIndexOutOfRange
  (* runner *)
  | ErrRunnerCalledTwice
  | ErrEndOfProgram (remaining : Z)
  (* an error that wraps a cause, and any other error *)
  | ErrWrap (cause : Error)
  | ErrOther (code : Z).

#[global] Instance Error_eq_dec : EqDecision Error.
Proof. solve_decision. Defined.

(** [errors.Unwrap]: the cause of a wrapping error, nil otherwise. *)
Definition Unwrap (err : option Error) : option Error :=
  match err with
  | Some (ErrWrap cause) => Some cause
  | _ => None
  end.

(** A Go result [(T, error)]. *)
Inductive Result (A : Type) : Type :=
  | Ok (a : A)
  | Err (e : Error).
Arguments Ok {A} a.
Arguments Err {A} e.

(** ** Package lambdaworks: field elements *)
Module lambdaworks.

(** The field prime P = 2^251 + 17 * 2^192 + 1. *)
Definition CAIRO_PRIME : Z := 2 ^ 251 + 17 * 2 ^ 192 + 1.

(** A felt is kept as its canonical representative in [0, P). *)
Abbreviation Felt := Z.

Definition IsFelt (f : Z) : Prop := 0 <= f < CAIRO_PRIME.

(** Modelled from the spec: the lambdaworks wrapper (the Rust field
    library behind it) is not part of the sources; section 3 of the
    specification fixes the field element as an unsigned integer modulo P
    with addition, subtraction, multiplication, division, bit length and
    bitwise operations, and the package's tests fix [Bits] (0 for zero, 4
    for 8 and 15, 252 for P - 1) and [ToU64] (an error above 64 bits). *)
Definition FeltFromUint64 (u : Z) : Felt := u mod CAIRO_PRIME.
Definition FeltZero : Felt := 0.
Definition FeltOne : Felt := 1.
(** The decimal string is given as the integer it denotes. *)
Definition FeltFromDecString (z : Z) : Felt := z mod CAIRO_PRIME.
Definition Add (a b : Felt) : Felt := (a + b) mod CAIRO_PRIME.
Definition Sub (a b : Felt) : Felt := (a - b) mod CAIRO_PRIME.
Definition Mul (a b : Felt) : Felt := (a * b) mod CAIRO_PRIME.

Fixpoint pow_mod (b : Z) (e : positive) : Z :=
  match e with
  | xH => b mod CAIRO_PRIME
  | xO e' => let r := pow_mod b e' in (r * r) mod CAIRO_PRIME
  | xI e' => let r := pow_mod b e' in (r * r mod CAIRO_PRIME * b) mod CAIRO_PRIME
  end.

(** Division multiplies by the inverse, b^(P-2). *)
Definition Div (a b : Felt) : Felt :=
  (a * pow_mod b (Z.to_pos (CAIRO_PRIME - 2))) mod CAIRO_PRIME.

Definition IsZero (a : Felt) : bool := a =? 0.

(** Number of bits needed to write the felt; 0 for zero. *)
Definition Bits (a : Felt) : Z := if a =? 0 then 0 else Z.log2 a + 1.

Definition ToU64 (a : Felt) : Result Z :=
  if a <? 2 ^ 64 then Ok a else Err (ConversionError a).

Definition And (a b : Felt) : Felt := Z.land a b mod CAIRO_PRIME.
Definition Xor (a b : Felt) : Felt := Z.lxor a b mod CAIRO_PRIME.
Definition Or (a b : Felt) : Felt := Z.lor a b mod CAIRO_PRIME.

End lambdaworks.

(** ** Package memory: relocatables and the segmented memory *)
Module memory.

(** [type Relocatable struct { SegmentIndex int; Offset uint }] *)
Record Relocatable : Type := NewRelocatable { SegmentIndex : Z; Offset : Z }.

#[global] Instance Relocatable_eq_dec : EqDecision Relocatable.
Proof. solve_decision. Defined.

#[global] Instance Relocatable_countable : Countable Relocatable.
Proof.
  refine (inj_countable' (fun r => (SegmentIndex r, Offset r))
                         (fun p => NewRelocatable (fst p) (snd p)) _).
  intros []; reflexivity.
Defined.

(** [MaybeRelocatable] holds either a felt or a relocatable. *)
Inductive MaybeRelocatable : Type :=
  | NewMaybeRelocatableFelt (f : Z)
  | NewMaybeRelocatableRelocatable (r : Relocatable).

#[global] Instance MaybeRelocatable_eq_dec : EqDecision MaybeRelocatable.
Proof. solve_decision. Defined.

(** If m is a felt, the inner value and true; otherwise zero and false. *)
Definition GetFelt (m : MaybeRelocatable) : Z * bool :=
  match m with
  | NewMaybeRelocatableFelt f => (f, true)
  | NewMaybeRelocatableRelocatable _ => (0, false)
  end.

Definition GetRelocatable (m : MaybeRelocatable) : Relocatable * bool :=
  match m with
  | NewMaybeRelocatableFelt _ => (NewRelocatable 0 0, false)
  | NewMaybeRelocatableRelocatable r => (r, true)
  end.

(** True only for a felt that is zero. *)
Definition IsZero (m : MaybeRelocatable) : bool :=
  let '(felt, is_int) := GetFelt m in is_int && lambdaworks.IsZero felt.

(** Adds a felt to a relocatable; fails if the new offset exceeds a uint. *)
Definition AddFelt (r : Relocatable) (other : Z) : Relocatable * option Error :=
  let new_offset_felt :=
    lambdaworks.Add (lambdaworks.FeltFromUint64 (Offset r)) other in
  match lambdaworks.ToU64 new_offset_felt with
  | Err e => (r, Some e)
  | Ok new_offset => (NewRelocatable (SegmentIndex r) new_offset, None)
  end.

(** Distance between two relocatables of one segment. *)
Definition Sub (r other : Relocatable) : Result Z :=
  if negb (SegmentIndex r =? SegmentIndex other) then Err ErrDifferentSegmentIndexes
  else if Offset r <? Offset other then Err ErrNegativeOffset
  else Ok (Offset r - Offset other).

Definition SubFelt (r : Relocatable) (other : Z) : Relocatable * option Error :=
  let new_offset_felt :=
    lambdaworks.Sub (lambdaworks.FeltFromUint64 (Offset r)) other in
  match lambdaworks.ToU64 new_offset_felt with
  | Err e => (r, Some e)
  | Ok new_offset => (NewRelocatable (SegmentIndex r) new_offset, None)
  end.

(** Modelled from the spec: [AddUint], [SubUint], [AddMaybeRelocatable] and
    [IsEqual] are called by the sources but not defined in them.  Section
    4.2 of the specification gives the address computation as a signed
    add/sub on the offset with wrap-around where a negative result fails;
    section 3 allows address + felt and makes every other mixed form
    fail. *)
Definition AddUint (r : Relocatable) (other : Z) : Relocatable :=
  NewRelocatable (SegmentIndex r) (wrap64 (Offset r + other)).

Definition SubUint (r : Relocatable) (other : Z) : Result Relocatable :=
  if Offset r <? other then Err ErrNegativeOffset
  else Ok (NewRelocatable (SegmentIndex r) (Offset r - other)).

Definition AddMaybeRelocatable (r : Relocatable) (other : MaybeRelocatable)
  : Result Relocatable :=
  match other with
  | NewMaybeRelocatableFelt f =>
      match AddFelt r f with
      | (_, Some e) => Err e
      | (r', None) => Ok r'
      end
  | NewMaybeRelocatableRelocatable _ => Err ErrRelocatableAdd
  end.

Definition IsEqual (a b : MaybeRelocatable) : bool := bool_decide (a = b).

(** [MaybeRelocatable.Add]: felt + felt, relocatable + felt (either
    order); relocatable + relocatable fails. *)
Definition Add (m other : MaybeRelocatable) : Result MaybeRelocatable :=
  match m, other with
  | NewMaybeRelocatableFelt a, NewMaybeRelocatableFelt b =>
      Ok (NewMaybeRelocatableFelt (lambdaworks.Add a b))
  | NewMaybeRelocatableRelocatable m_rel, NewMaybeRelocatableFelt other_felt =>
      match AddFelt m_rel other_felt with
      | (_, Some e) => Err e
      | (relocatable, None) => Ok (NewMaybeRelocatableRelocatable relocatable)
      end
  | NewMaybeRelocatableFelt m_felt, NewMaybeRelocatableRelocatable other_rel =>
      match AddFelt other_rel m_felt with
      | (_, Some e) => Err e
      | (relocatable, None) => Ok (NewMaybeRelocatableRelocatable relocatable)
      end
  | NewMaybeRelocatableRelocatable _, NewMaybeRelocatableRelocatable _ =>
      Err ErrRelocatableAdd
  end.

(** [MaybeRelocatable.Sub]: felt - felt, relocatable - felt, relocatable -
    relocatable; felt - relocatable fails. *)
Definition SubMaybe (m other : MaybeRelocatable) : Result MaybeRelocatable :=
  match m, other with
  | NewMaybeRelocatableFelt a, NewMaybeRelocatableFelt b =>
      Ok (NewMaybeRelocatableFelt (lambdaworks.Sub a b))
  | NewMaybeRelocatableRelocatable m_rel, NewMaybeRelocatableFelt other_felt =>
      match SubFelt m_rel other_felt with
      | (_, Some e) => Err e
      | (relocatable, None) => Ok (NewMaybeRelocatableRelocatable relocatable)
      end
  | NewMaybeRelocatableRelocatable m_rel, NewMaybeRelocatableRelocatable other_rel =>
      match Sub m_rel other_rel with
      | Err e => Err e
      | Ok offset_diff =>
          Ok (NewMaybeRelocatableFelt (lambdaworks.FeltFromUint64 offset_diff))
      end
  | NewMaybeRelocatableFelt _, NewMaybeRelocatableRelocatable _ =>
      Err ErrSubRelocatableFromFelt
  end.

(** A validation rule reads the memory (through [Get]) and an address and
    returns the addresses it validated.  The rule's view of the memory is
    its data map. *)
Abbreviation ValidationRule :=
  (gmap Relocatable MaybeRelocatable -> Relocatable -> Result (list Relocatable)).

(** [type AddressSet map[Relocatable]bool] *)
Abbreviation AddressSet := (gset Relocatable).

Record Memory : Type := mkMemory {
  data : gmap Relocatable MaybeRelocatable;
  num_segments : Z;
  validation_rules : gmap Z ValidationRule;
  validated_addresses : gset Relocatable;
  accessed_addresses : gset Relocatable
}.

Definition NewMemory : Memory := mkMemory ∅ 0 ∅ ∅ ∅.

Definition set_data (m : Memory) (d : gmap Relocatable MaybeRelocatable) : Memory :=
  mkMemory d (num_segments m) (validation_rules m) (validated_addresses m)
           (accessed_addresses m).

Definition set_validated (m : Memory) (s : gset Relocatable) : Memory :=
  mkMemory (data m) (num_segments m) (validation_rules m) s (accessed_addresses m).

(** Adds a validation rule for a given segment. *)
Definition AddValidationRule (m : Memory) (segment_index : Z) (rule : ValidationRule)
  : Memory :=
  mkMemory (data m) (num_segments m) (<[segment_index := rule]> (validation_rules m))
           (validated_addresses m) (accessed_addresses m).

(** Modelled from the spec: [MarkAsAccessed] is not in the sources; by
    invariant (e) of section 3 it adds the address to the accessed set. *)
Definition MarkAsAccessed (m : Memory) (addr : Relocatable) : Memory :=
  mkMemory (data m) (num_segments m) (validation_rules m) (validated_addresses m)
           ({[addr]} ∪ accessed_addresses m).

(** Applies the validation rule of the address's segment, if any; skips
    temporary (negative) and already validated addresses. *)
Definition validateAddress (m : Memory) (addr : Relocatable) : Memory * option Error :=
  if (SegmentIndex addr <? 0) || bool_decide (addr ∈ validated_addresses m)
  then (m, None)
  else
    match validation_rules m !! to_uint (SegmentIndex addr) with
    | None => (m, None)
    | Some rule =>
        match rule (data m) addr with
        | Err e => (m, Some e)
        | Ok validated =>
            (set_validated m (list_to_set validated ∪ validated_addresses m), None)
        end
    end.

(** Inserts a value at an address. *)
Definition Insert (m : Memory) (addr : Relocatable) (val : MaybeRelocatable)
  : Memory * option Error :=
  (* insertions must be within the allocated segments *)
  if to_int (num_segments m) <=? SegmentIndex addr
  then (m, Some ErrUnallocatedSegment)
  else
    (* memory is write-once *)
    match data m !! addr with
    | Some prev_elem =>
        if negb (bool_decide (prev_elem = val)) then (m, Some ErrWriteOnce)
        else validateAddress (set_data m (<[addr := val]> (data m))) addr
    | None => validateAddress (set_data m (<[addr := val]> (data m))) addr
    end.

(** Gets the value stored at an address.  [GetData] is the lookup on the
    data map, which is what a validation rule sees of the memory. *)
Definition GetData (d : gmap Relocatable MaybeRelocatable) (addr : Relocatable)
  : Result MaybeRelocatable :=
  match d !! addr with
  | None => Err ErrValueNotFound
  | Some value => Ok value
  end.

Definition Get (m : Memory) (addr : Relocatable) : Result MaybeRelocatable :=
  GetData (data m) addr.

(** Modelled from the spec: [Memory.GetFelt] is called by the builtin
    runners but not defined in the sources; it is [Get] followed by the
    felt projection, failing with [ExpectedFelt] on a relocatable. *)
Definition MemGetFelt (m : Memory) (addr : Relocatable) : Result Z :=
  match Get m addr with
  | Err e => Err e
  | Ok (NewMaybeRelocatableFelt f) => Ok f
  | Ok (NewMaybeRelocatableRelocatable _) => Err ErrExpectedFelt
  end.

(** Runs the validation rules over every cell already in memory.  The Go
    loop ranges over the map; the cells are visited in the order of
    [map_to_list]. *)
Fixpoint validate_all (m : Memory) (addrs : list Relocatable) : Memory * option Error :=
  match addrs with
  | [] => (m, None)
  | addr :: rest =>
      match validateAddress m addr with
      | (m', Some e) => (m', Some e)
      | (m', None) => validate_all m' rest
      end
  end.

Definition ValidateExistingMemory (m : Memory) : Memory * option Error :=
  validate_all m (fst <$> map_to_list (data m)).

(** [type MemorySegmentManager struct { segmentSizes; Memory }] *)
Record MemorySegmentManager : Type := mkSegments {
  SegmentSizes : gmap Z Z;
  Mem : Memory
}.

Definition NewMemorySegmentManager : MemorySegmentManager := mkSegments ∅ NewMemory.

Definition set_Mem (s : MemorySegmentManager) (m : Memory) : MemorySegmentManager :=
  mkSegments (SegmentSizes s) m.

(** Raises the segment counter and returns the base of the new segment. *)
Definition AddSegment (s : MemorySegmentManager) : MemorySegmentManager * Relocatable :=
  let m := Mem s in
  let ptr := NewRelocatable (to_int (num_segments m)) 0 in
  (set_Mem s (mkMemory (data m) (wrap64 (num_segments m + 1)) (validation_rules m)
                       (validated_addresses m) (accessed_addresses m)),
   ptr).

(** Inserts the values contiguously from [ptr]; returns the next address. *)
Fixpoint LoadData_loop (m : Memory) (ptr : Relocatable) (data : list MaybeRelocatable)
  : Memory * Result Relocatable :=
  match data with
  | [] => (m, Ok ptr)
  | val :: rest =>
      match Insert m ptr val with
      | (m', Some e) => (m', Err e)
      | (m', None) =>
          LoadData_loop m' (NewRelocatable (SegmentIndex ptr) (wrap64 (Offset ptr + 1))) rest
      end
  end.

Definition LoadData (s : MemorySegmentManager) (ptr : Relocatable)
           (data : list MaybeRelocatable) : MemorySegmentManager * Result Relocatable :=
  let '(m', r) := LoadData_loop (Mem s) ptr data in
  (set_Mem s m', match r with Ok p => Ok p | Err e => Err e end).

End memory.

(** ** Package builtins: the builtin runners *)
Module builtins.
Import memory.

(** The [BuiltinRunner] interface.  A method with a pointer receiver returns
    the runner's new state. *)
Class BuiltinRunnerOps (R : Type) : Type := {
  ops_Base : R -> Relocatable;
  ops_Name : R -> string;
  ops_InitializeSegments : R -> MemorySegmentManager -> R * MemorySegmentManager;
  ops_InitialStack : R -> list MaybeRelocatable;
  ops_DeduceMemoryCell :
    R -> Relocatable -> Memory -> R * Result (option MaybeRelocatable);
  ops_AddValidationRule : R -> Memory -> Memory
}.

(** A value of interface type: a runner together with its method table. *)
Record BuiltinRunner : Type := PackBuiltin {
  runner_state : Type;
  runner_ops : BuiltinRunnerOps runner_state;
  runner_self : runner_state
}.

Definition Base (b : BuiltinRunner) : Relocatable :=
  @ops_Base _ (runner_ops b) (runner_self b).

Definition Name (b : BuiltinRunner) : string :=
  @ops_Name _ (runner_ops b) (runner_self b).

Definition InitializeSegments (b : BuiltinRunner) (s : MemorySegmentManager)
  : BuiltinRunner * MemorySegmentManager :=
  let '(self', s') := @ops_InitializeSegments _ (runner_ops b) (runner_self b) s in
  (PackBuiltin _ (runner_ops b) self', s').

Definition InitialStack (b : BuiltinRunner) : list MaybeRelocatable :=
  @ops_InitialStack _ (runner_ops b) (runner_self b).

Definition DeduceMemoryCell (b : BuiltinRunner) (addr : Relocatable) (mem : Memory)
  : BuiltinRunner * Result (option MaybeRelocatable) :=
  let '(self', r) := @ops_DeduceMemoryCell _ (runner_ops b) (runner_self b) addr mem in
  (PackBuiltin _ (runner_ops b) self', r).

Definition AddValidationRule (b : BuiltinRunner) (mem : Memory) : Memory :=
  @ops_AddValidationRule _ (runner_ops b) (runner_self b) mem.

(** *** Range check *)
Module RangeCheck.

(** Modelled from the spec: the two constants are declared outside the
    sources; the bound they give is 128 bits (section 4.5). *)
Definition INNER_RC_BOUND_SHIFT : Z := 16.
Definition N_PARTS : Z := 8.

Record RangeCheckBuiltinRunner : Type := mkRangeCheck {
  base : Relocatable;
  included : bool
}.

Definition InitializeSegments (r : RangeCheckBuiltinRunner) (segments : MemorySegmentManager)
  : RangeCheckBuiltinRunner * MemorySegmentManager :=
  let '(segments', ptr) := AddSegment segments in
  (mkRangeCheck ptr (included r), segments').

Definition InitialStack (r : RangeCheckBuiltinRunner) : list MaybeRelocatable :=
  if included r then [NewMaybeRelocatableRelocatable (base r)] else [].

Definition DeduceMemoryCell (r : RangeCheckBuiltinRunner) (addr : Relocatable) (mem : Memory)
  : RangeCheckBuiltinRunner * Result (option MaybeRelocatable) :=
  (r, Ok None).

(** The cell must hold a felt of at most 128 bits. *)
Definition ValidationRule (mem : gmap Relocatable MaybeRelocatable) (address : Relocatable)
  : Result (list Relocatable) :=
  match GetData mem address with
  | Err e => Err e
  | Ok res_val =>
      let '(felt, is_felt) := GetFelt res_val in
      if negb is_felt then Err NotAFeltError
      else if lambdaworks.Bits felt <=? N_PARTS * INNER_RC_BOUND_SHIFT
           then Ok [address]
           else Err (OutsideBoundsError felt)
  end.

Definition AddValidationRule (r : RangeCheckBuiltinRunner) (mem : Memory) : Memory :=
  memory.AddValidationRule mem (to_uint (SegmentIndex (base r))) ValidationRule.

#[global] Instance ops : BuiltinRunnerOps RangeCheckBuiltinRunner := {
  ops_Base := base;
  ops_Name := fun _ => "range_check"%string;
  ops_InitializeSegments := InitializeSegments;
  ops_InitialStack := InitialStack;
  ops_DeduceMemoryCell := DeduceMemoryCell;
  ops_AddValidationRule := AddValidationRule
}.

End RangeCheck.

(** *** Bitwise *)
Module Bitwise.

Definition BITWISE_CELLS_PER_INSTANCE : Z := 5.
Definition BITWISE_TOTAL_N_BITS : Z := 251.
Definition BIWISE_INPUT_CELLS_PER_INSTANCE : Z := 2.

Record BitwiseBuiltinRunner : Type := mkBitwise {
  base : Relocatable;
  included : bool
}.

Definition InitializeSegments (b : BitwiseBuiltinRunner) (segments : MemorySegmentManager)
  : BitwiseBuiltinRunner * MemorySegmentManager :=
  let '(segments', ptr) := AddSegment segments in
  (mkBitwise ptr (included b), segments').

Definition InitialStack (b : BitwiseBuiltinRunner) : list MaybeRelocatable :=
  if included b then [NewMaybeRelocatableRelocatable (base b)] else [].

Definition DeduceMemoryCell (b : BitwiseBuiltinRunner) (address : Relocatable) (mem : Memory)
  : BitwiseBuiltinRunner * Result (option MaybeRelocatable) :=
  let index := Offset address mod BITWISE_CELLS_PER_INSTANCE in
  if index <? BIWISE_INPUT_CELLS_PER_INSTANCE then (b, Ok None)
  else
    (* the error of SubUint is discarded; x_addr is then the zero value *)
    let x_addr := match SubUint address index with
                  | Ok a => a
                  | Err _ => NewRelocatable 0 0
                  end in
    let y_addr := AddUint x_addr 1 in
    match MemGetFelt mem x_addr with
    | Err _ => (b, Ok None)
    | Ok num_x_felt =>
        match MemGetFelt mem y_addr with
        | Err _ => (b, Ok None)
        | Ok num_y_felt =>
            if BITWISE_TOTAL_N_BITS <? lambdaworks.Bits num_x_felt
            then (b, Err (ErrFeltBiggerThanPowerOfTwo num_x_felt))
            else if BITWISE_TOTAL_N_BITS <? lambdaworks.Bits num_y_felt
            then (b, Err (ErrFeltBiggerThanPowerOfTwo num_y_felt))
            else
              (b, Ok (if index =? 2
                      then Some (NewMaybeRelocatableFelt (lambdaworks.And num_x_felt num_y_felt))
                      else if index =? 3
                      then Some (NewMaybeRelocatableFelt (lambdaworks.Xor num_x_felt num_y_felt))
                      else if index =? 4
                      then Some (NewMaybeRelocatableFelt (lambdaworks.Or num_x_felt num_y_felt))
                      else None))
        end
    end.

Definition AddValidationRule (b : BitwiseBuiltinRunner) (mem : Memory) : Memory := mem.

#[global] Instance ops : BuiltinRunnerOps BitwiseBuiltinRunner := {
  ops_Base := base;
  ops_Name := fun _ => "range_check"%string;
  ops_InitializeSegments := InitializeSegments;
  ops_InitialStack := InitialStack;
  ops_DeduceMemoryCell := DeduceMemoryCell;
  ops_AddValidationRule := AddValidationRule
}.

End Bitwise.

(** *** Pedersen *)
Module Pedersen.

Definition PEDERSEN_BUILTIN_NAME : string := "pedersen".
Definition PEDERSEN_CELLS_PER_INSTANCE : Z := 3.
Definition PEDERSEN_INPUT_CELLS_PER_INSTANCE : Z := 2.

Record PedersenBuiltinRunner : Type := mkPedersen {
  base : Relocatable;
  included : bool;
  verified_addresses : list bool;
  ratio : Z;
  instancesPerComponent : Z
}.

Definition NewPedersenBuiltinRunner (ratio : Z) : PedersenBuiltinRunner :=
  mkPedersen (NewRelocatable 0 0) false [] ratio 1.

Definition DefaultPedersenBuiltinRunner : PedersenBuiltinRunner :=
  mkPedersen (NewRelocatable 0 0) false [] 8 1.

Definition set_verified (p : PedersenBuiltinRunner) (v : list bool) : PedersenBuiltinRunner :=
  mkPedersen (base p) (included p) v (ratio p) (instancesPerComponent p).

Definition Include (p : PedersenBuiltinRunner) (include : bool) : PedersenBuiltinRunner :=
  mkPedersen (base p) include (verified_addresses p) (ratio p) (instancesPerComponent p).

Definition InitializeSegments (p : PedersenBuiltinRunner) (segments : MemorySegmentManager)
  : PedersenBuiltinRunner * MemorySegmentManager :=
  let '(segments', ptr) := AddSegment segments in
  (mkPedersen ptr (included p) (verified_addresses p) (ratio p) (instancesPerComponent p),
   segments').

Definition InitialStack (p : PedersenBuiltinRunner) : list MaybeRelocatable :=
  if included p then [NewMaybeRelocatableRelocatable (base p)] else [].

(** Indexing a slice out of its range panics. *)
Definition CheckVerifiedAddresses (p : PedersenBuiltinRunner) (address : Relocatable)
  : Result bool :=
  if Z.of_nat (length (verified_addresses p)) <? to_int (Offset address) then Ok false
  else
    match verified_addresses p !! Z.to_nat (Offset address) with
    | Some b => Ok b
    | None => Err ErrIndexOutOfRange
    end.

Definition ResizeVerifiedAddresses (p : PedersenBuiltinRunner) (address : Relocatable)
  : Result PedersenBuiltinRunner :=
  let num := to_int (Offset address) - Z.of_nat (length (verified_addresses p)) in
  let grown :=
    if 0 <? num
    then verified_addresses p ++ replicate (Z.to_nat (num + 1)) false
    else verified_addresses p in
  if Z.of_nat (length grown) <=? Offset address then Err ErrIndexOutOfRange
  else Ok (set_verified p (<[Z.to_nat (Offset address) := true]> grown)).

Section WithHash.

(** The Pedersen hash of the foreign [starknet_crypto] library. *)
Variable PedersenHash : Z -> Z -> Z.

Definition DeduceMemoryCell (p : PedersenBuiltinRunner) (address : Relocatable) (mem : Memory)
  : PedersenBuiltinRunner * Result (option MaybeRelocatable) :=
  if negb (Offset address mod PEDERSEN_CELLS_PER_INSTANCE =? PEDERSEN_INPUT_CELLS_PER_INSTANCE)
  then (p, Ok None)
  else
    match CheckVerifiedAddresses p address with
    | Err e => (p, Err e)
    | Ok true => (p, Ok None)
    | Ok false =>
        match MemGetFelt mem (NewRelocatable (SegmentIndex address)
                                             (wrap64 (Offset address - 1))) with
        | Err _ => (p, Ok None)
        | Ok feltA =>
            match MemGetFelt mem (NewRelocatable (SegmentIndex address)
                                                 (wrap64 (Offset address - 2))) with
            | Err _ => (p, Ok None)
            | Ok feltB =>
                match ResizeVerifiedAddresses p address with
                | Err e => (p, Err e)
                | Ok p' =>
                    let hash := PedersenHash feltB feltA in
                    (p', Ok (Some (NewMaybeRelocatableFelt hash)))
                end
            end
        end
    end.

Definition AddValidationRule (p : PedersenBuiltinRunner) (mem : Memory) : Memory := mem.

Definition ops : BuiltinRunnerOps PedersenBuiltinRunner := {|
  ops_Base := base;
  ops_Name := fun _ => PEDERSEN_BUILTIN_NAME;
  ops_InitializeSegments := InitializeSegments;
  ops_InitialStack := InitialStack;
  ops_DeduceMemoryCell := DeduceMemoryCell;
  ops_AddValidationRule := AddValidationRule
|}.

End WithHash.

End Pedersen.

(** *** Poseidon *)
Module Poseidon.

Definition POSEIDON_BUILTIN_NAME : string := "poseidon".
Definition POSEIDON_CELLS_PER_INSTANCE : Z := 6.
Definition POSEIDON_INPUT_CELLS_PER_INSTANCE : Z := 3.

Record PoseidonBuiltinRunner : Type := mkPoseidon {
  base : Relocatable;
  included : bool;
  cache : gmap Relocatable Z
}.

Definition NewPoseidonBuiltinRunner (included : bool) : PoseidonBuiltinRunner :=
  mkPoseidon (NewRelocatable 0 0) included ∅.

Definition set_cache (p : PoseidonBuiltinRunner) (c : gmap Relocatable Z)
  : PoseidonBuiltinRunner :=
  mkPoseidon (base p) (included p) c.

Definition InitializeSegments (p : PoseidonBuiltinRunner) (segments : MemorySegmentManager)
  : PoseidonBuiltinRunner * MemorySegmentManager :=
  let '(segments', ptr) := AddSegment segments in
  (mkPoseidon ptr (included p) (cache p), segments').

Definition InitialStack (p : PoseidonBuiltinRunner) : list MaybeRelocatable :=
  if included p then [NewMaybeRelocatableRelocatable (base p)] else [].

Section WithPermutation.

(** The Poseidon permutation of the foreign [starknet_crypto] library, on
    a state of three felts. *)
Variable PoseidonPermuteComp : Z * Z * Z -> Z * Z * Z.

(** Deduces an output cell from the three input cells of its instance; the
    three outputs are written to the cache and served from it later on.
    Reading the cache at a key that is absent gives the zero felt. *)
Definition DeduceMemoryCell (p : PoseidonBuiltinRunner) (address : Relocatable) (mem : Memory)
  : PoseidonBuiltinRunner * Result (option MaybeRelocatable) :=
  (* check if it is an input cell *)
  let index := Offset address mod POSEIDON_CELLS_PER_INSTANCE in
  if index <? POSEIDON_INPUT_CELLS_PER_INSTANCE then (p, Ok None)
  else
    match cache p !! address with
    | Some value => (p, Ok (Some (NewMaybeRelocatableFelt value)))
    | None =>
        (* the error of SubUint is discarded *)
        let input_start_addr := match SubUint address index with
                                | Ok a => a
                                | Err _ => NewRelocatable 0 0
                                end in
        let output_start_address :=
          AddUint input_start_addr POSEIDON_INPUT_CELLS_PER_INSTANCE in
        match MemGetFelt mem (AddUint input_start_addr 0) with
        | Err e => (p, Err e)
        | Ok felt0 =>
        match MemGetFelt mem (AddUint input_start_addr 1) with
        | Err e => (p, Err e)
        | Ok felt1 =>
        match MemGetFelt mem (AddUint input_start_addr 2) with
        | Err e => (p, Err e)
        | Ok felt2 =>
            let '(elem0, elem1, elem2) := PoseidonPermuteComp (felt0, felt1, felt2) in
            let cache' :=
              <[AddUint output_start_address 2 := elem2]>
                (<[AddUint output_start_address 1 := elem1]>
                   (<[AddUint output_start_address 0 := elem0]> (cache p))) in
            (set_cache p cache',
             Ok (Some (NewMaybeRelocatableFelt
                         (default lambdaworks.FeltZero (cache' !! address)))))
        end end end
    end.

Definition AddValidationRule (p : PoseidonBuiltinRunner) (mem : Memory) : Memory := mem.

Definition ops : BuiltinRunnerOps PoseidonBuiltinRunner := {|
  ops_Base := base;
  ops_Name := fun _ => POSEIDON_BUILTIN_NAME;
  ops_InitializeSegments := InitializeSegments;
  ops_InitialStack := InitialStack;
  ops_DeduceMemoryCell := DeduceMemoryCell;
  ops_AddValidationRule := AddValidationRule
|}.

End WithPermutation.

End Poseidon.

End builtins.

(** ** Package vm: instruction decoding and the step executor *)
Module vm.
Import memory.

Inductive Register : Type := AP | FP.
Inductive Op1Src : Type := Op1SrcImm | Op1SrcAP | Op1SrcFP | Op1SrcOp0.
Inductive ResLogic : Type := ResOp1 | ResAdd | ResMul | ResUnconstrained.
Inductive PcUpdate : Type := PcUpdateRegular | PcUpdateJump | PcUpdateJumpRel | PcUpdateJnz.
Inductive ApUpdate : Type := ApUpdateRegular | ApUpdateAdd | ApUpdateAdd1 | ApUpdateAdd2.
Inductive FpUpdate : Type := FpUpdateRegular | FpUpdateAPPlus2 | FpUpdateDst.
Inductive Opcode : Type := NOp | AssertEq | Call | Ret.

Record Instruction : Type := mkInstruction {
  Off0 : Z;
  Off1 : Z;
  Off2 : Z;
  DstReg : Register;
  Op0Reg : Register;
  Op1Addr : Op1Src;
  ResLogic_ : ResLogic;
  PcUpdate_ : PcUpdate;
  ApUpdate_ : ApUpdate;
  FpUpdate_ : FpUpdate;
  Opcode_ : Opcode
}.

(** [int(int16(uint16(offset) - bias))]: the subtraction wraps in 16 bits and
    the result is read as a signed 16-bit value. *)
Definition fromBiasedRepresentation (offset : Z) : Z :=
  let bias := 2 ^ 15 in
  let u := (offset mod 2 ^ 16 - bias) mod 2 ^ 16 in
  if u <? 2 ^ 15 then u else u - 2 ^ 16.

Definition DecodeInstruction (encodedInstruction : Z) : Result Instruction :=
  let HighBit := Z.shiftl 1 63 in
  let DstRegMask := 0x0001 in
  let DstRegOff := 0 in
  let Op0RegMask := 0x0002 in
  let Op0RegOff := 1 in
  let Op1SrcMask := 0x001C in
  let Op1SrcOff := 2 in
  let ResLogicMask := 0x0060 in
  let ResLogicOff := 5 in
  let PcUpdateMask := 0x0380 in
  let PcUpdateOff := 7 in
  let ApUpdateMask := 0x0C00 in
  let ApUpdateOff := 10 in
  let OpcodeMask := 0x7000 in
  let OpcodeOff := 12 in
  if negb (Z.land encodedInstruction HighBit =? 0) then Err ErrNonZeroHighBitError
  else
    let offset0 := fromBiasedRepresentation (Z.land encodedInstruction 0xFFFF) in
    let offset1 := fromBiasedRepresentation (Z.land (Z.shiftr encodedInstruction 16) 0xFFFF) in
    let offset2 := fromBiasedRepresentation (Z.land (Z.shiftr encodedInstruction 32) 0xFFFF) in
    let flags := Z.shiftr encodedInstruction 48 in
    let dstRegNum := Z.shiftr (Z.land flags DstRegMask) DstRegOff in
    let op0RegNum := Z.shiftr (Z.land flags Op0RegMask) Op0RegOff in
    let op1SrcNum := Z.shiftr (Z.land flags Op1SrcMask) Op1SrcOff in
    let resLogicNum := Z.shiftr (Z.land flags ResLogicMask) ResLogicOff in
    let pcUpdateNum := Z.shiftr (Z.land flags PcUpdateMask) PcUpdateOff in
    let apUpdateNum := Z.shiftr (Z.land flags ApUpdateMask) ApUpdateOff in
    let opCodeNum := Z.shiftr (Z.land flags OpcodeMask) OpcodeOff in
    let dstRegister := if dstRegNum =? 1 then FP else AP in
    let op0Register := if op0RegNum =? 1 then FP else AP in
    match (match op1SrcNum with
           | 0 => Ok Op1SrcOp0
           | 1 => Ok Op1SrcImm
           | 2 => Ok Op1SrcFP
           | 4 => Ok Op1SrcAP
           | _ => Err ErrInvalidOp1RegError
           end) with
    | Err e => Err e
    | Ok op1Src =>
    match (match pcUpdateNum with
           | 0 => Ok PcUpdateRegular
           | 1 => Ok PcUpdateJump
           | 2 => Ok PcUpdateJumpRel
           | 4 => Ok PcUpdateJnz
           | _ => Err ErrInvalidPcUpdateError
           end) with
    | Err e => Err e
    | Ok pcUpdate =>
    match (match resLogicNum with
           | 0 => Ok (match pcUpdate with PcUpdateJnz => ResUnconstrained | _ => ResOp1 end)
           | 1 => Ok ResAdd
           | 2 => Ok ResMul
           | _ => Err ErrInvalidResError
           end) with
    | Err e => Err e
    | Ok res =>
    match (match opCodeNum with
           | 0 => Ok NOp
           | 1 => Ok Call
           | 2 => Ok Ret
           | 4 => Ok AssertEq
           | _ => Err ErrInvalidOpcodeError
           end) with
    | Err e => Err e
    | Ok opcode =>
    match (match apUpdateNum with
           | 0 => Ok (match opcode with Call => ApUpdateAdd2 | _ => ApUpdateRegular end)
           | 1 => Ok ApUpdateAdd
           | 2 => Ok ApUpdateAdd1
           | _ => Err ErrInvalidApUpdateError
           end) with
    | Err e => Err e
    | Ok apUpdate =>
        let fpUpdate := match opcode with
                        | Call => FpUpdateAPPlus2
                        | Ret => FpUpdateDst
                        | _ => FpUpdateRegular
                        end in
        Ok (mkInstruction offset0 offset1 offset2 dstRegister op0Register op1Src
                          res pcUpdate apUpdate fpUpdate opcode)
    end end end end end.

(** 2 when the instruction carries an immediate, 1 otherwise. *)
Definition Size (i : Instruction) : Z :=
  match Op1Addr i with Op1SrcImm => 2 | _ => 1 end.

Record RunContext : Type := mkRunContext {
  Pc : Relocatable;
  Ap : Relocatable;
  Fp : Relocatable
}.

Record TraceEntry : Type := mkTraceEntry {
  TracePc : Relocatable;
  TraceAp : Relocatable;
  TraceFp : Relocatable
}.

Record VirtualMachine : Type := mkVM {
  RunCtx : RunContext;
  CurrentStep : Z;
  Segments : MemorySegmentManager;
  BuiltinRunners : list builtins.BuiltinRunner;
  Trace : list TraceEntry
}.

Definition NewVirtualMachine : VirtualMachine :=
  mkVM (mkRunContext (NewRelocatable 0 0) (NewRelocatable 0 0) (NewRelocatable 0 0))
       0 NewMemorySegmentManager [] [].

Definition set_RunCtx (v : VirtualMachine) (c : RunContext) : VirtualMachine :=
  mkVM c (CurrentStep v) (Segments v) (BuiltinRunners v) (Trace v).

Definition set_Segments (v : VirtualMachine) (s : MemorySegmentManager) : VirtualMachine :=
  mkVM (RunCtx v) (CurrentStep v) s (BuiltinRunners v) (Trace v).

Definition set_Memory (v : VirtualMachine) (m : Memory) : VirtualMachine :=
  set_Segments v (set_Mem (Segments v) m).

Definition set_BuiltinRunners (v : VirtualMachine) (b : list builtins.BuiltinRunner)
  : VirtualMachine :=
  mkVM (RunCtx v) (CurrentStep v) (Segments v) b (Trace v).

Definition set_Pc (c : RunContext) (r : Relocatable) : RunContext := mkRunContext r (Ap c) (Fp c).
Definition set_Ap (c : RunContext) (r : Relocatable) : RunContext := mkRunContext (Pc c) r (Fp c).
Definition set_Fp (c : RunContext) (r : Relocatable) : RunContext := mkRunContext (Pc c) (Ap c) r.

Record Operands : Type := mkOperands {
  Dst : MaybeRelocatable;
  Op0 : MaybeRelocatable;
  Op1 : MaybeRelocatable;
  Res : option MaybeRelocatable
}.

(** [float64(n)] for a natural number [n], as an integer: exact when [n]
    has at most 53 significant bits, otherwise [n] rounded to 53
    significant bits, to the nearest value and to the even one on a tie. *)
Definition round_float64 (n : Z) : Z :=
  if n <? 2 ^ 53 then n
  else
    let e := Z.log2 n - 52 in
    let q := n / 2 ^ e in
    let r := n mod 2 ^ e in
    let half := 2 ^ (e - 1) in
    let q := if r <? half then q
             else if half <? r then q + 1
             else if Z.even q then q else q + 1 in
    q * 2 ^ e.

(** The address of an operand: the base register plus the signed offset.
    The magnitude of a negative offset is [uint(math.Abs(float64(off)))],
    which goes through a 64-bit float; a non-negative offset is converted
    with [uint(off)]. *)
Definition add_offset (base_addr : Relocatable) (off : Z) : Result Relocatable :=
  if off <? 0 then SubUint base_addr (round_float64 (Z.abs off))
  else Ok (AddUint base_addr off).

Definition ComputeDstAddr (run_context : RunContext) (instruction : Instruction)
  : Result Relocatable :=
  let base_addr := match DstReg instruction with
                   | AP => Ap run_context
                   | FP => Fp run_context
                   end in
  add_offset base_addr (Off0 instruction).

Definition ComputeOp0Addr (run_context : RunContext) (instruction : Instruction)
  : Result Relocatable :=
  let base_addr := match Op0Reg instruction with
                   | AP => Ap run_context
                   | FP => Fp run_context
                   end in
  add_offset base_addr (Off1 instruction).

Definition ComputeOp1Addr (run_context : RunContext) (instruction : Instruction)
           (op0 : option MaybeRelocatable) : Result Relocatable :=
  match (match Op1Addr instruction with
         | Op1SrcFP => Ok (Fp run_context)
         | Op1SrcAP => Ok (Ap run_context)
         | Op1SrcImm =>
             if Off2 instruction =? 1 then Ok (Pc run_context) else Err ErrUnknownOp0Imm
         | Op1SrcOp0 =>
             match op0 with
             | None => Err ErrUnknownOp0
             | Some op0 =>
                 let '(rel, is_rel) := GetRelocatable op0 in
                 if is_rel then Ok rel else Err ErrAddressNotRelocatable
             end
         end) with
  | Err e => Err e
  | Ok base_addr => add_offset base_addr (Off2 instruction)
  end.

(** Deduces op0 from dst and op1; also returns res when it is deduced. *)
Definition DeduceOp0 (vm : VirtualMachine) (instruction : Instruction)
           (dst op1 : option MaybeRelocatable)
  : Result (option MaybeRelocatable * option MaybeRelocatable) :=
  match Opcode_ instruction with
  | Call =>
      let pc := Pc (RunCtx vm) in
      let deduced_op0 :=
        NewRelocatable (SegmentIndex pc) (wrap64 (Offset pc + Size instruction)) in
      Ok (Some (NewMaybeRelocatableRelocatable deduced_op0), None)
  | AssertEq =>
      match ResLogic_ instruction, dst, op1 with
      | ResAdd, Some dst, Some op1 =>
          match SubMaybe dst op1 with
          | Err e => Err e
          | Ok deduced_op0 => Ok (Some deduced_op0, Some dst)
          end
      | ResMul, Some dst, Some op1 =>
          let '(dst_felt, dst_is_felt) := GetFelt dst in
          let '(op1_felt, op1_is_felt) := GetFelt op1 in
          if dst_is_felt && op1_is_felt && negb (lambdaworks.IsZero op1_felt)
          then Ok (Some (NewMaybeRelocatableFelt (lambdaworks.Div dst_felt op1_felt)), Some dst)
          else Ok (None, None)
      | _, _, _ => Ok (None, None)
      end
  | _ => Ok (None, None)
  end.

(** Deduces op1 from dst and op0.  In the ResMul case the operands are
    dereferenced without a nil check. *)
Definition DeduceOp1 (vm : VirtualMachine) (instruction : Instruction)
           (dst op0 : option MaybeRelocatable)
  : Result (option MaybeRelocatable * option MaybeRelocatable) :=
  match Opcode_ instruction with
  | AssertEq =>
      match ResLogic_ instruction with
      | ResOp1 => Ok (dst, dst)
      | ResAdd =>
          match op0, dst with
          | Some op0, Some dst =>
              match SubMaybe dst op0 with
              | Err e => Err e
              | Ok dst_rel => Ok (Some dst_rel, Some dst)
              end
          | _, _ => Ok (None, None)
          end
      | ResMul =>
          match dst, op0 with
          | Some dst, Some op0 =>
              let '(dst_felt, dst_is_felt) := GetFelt dst in
              let '(op0_felt, op0_is_felt) := GetFelt op0 in
              if dst_is_felt && op0_is_felt && negb (lambdaworks.IsZero op0_felt)
              then Ok (Some (NewMaybeRelocatableFelt (lambdaworks.Div dst_felt op0_felt)),
                       Some dst)
              else Ok (None, None)
          | _, _ => Err ErrNilDereference
          end
      | ResUnconstrained => Ok (None, None)
      end
  | _ => Ok (None, None)
  end.

Definition ComputeRes (vm : VirtualMachine) (instruction : Instruction)
           (op0 op1 : MaybeRelocatable) : Result (option MaybeRelocatable) :=
  match ResLogic_ instruction with
  | ResOp1 => Ok (Some op1)
  | ResAdd =>
      match Add op0 op1 with
      | Err e => Err e
      | Ok maybe_rel => Ok (Some maybe_rel)
      end
  | ResMul =>
      let '(num_op0, m_type) := GetFelt op0 in
      let '(num_op1, other_type) := GetFelt op1 in
      if m_type && other_type
      then Ok (Some (NewMaybeRelocatableFelt (lambdaworks.Mul num_op0 num_op1)))
      else Err ErrComputeResRelocatableMul
  | ResUnconstrained => Ok None
  end.

Definition DeduceDst (vm : VirtualMachine) (instruction : Instruction)
           (res : option MaybeRelocatable) : option MaybeRelocatable :=
  match Opcode_ instruction with
  | AssertEq => res
  | Call => Some (NewMaybeRelocatableRelocatable (Fp (RunCtx vm)))
  | _ => None
  end.

(** Runs the deduction rule of the builtin that owns the address's segment:
    the first runner whose base has that segment index. *)
Fixpoint deduce_in (runners : list builtins.BuiltinRunner) (addr : Relocatable) (mem : Memory)
  : list builtins.BuiltinRunner * Result (option MaybeRelocatable) :=
  match runners with
  | [] => ([], Ok None)
  | b :: rest =>
      if SegmentIndex (builtins.Base b) =? SegmentIndex addr
      then let '(b', r) := builtins.DeduceMemoryCell b addr mem in (b' :: rest, r)
      else let '(rest', r) := deduce_in rest addr mem in (b :: rest', r)
  end.

Definition DeduceMemoryCell (vm : VirtualMachine) (addr : Relocatable)
  : VirtualMachine * Result (option MaybeRelocatable) :=
  let '(runners, r) := deduce_in (BuiltinRunners vm) addr (Mem (Segments vm)) in
  (set_BuiltinRunners vm runners, r).

(** An insertion whose error is dropped. *)
Definition insert_ignore (vm : VirtualMachine) (addr : Relocatable) (val : MaybeRelocatable)
  : VirtualMachine :=
  set_Memory vm (fst (Insert (Mem (Segments vm)) addr val)).

(** Deductions for op0: the builtin first, then dst and op1; the deduced
    operand is inserted. *)
Definition ComputeOp0Deductions (vm : VirtualMachine) (op0_addr : Relocatable)
           (instruction : Instruction) (dst op1 : option MaybeRelocatable)
  : VirtualMachine * Result (MaybeRelocatable * option MaybeRelocatable) :=
  match DeduceMemoryCell vm op0_addr with
  | (vm, Err e) => (vm, Err e)
  | (vm, Ok op0) =>
      match (match op0 with
             | Some v => Ok (Some v, None)
             | None => DeduceOp0 vm instruction dst op1
             end) with
      | Err e => (vm, Err e)
      | Ok (Some op0, deduced_res) => (insert_ignore vm op0_addr op0, Ok (op0, deduced_res))
      | Ok (None, _) => (vm, Err ErrFailedToDeduceOp0)
      end
  end.

(** Deductions for op1.  A res deduced here is assigned to the parameter
    only and does not reach the caller. *)
Definition ComputeOp1Deductions (vm : VirtualMachine) (op1_addr : Relocatable)
           (instruction : Instruction) (dst op0 res : option MaybeRelocatable)
  : VirtualMachine * Result MaybeRelocatable :=
  match DeduceMemoryCell vm op1_addr with
  | (vm, Err e) => (vm, Err e)
  | (vm, Ok op1) =>
      match (match op1 with
             | Some v => Ok (Some v)
             | None =>
                 match DeduceOp1 vm instruction dst op0 with
                 | Err e => Err e
                 | Ok (op1, _) => Ok op1
                 end
             end) with
      | Err e => (vm, Err e)
      | Ok (Some op1) => (insert_ignore vm op1_addr op1, Ok op1)
      | Ok None => (vm, Err ErrFailedToDeduceOp1)
      end
  end.

Definition result_option {A : Type} (r : Result A) : option A :=
  match r with Ok a => Some a | Err _ => None end.

Definition ComputeOperands (vm : VirtualMachine) (instruction : Instruction)
  : VirtualMachine * Result Operands :=
  match ComputeDstAddr (RunCtx vm) instruction with
  | Err _ => (vm, Err ErrFailedToComputeDstAddr)
  | Ok dst_addr =>
  let dst := result_option (Get (Mem (Segments vm)) dst_addr) in
  match ComputeOp0Addr (RunCtx vm) instruction with
  | Err e => (vm, Err (ErrFailedToComputeOp0Addr e))
  | Ok op0_addr =>
  let op0_op := result_option (Get (Mem (Segments vm)) op0_addr) in
  match ComputeOp1Addr (RunCtx vm) instruction op0_op with
  | Err e => (vm, Err (ErrFailedToComputeOp1Addr e))
  | Ok op1_addr =>
  let op1_op := result_option (Get (Mem (Segments vm)) op1_addr) in
  match (match op0_op with
         | Some op0 => (vm, Ok (op0, None))
         | None => ComputeOp0Deductions vm op0_addr instruction dst op1_op
         end) with
  | (vm, Err e) => (vm, Err e)
  | (vm, Ok (op0, res)) =>
  match (match op1_op with
         | Some op1 => (vm, Ok op1)
         | None => ComputeOp1Deductions vm op1_addr instruction dst op0_op res
         end) with
  | (vm, Err e) => (vm, Err e)
  | (vm, Ok op1) =>
  match (match res with
         | Some r => Ok (Some r)
         | None => ComputeRes vm instruction op0 op1
         end) with
  | Err e => (vm, Err e)
  | Ok res =>
      match dst with
      | Some dst => (vm, Ok (mkOperands dst op0 op1 res))
      | None =>
          match DeduceDst vm instruction res with
          | Some dst => (insert_ignore vm dst_addr dst, Ok (mkOperands dst op0 op1 res))
          | None => (vm, Err ErrNilDereference)
          end
      end
  end end end end end end.

Definition OpcodeAssertions (vm : VirtualMachine) (instruction : Instruction)
           (operands : Operands) : option Error :=
  match Opcode_ instruction with
  | AssertEq =>
      match Res operands with
      | None => Some ErrUnconstrainedResAssertEq
      | Some res =>
          if negb (IsEqual res (Dst operands)) then Some ErrDiffAssertValues else None
      end
  | Call =>
      let new_rel := AddUint (Pc (RunCtx vm)) (Size instruction) in
      let returnPC := NewMaybeRelocatableRelocatable new_rel in
      if negb (IsEqual (Op0 operands) returnPC) then Some ErrCantWriteReturnPc
      else
        let returnFP := Fp (RunCtx vm) in
        let '(dstRelocatable, _) := GetRelocatable (Dst operands) in
        if negb (bool_decide (returnFP = dstRelocatable)) then Some ErrCantWriteReturnFp
        else None
  | _ => None
  end.

(** Updates pc according to the executed instruction. *)
Definition UpdatePc (vm : VirtualMachine) (instruction : Instruction) (operands : Operands)
  : VirtualMachine * option Error :=
  let pc := Pc (RunCtx vm) in
  match PcUpdate_ instruction with
  | PcUpdateRegular =>
      (set_RunCtx vm (set_Pc (RunCtx vm)
         (NewRelocatable (SegmentIndex pc) (wrap64 (Offset pc + Size instruction)))), None)
  | PcUpdateJump =>
      match Res operands with
      | None => (vm, Some ErrUnconstrainedResJump)
      | Some r =>
          let '(res, ok) := GetRelocatable r in
          if negb ok then (vm, Some ErrJumpTargetNotRelocatable)
          else (set_RunCtx vm (set_Pc (RunCtx vm) res), None)
      end
  | PcUpdateJumpRel =>
      match Res operands with
      | None => (vm, Some ErrUnconstrainedResJumpRel)
      | Some r =>
          let '(res, ok) := GetFelt r in
          if negb ok then (vm, Some ErrRelJumpTargetNotFelt)
          else
            match AddFelt pc res with
            | (_, Some e) => (vm, Some e)
            | (new_pc, None) => (set_RunCtx vm (set_Pc (RunCtx vm) new_pc), None)
            end
      end
  | PcUpdateJnz =>
      if IsZero (Dst operands)
      then (set_RunCtx vm (set_Pc (RunCtx vm)
              (NewRelocatable (SegmentIndex pc) (wrap64 (Offset pc + Size instruction)))), None)
      else
        match AddMaybeRelocatable pc (Op1 operands) with
        | Err e => (vm, Some e)
        | Ok new_pc => (set_RunCtx vm (set_Pc (RunCtx vm) new_pc), None)
        end
  end.

(** Updates fp according to the executed instruction. *)
Definition UpdateFp (vm : VirtualMachine) (instruction : Instruction) (operands : Operands)
  : VirtualMachine * option Error :=
  let fp := Fp (RunCtx vm) in
  match FpUpdate_ instruction with
  | FpUpdateAPPlus2 =>
      (set_RunCtx vm (set_Fp (RunCtx vm)
         (NewRelocatable (SegmentIndex fp) (wrap64 (Offset (Ap (RunCtx vm)) + 2)))), None)
  | FpUpdateDst =>
      let '(rel, ok) := GetRelocatable (Dst operands) in
      if ok then (set_RunCtx vm (set_Fp (RunCtx vm) rel), None)
      else
        let '(felt, _) := GetFelt (Dst operands) in
        match AddFelt fp felt with
        | (_, Some e) => (vm, Some e)
        | (new_fp, None) => (set_RunCtx vm (set_Fp (RunCtx vm) new_fp), None)
        end
  | FpUpdateRegular => (vm, None)
  end.

(** Updates ap according to the executed instruction. *)
Definition UpdateAp (vm : VirtualMachine) (instruction : Instruction) (operands : Operands)
  : VirtualMachine * option Error :=
  let ap := Ap (RunCtx vm) in
  match ApUpdate_ instruction with
  | ApUpdateAdd =>
      match Res operands with
      | None => (vm, Some ErrUnconstrainedResApAdd)
      | Some res =>
          match AddMaybeRelocatable ap res with
          | Err e => (vm, Some e)
          | Ok new_ap => (set_RunCtx vm (set_Ap (RunCtx vm) new_ap), None)
          end
      end
  | ApUpdateAdd1 =>
      (set_RunCtx vm (set_Ap (RunCtx vm)
         (NewRelocatable (SegmentIndex ap) (wrap64 (Offset ap + 1)))), None)
  | ApUpdateAdd2 =>
      (set_RunCtx vm (set_Ap (RunCtx vm)
         (NewRelocatable (SegmentIndex ap) (wrap64 (Offset ap + 2)))), None)
  | ApUpdateRegular => (vm, None)
  end.

(** Modelled from the spec: [UpdateRegisters] is called by [RunInstruction]
    but not defined in the sources.  Step 8 of section 4.2 updates the three
    registers as section 4.3 describes; fp is updated from the ap of the
    instruction (scenario 2 of section 8: the callee's fp is the ap at the
    call plus 2), hence before ap. *)
Definition UpdateRegisters (vm : VirtualMachine) (instruction : Instruction)
           (operands : Operands) : VirtualMachine * option Error :=
  match UpdateFp vm instruction operands with
  | (vm, Some e) => (vm, Some e)
  | (vm, None) =>
      match UpdateAp vm instruction operands with
      | (vm, Some e) => (vm, Some e)
      | (vm, None) => UpdatePc vm instruction operands
      end
  end.

Definition RunInstruction (v : VirtualMachine) (instruction : Instruction)
  : VirtualMachine * option Error :=
  match ComputeOperands v instruction with
  | (v, Err e) => (v, Some e)
  | (v, Ok operands) =>
      match OpcodeAssertions v instruction operands with
      | Some e => (v, Some e)
      | None =>
          let c := RunCtx v in
          let v := mkVM (RunCtx v) (CurrentStep v) (Segments v) (BuiltinRunners v)
                        (Trace v ++ [mkTraceEntry (Pc c) (Ap c) (Fp c)]) in
          match UpdateRegisters v instruction operands with
          | (v, Some e) => (v, Some e)
          | (v, None) =>
              (mkVM (RunCtx v) (wrap64 (CurrentStep v + 1)) (Segments v) (BuiltinRunners v)
                    (Trace v), None)
          end
      end
  end.

(** One step: fetch the felt at pc, decode it, run the instruction. *)
Definition Step (v : VirtualMachine) : VirtualMachine * option Error :=
  match Get (Mem (Segments v)) (Pc (RunCtx v)) with
  | Err _ => (v, Some ErrFetchInstruction)
  | Ok encoded_instruction =>
      let '(encoded_instruction_felt, ok) := GetFelt encoded_instruction in
      if negb ok then (v, Some ErrWrongInstructionEncoding)
      else
        match lambdaworks.ToU64 encoded_instruction_felt with
        | Err e => (v, Some e)
        | Ok encoded_instruction_uint =>
            match DecodeInstruction encoded_instruction_uint with
            | Err e => (v, Some e)
            | Ok instruction => RunInstruction v instruction
            end
        end
  end.

(** *** Hints *)

(** Modelled from the spec: the types of the hint machinery are not in
    the sources, and hints are opaque to the core (section 9).  The
    parameters of a hint and the reference manager come from the program
    parser, the compiled hints from the hint processor, the constants
    from [Program.ExtractConstants] and the execution scopes from package
    [types]. *)
Record HintTypes : Type := mkHintTypes {
  HintParams : Type;
  HintData : Type;
  ReferenceManager : Type;
  Constants : Type;
  ExecutionScopes : Type
}.

(** Modelled from the spec: the interface [vm.HintProcessor] is not in
    the sources.  The runner calls [CompileHint] on a hint and the
    reference manager of the program and gets the compiled hint or an
    error.  [ExecuteHint] is the external code of the pre-step extension
    point (section 9, hint integration), which is handed the machine and
    the execution scopes, may change them and may fail. *)
Record HintProcessor (T : HintTypes) : Type := mkHintProcessor {
  CompileHint : HintParams T -> ReferenceManager T -> Result (HintData T);
  ExecuteHint : VirtualMachine -> HintData T -> Constants T -> ExecutionScopes T
                -> VirtualMachine * ExecutionScopes T * option Error
}.
Arguments mkHintProcessor {T} _ _.
Arguments CompileHint {T} _ _ _.
Arguments ExecuteHint {T} _ _ _ _ _.

(** Modelled from the spec: the compiled hints of one pc are executed in
    order, and the first error stops (section 7). *)
Fixpoint execute_hints {T : HintTypes} (hintProcessor : HintProcessor T)
         (hintDatas : list (HintData T)) (constants : Constants T)
         (v : VirtualMachine) (execScopes : ExecutionScopes T)
  : VirtualMachine * ExecutionScopes T * option Error :=
  match hintDatas with
  | [] => (v, execScopes, None)
  | hintData :: rest =>
      match ExecuteHint hintProcessor v hintData constants execScopes with
      | (v, execScopes, Some e) => (v, execScopes, Some e)
      | (v, execScopes, None) => execute_hints hintProcessor rest constants v execScopes
      end
  end.

(** Modelled from the spec: the step that the runner calls, [Step] with a
    hint processor, a hint data map, the constants and the execution
    scopes, is not in the sources.  By the hint-integration point of
    section 9 the step loop has a pre-step extension point keyed by pc: the
    hints compiled for the offset of pc are executed first, an error of a
    hint aborts the step (section 7), and then the instruction at pc is
    executed as in [Step]. *)
Definition StepHints {T : HintTypes} (hintProcessor : HintProcessor T)
           (hintDataMap : gmap Z (list (HintData T))) (constants : Constants T)
           (v : VirtualMachine) (execScopes : ExecutionScopes T)
  : VirtualMachine * ExecutionScopes T * option Error :=
  match (match hintDataMap !! Offset (Pc (RunCtx v)) with
         | Some hintDatas => execute_hints hintProcessor hintDatas constants v execScopes
         | None => (v, execScopes, None)
         end) with
  | (v, execScopes, Some e) => (v, execScopes, Some e)
  | (v, execScopes, None) => let '(v, err) := Step v in (v, execScopes, err)
  end.

End vm.

(** ** Package runners: the Cairo runner *)
Module runners.
Import memory.
Import vm.

(** The fields of [vm.Program] that the runner reads.  The main offset is
    looked up once, by [NewCairoRunner], in the program's identifiers. *)
Record Program : Type := mkProgram {
  Data : list MaybeRelocatable;
  Start : Z;
  End_ : Z
}.

Record CairoRunner : Type := mkRunner {
  Program_ : Program;
  Vm : VirtualMachine;
  ProgramBase : Relocatable;
  executionBase : Relocatable;
  initialPc : Relocatable;
  initialAp : Relocatable;
  initialFp : Relocatable;
  finalPc : option Relocatable;
  mainOffset : Z;
  ProofMode : bool;
  RunEnded : bool;
  ExecutionPublicMemory : option (list Z);
  SegmentsFinalized : bool
}.

(** The runner as [NewCairoRunner] and [initializeBuiltins] leave it: a new
    virtual machine that holds the builtin runners selected from the layout
    (layouts are outside the sources, so the selected runners are given). *)
Definition NewCairoRunner (program : Program) (main_offset : Z)
           (builtinRunners : list builtins.BuiltinRunner) (proofMode : bool) : CairoRunner :=
  let zero := NewRelocatable 0 0 in
  mkRunner program (set_BuiltinRunners NewVirtualMachine builtinRunners)
           zero zero zero zero zero None main_offset proofMode false None false.

Definition set_Vm (r : CairoRunner) (v : VirtualMachine) : CairoRunner :=
  mkRunner (Program_ r) v (ProgramBase r) (executionBase r) (initialPc r) (initialAp r)
           (initialFp r) (finalPc r) (mainOffset r) (ProofMode r) (RunEnded r)
           (ExecutionPublicMemory r) (SegmentsFinalized r).

Definition set_RunEnded (r : CairoRunner) (b : bool) : CairoRunner :=
  mkRunner (Program_ r) (Vm r) (ProgramBase r) (executionBase r) (initialPc r) (initialAp r)
           (initialFp r) (finalPc r) (mainOffset r) (ProofMode r) b
           (ExecutionPublicMemory r) (SegmentsFinalized r).

(** Calls [AddSegment] on the runner's segment manager. *)
Definition add_segment (r : CairoRunner) : CairoRunner * Relocatable :=
  let '(s, ptr) := AddSegment (Segments (Vm r)) in
  (set_Vm r (set_Segments (Vm r) s), ptr).

Fixpoint initialize_builtin_segments (bs : list builtins.BuiltinRunner)
         (s : MemorySegmentManager) : list builtins.BuiltinRunner * MemorySegmentManager :=
  match bs with
  | [] => ([], s)
  | b :: rest =>
      let '(b', s') := builtins.InitializeSegments b s in
      let '(rest', s'') := initialize_builtin_segments rest s' in
      (b' :: rest', s'')
  end.

(** Creates program, execution and builtin segments. *)
Definition initializeSegments (r : CairoRunner) : CairoRunner :=
  let '(r, program_base) := add_segment r in
  let '(r, execution_base) := add_segment r in
  let '(bs, s) := initialize_builtin_segments (BuiltinRunners (Vm r)) (Segments (Vm r)) in
  let v := set_BuiltinRunners (set_Segments (Vm r) s) bs in
  mkRunner (Program_ r) v program_base execution_base (initialPc r) (initialAp r)
           (initialFp r) (finalPc r) (mainOffset r) (ProofMode r) (RunEnded r)
           (ExecutionPublicMemory r) (SegmentsFinalized r).

(** The data segment is marked as accessed, cell by cell. *)
Fixpoint mark_accessed_from (m : Memory) (base : Relocatable) (i : Z) (n : nat) : Memory :=
  match n with
  | O => m
  | S k =>
      mark_accessed_from
        (MarkAsAccessed m (NewRelocatable (SegmentIndex base) (wrap64 (Offset base + i))))
        base (i + 1) k
  end.

(** Initializes the program segment and the initial pc. *)
Definition initializeState (r : CairoRunner) (entrypoint : Z) (stack : list MaybeRelocatable)
  : CairoRunner * option Error :=
  let initial_pc :=
    NewRelocatable (SegmentIndex (ProgramBase r)) (wrap64 (Offset (ProgramBase r) + entrypoint)) in
  let '(s, res) := LoadData (Segments (Vm r)) (ProgramBase r) (Data (Program_ r)) in
  let '(s, err) :=
    match res with
    | Ok _ =>
        let '(s', res') := LoadData s (executionBase r) stack in
        (s', match res' with Ok _ => None | Err e => Some e end)
    | Err e => (s, Some e)
    end in
  let m := mark_accessed_from (Mem s) (ProgramBase r) 0 (length (Data (Program_ r))) in
  (mkRunner (Program_ r) (set_Segments (Vm r) (set_Mem s m)) (ProgramBase r) (executionBase r)
            initial_pc (initialAp r) (initialFp r) (finalPc r) (mainOffset r) (ProofMode r)
            (RunEnded r) (ExecutionPublicMemory r) (SegmentsFinalized r),
   err).

(** Initializes memory and the initial registers to run from an entrypoint;
    returns the end pointer (the final pc) and the stack it loaded. *)
Definition initializeFunctionEntrypoint (r : CairoRunner) (entrypoint : Z)
           (stack : list MaybeRelocatable) (return_fp : Relocatable)
  : CairoRunner * list MaybeRelocatable * Relocatable * option Error :=
  let '(r, end_) := add_segment r in
  let stack := stack ++ [NewMaybeRelocatableRelocatable return_fp;
                         NewMaybeRelocatableRelocatable end_] in
  let initial_fp :=
    NewRelocatable (SegmentIndex (executionBase r))
                   (wrap64 (Offset (executionBase r) + Z.of_nat (length stack))) in
  let r := mkRunner (Program_ r) (Vm r) (ProgramBase r) (executionBase r) (initialPc r)
                    initial_fp initial_fp (Some end_) (mainOffset r) (ProofMode r)
                    (RunEnded r) (ExecutionPublicMemory r) (SegmentsFinalized r) in
  let '(r, err) := initializeState r entrypoint stack in
  (r, stack, end_, err).

(** The stack of the main entrypoint starts with the builtins' initial stacks. *)
Definition builtins_initial_stack (bs : list builtins.BuiltinRunner) : list MaybeRelocatable :=
  concat (map builtins.InitialStack bs).

(** Initializes memory and the initial registers to run from the main
    entrypoint; returns the end pointer. *)
Definition initializeMainEntrypoint (r : CairoRunner)
  : CairoRunner * list MaybeRelocatable * Relocatable * option Error :=
  let stack := builtins_initial_stack (BuiltinRunners (Vm r)) in
  if ProofMode r then
    let basePlusTwo :=
      NewRelocatable (SegmentIndex (executionBase r)) (wrap64 (Offset (executionBase r) + 2)) in
    let stackPrefix :=
      [NewMaybeRelocatableRelocatable basePlusTwo;
       NewMaybeRelocatableFelt (lambdaworks.FeltFromUint64 0)] ++ stack in
    let publicMemory := map Z.of_nat (seq 0 (length stackPrefix)) in
    let r := mkRunner (Program_ r) (Vm r) (ProgramBase r) (executionBase r) (initialPc r)
                      (initialAp r) (initialFp r) (finalPc r) (mainOffset r) (ProofMode r)
                      (RunEnded r) (Some publicMemory) (SegmentsFinalized r) in
    (* the error of initializeState is dropped *)
    let '(r, _) := initializeState r (Start (Program_ r)) stackPrefix in
    let r := mkRunner (Program_ r) (Vm r) (ProgramBase r) (executionBase r) (initialPc r)
                      basePlusTwo basePlusTwo (finalPc r) (mainOffset r) (ProofMode r)
                      (RunEnded r) (ExecutionPublicMemory r) (SegmentsFinalized r) in
    (r, stackPrefix,
     NewRelocatable (SegmentIndex (ProgramBase r))
                    (wrap64 (Offset (ProgramBase r) + End_ (Program_ r))),
     None)
  else
    let '(r, return_fp) := add_segment r in
    initializeFunctionEntrypoint r (mainOffset r) stack return_fp.

(** Sets the registers of the run context, adds the builtins' validation
    rules and validates the memory loaded so far. *)
Definition initializeVM (r : CairoRunner) : CairoRunner * option Error :=
  let v := set_RunCtx (Vm r) (mkRunContext (initialPc r) (initialAp r) (initialFp r)) in
  let m := fold_left (fun m b => builtins.AddValidationRule b m) (BuiltinRunners v)
                     (Mem (Segments v)) in
  let '(m, err) := ValidateExistingMemory m in
  (set_Vm r (set_Memory v m), err).

(** The initialization step; returns the end pointer. *)
Definition Initialize (r : CairoRunner) : CairoRunner * Relocatable * option Error :=
  let r := initializeSegments r in
  let '(r, _, end_, err) := initializeMainEntrypoint r in
  match err with
  | Some e => (r, end_, Some e)
  | None => let '(r, err) := initializeVM r in (r, end_, err)
  end.

(** *** The run phase *)

(** The fields of the runner and of its program that belong to the hint
    machinery: [Program.Hints], [Program.ReferenceManager], the constants
    that [Program.ExtractConstants] returns, and [execScopes].  Their
    types are outside the sources, so they are kept beside the record
    [CairoRunner].  [Program.Hints] is a Go map from a pc to the hints of
    that pc; Go leaves the order in which [range] visits a map open, and
    the first hint that fails to compile decides the error returned, so
    [Hints] holds the entries of the map in the order in which they are
    visited. *)
Record HintFields (T : HintTypes) : Type := mkHintFields {
  Hints : list (Z * list (HintParams T));
  ReferenceManager_ : ReferenceManager T;
  ExtractConstants : Constants T;
  execScopes : ExecutionScopes T
}.
Arguments mkHintFields {T} _ _ _ _.
Arguments Hints {T} _.
Arguments ReferenceManager_ {T} _.
Arguments ExtractConstants {T} _.
Arguments execScopes {T} _.

(** Where an argument of type [*vm.VirtualMachine] points: at the machine
    of the runner (the caller passed [&runner.Vm]) or at a machine outside
    the runner. *)
Inductive MachinePtr : Type :=
  | RunnerVm
  | OtherVm (v : VirtualMachine).

(** What the functions of the run phase read and write: the runner, its
    hint fields, and the machine that their argument points to. *)
Record RunState (T : HintTypes) : Type := mkRunState {
  Runner : CairoRunner;
  HintState : HintFields T;
  VmPtr : MachinePtr
}.
Arguments mkRunState {T} _ _ _.
Arguments Runner {T} _.
Arguments HintState {T} _.
Arguments VmPtr {T} _.

Section Run.

Context {T : HintTypes}.

(** The machine behind the pointer, and an assignment through it. *)
Definition machine (s : RunState T) : VirtualMachine :=
  match VmPtr s with
  | RunnerVm => Vm (Runner s)
  | OtherVm v => v
  end.

Definition set_machine (s : RunState T) (v : VirtualMachine) : RunState T :=
  match VmPtr s with
  | RunnerVm => mkRunState (set_Vm (Runner s) v) (HintState s) RunnerVm
  | OtherVm _ => mkRunState (Runner s) (HintState s) (OtherVm v)
  end.

Definition set_execScopes (s : RunState T) (scopes : ExecutionScopes T) : RunState T :=
  let h := HintState s in
  mkRunState (Runner s)
             (mkHintFields (Hints h) (ReferenceManager_ h) (ExtractConstants h) scopes)
             (VmPtr s).

Definition set_ended (s : RunState T) : RunState T :=
  mkRunState (set_RunEnded (Runner s) true) (HintState s) (VmPtr s).

Variable hintProcessor : HintProcessor T.

(** Compiles the hints of one pc; the first error stops. *)
Fixpoint compile_hints (rm : ReferenceManager T) (hintsParams : list (HintParams T))
  : Result (list (HintData T)) :=
  match hintsParams with
  | [] => Ok []
  | hintParam :: rest =>
      match CompileHint hintProcessor hintParam rm with
      | Err e => Err e
      | Ok data =>
          match compile_hints rm rest with
          | Err e => Err e
          | Ok hintDatas => Ok (data :: hintDatas)
          end
      end
  end.

Fixpoint build_hint_data (rm : ReferenceManager T)
         (entries : list (Z * list (HintParams T))) (hintDataMap : gmap Z (list (HintData T)))
  : Result (gmap Z (list (HintData T))) :=
  match entries with
  | [] => Ok hintDataMap
  | (pc, hintsParams) :: rest =>
      match compile_hints rm hintsParams with
      | Err e => Err e
      | Ok hintDatas => build_hint_data rm rest (<[pc := hintDatas]> hintDataMap)
      end
  end.

(** Compiles every hint of the program into a fresh map. *)
Definition BuildHintDataMap (h : HintFields T) : Result (gmap Z (list (HintData T))) :=
  build_hint_data (ReferenceManager_ h) (Hints h) ∅.

(** One step of the machine behind the pointer, with the execution scopes
    of the runner. *)
Definition step_machine (hintDataMap : gmap Z (list (HintData T))) (s : RunState T)
  : RunState T * option Error :=
  let '(v, scopes, err) :=
    StepHints hintProcessor hintDataMap (ExtractConstants (HintState s))
              (machine s) (execScopes (HintState s)) in
  (set_execScopes (set_machine s v) scopes, err).

(** The loop of [RunUntilPC], [for r.Vm.RunContext.Pc != end].  The Go loop
    is unbounded; [fuel] bounds the number of steps and [None] means the
    bound was reached. *)
Fixpoint RunUntilPC_loop (fuel : nat) (hintDataMap : gmap Z (list (HintData T)))
         (s : RunState T) (end_ : Relocatable) : option (RunState T * option Error) :=
  if bool_decide (Pc (RunCtx (machine s)) = end_) then Some (s, None)
  else
    match fuel with
    | O => None
    | S fuel =>
        match step_machine hintDataMap s with
        | (s, Some e) => Some (s, Some e)
        | (s, None) => RunUntilPC_loop fuel hintDataMap s end_
        end
    end.

(** Builds the hint data map, then steps the machine of the runner until
    pc reaches [end_]. *)
Definition RunUntilPC (fuel : nat) (r : CairoRunner) (h : HintFields T) (end_ : Relocatable)
  : option (CairoRunner * HintFields T * option Error) :=
  match BuildHintDataMap h with
  | Err e => Some (r, h, Some e)
  | Ok hintDataMap =>
      match RunUntilPC_loop fuel hintDataMap (mkRunState r h RunnerVm) end_ with
      | None => None
      | Some (s, err) => Some (Runner s, HintState s, err)
      end
  end.

Fixpoint RunForSteps_loop (remainingSteps : nat) (hintDataMap : gmap Z (list (HintData T)))
         (s : RunState T) : RunState T * option Error :=
  match remainingSteps with
  | O => (s, None)
  | S k =>
      if bool_decide (finalPc (Runner s) = Some (Pc (RunCtx (machine s))))
      then (s, Some (ErrEndOfProgram (Z.of_nat remainingSteps)))
      else
        match step_machine hintDataMap s with
        | (s, Some e) => (s, Some e)
        | (s, None) => RunForSteps_loop k hintDataMap s
        end
  end.

(** Builds the hint data map, then runs [int(steps)] steps of the machine
    behind the pointer. *)
Definition RunForSteps (s : RunState T) (steps : Z) : RunState T * option Error :=
  match BuildHintDataMap (HintState s) with
  | Err e => (s, Some e)
  | Ok hintDataMap => RunForSteps_loop (Z.to_nat (to_int steps)) hintDataMap s
  end.

Definition RunUntilSteps (s : RunState T) (steps : Z) : RunState T * option Error :=
  RunForSteps s (wrap64 (steps - CurrentStep (machine s))).

(** Modelled from the spec: [utils.NextPowOf2] is not in the sources; it is
    the least power of two that is not below its argument (step 6 of
    section 4.6 pads the step count to the next power of two). *)
Definition NextPowOf2 (n : Z) : Z := wrap64 (2 ^ Z.log2_up n).

Definition RunUntilNextPowerOfTwo (s : RunState T) : RunState T * option Error :=
  RunUntilSteps s (NextPowOf2 (CurrentStep (machine s))).

(** [vm.EndRun], [ComputeEffectiveSizes] and the builtin and layout tables
    that [CheckUsedCells] consults are outside the sources; [EndRun] only
    depends on what they return.  [CheckUsedCells] reads the runner, with
    its own machine, and the machine behind the pointer. *)
Variable vmEndRun : VirtualMachine -> VirtualMachine * option Error.
Variable ComputeEffectiveSizes : MemorySegmentManager -> MemorySegmentManager.
Variable CheckUsedCells : CairoRunner -> VirtualMachine -> option Error.

(** The padding loop of proof mode, [for true { ... }]; [None] when [fuel]
    iterations did not reach a return or the break. *)
Fixpoint padding_loop (fuel : nat) (s : RunState T) : option (RunState T * option Error) :=
  match fuel with
  | O => None
  | S fuel =>
      let err := CheckUsedCells (Runner s) (machine s) in
      if bool_decide (Unwrap err = Some ErrInsufficientAllocatedCells) then
        match RunForSteps s 1 with
        | (s, Some e) => Some (s, Some e)
        | (s, None) =>
            match RunUntilNextPowerOfTwo s with
            | (s, Some e) => Some (s, Some e)
            | (s, None) => padding_loop fuel s
            end
        end
      else
        match err with
        | Some e => Some (s, Some e)
        | None => Some (s, None)
        end
  end.

Definition EndRun (fuel : nat) (s : RunState T)
           (disableTracePadding disableFinalizeAll : bool)
  : option (RunState T * option Error) :=
  if RunEnded (Runner s) then Some (s, Some ErrRunnerCalledTwice)
  else
    match vmEndRun (machine s) with
    | (v, Some e) => Some (set_machine s v, Some e)
    | (v, None) =>
        let s := set_machine s v in
        if disableFinalizeAll then Some (s, None)
        else
          let s := set_machine s (set_Segments (machine s)
                                    (ComputeEffectiveSizes (Segments (machine s)))) in
          if ProofMode (Runner s) && negb disableTracePadding then
            match RunUntilNextPowerOfTwo s with
            | (s, Some e) => Some (s, Some e)
            | (s, None) =>
                match padding_loop fuel s with
                | None => None
                | Some (s, Some e) => Some (s, Some e)
                | Some (s, None) => Some (set_ended s, None)
                end
            end
          else Some (set_ended s, None)
    end.

End Run.

Section InitializeBuiltins.

(** The builtins of a layout are runners that can also be switched on and
    off; layouts are outside the sources, and [initializeBuiltins] only
    calls [Name] and [Include] on them. *)
Variable LayoutBuiltin : Type.
Variable Name : LayoutBuiltin -> string.
Variable Include : LayoutBuiltin -> bool -> LayoutBuiltin.

(** [errors.Errorf("Builtin(s) %v not present in layout %s", ...)] *)
Definition ErrBuiltinNotInLayout : Error := ErrOther 100.

(** The loop over the builtins of the layout: [programBuiltins] is the set
    of names still to be found, [builtinRunners] the runners selected so
    far. *)
Fixpoint select_builtins (layoutBuiltins : list LayoutBuiltin) (programBuiltins : gset string)
         (proofMode : bool) (builtinRunners : list LayoutBuiltin)
  : list LayoutBuiltin * gset string :=
  match layoutBuiltins with
  | [] => (builtinRunners, programBuiltins)
  | layoutBuiltin :: rest =>
      if bool_decide (Name layoutBuiltin ∈ programBuiltins)
      then select_builtins rest (programBuiltins ∖ {[Name layoutBuiltin]}) proofMode
                           (builtinRunners ++ [Include layoutBuiltin true])
      else if proofMode
      then select_builtins rest programBuiltins proofMode
                           (builtinRunners ++ [Include layoutBuiltin false])
      else select_builtins rest programBuiltins proofMode builtinRunners
  end.

(** Selects the builtin runners in accordance with the layout and the
    builtins of the program; the result is what is stored in
    [Vm.BuiltinRunners]. *)
Definition initializeBuiltins (programBuiltinNames : list string)
           (layoutBuiltins : list LayoutBuiltin) (proofMode : bool)
  : Result (list LayoutBuiltin) :=
  let programBuiltins : gset string := list_to_set programBuiltinNames in
  let '(builtinRunners, programBuiltins) :=
    select_builtins layoutBuiltins programBuiltins proofMode [] in
  if negb (bool_decide (size programBuiltins = 0%nat)) then Err ErrBuiltinNotInLayout
  else Ok builtinRunners.

End InitializeBuiltins.

End runners.

(** ** Package hints: the math hints *)
Module hints.
Import memory.

(** The identifiers of a hint.  The manager resolves a name to the value it
    refers to in the memory of the machine; only the two lookups that the
    hints below call are kept. *)
Record IdsManager : Type := mkIdsManager {
  ids_GetFelt : string -> vm.VirtualMachine -> Result Z;
  ids_Get : string -> vm.VirtualMachine -> Result MaybeRelocatable
}.

(** The errors that the hints build with [errors.Errorf]. *)
Definition ErrAssertNNOutOfRange : Error := ErrOther 101.
Definition ErrAssertNotZero : Error := ErrOther 102.
Definition ErrAssertNotEqualNonComparable : Error := ErrOther 103.
Definition ErrAssertNotEqual : Error := ErrOther 104.

Definition assert_nn (ids : IdsManager) (v : vm.VirtualMachine) : option Error :=
  match ids_GetFelt ids "a" v with
  | Err e => Some e
  | Ok a =>
      if builtins.RangeCheck.N_PARTS * builtins.RangeCheck.INNER_RC_BOUND_SHIFT
         <=? lambdaworks.Bits a
      then Some ErrAssertNNOutOfRange
      else None
  end.

Definition assert_not_zero (ids : IdsManager) (v : vm.VirtualMachine) : option Error :=
  match ids_GetFelt ids "value" v with
  | Err e => Some e
  | Ok value => if lambdaworks.IsZero value then Some ErrAssertNotZero else None
  end.

Definition assert_not_equal (ids : IdsManager) (v : vm.VirtualMachine) : option Error :=
  match ids_Get ids "a" v with
  | Err e => Some e
  | Ok a =>
  match ids_Get ids "b" v with
  | Err e => Some e
  | Ok b =>
      let '(a_rel, a_is_rel) := GetRelocatable a in
      let '(b_rel, b_is_rel) := GetRelocatable b in
      if negb ((a_is_rel && b_is_rel && (SegmentIndex a_rel =? SegmentIndex b_rel))
               || (negb a_is_rel && negb b_is_rel))
      then Some ErrAssertNotEqualNonComparable
      else
        match SubMaybe a b with
        | Err e => Some e
        | Ok diff => if IsZero diff then Some ErrAssertNotEqual else None
        end
  end end.

End hints.

(** * The decoding tables of the specification *)
Module spec.
Import vm.

(** The field of [len] bits of the word [e] that starts at bit [lo]. *)
Definition field (e lo len : Z) : Z := (e / 2 ^ lo) mod 2 ^ len.

(** The normative tables of section 4.1; [None] stands for "else fail". *)
Definition table_reg (n : Z) : Register := if n =? 1 then FP else AP.

Definition table_op1_src (n : Z) : option Op1Src :=
  match n with
  | 0 => Some Op1SrcOp0
  | 1 => Some Op1SrcImm
  | 2 => Some Op1SrcFP
  | 4 => Some Op1SrcAP
  | _ => None
  end.

Definition table_pc_update (n : Z) : option PcUpdate :=
  match n with
  | 0 => Some PcUpdateRegular
  | 1 => Some PcUpdateJump
  | 2 => Some PcUpdateJumpRel
  | 4 => Some PcUpdateJnz
  | _ => None
  end.

Definition table_res_logic (n : Z) (pc_update : PcUpdate) : option ResLogic :=
  match n with
  | 0 => Some (match pc_update with PcUpdateJnz => ResUnconstrained | _ => ResOp1 end)
  | 1 => Some ResAdd
  | 2 => Some ResMul
  | _ => None
  end.

Definition table_opcode (n : Z) : option Opcode :=
  match n with
  | 0 => Some NOp
  | 1 => Some Call
  | 2 => Some Ret
  | 4 => Some AssertEq
  | _ => None
  end.

Definition table_ap_update (n : Z) (opcode : Opcode) : option ApUpdate :=
  match n with
  | 0 => Some (match opcode with Call => ApUpdateAdd2 | _ => ApUpdateRegular end)
  | 1 => Some ApUpdateAdd
  | 2 => Some ApUpdateAdd1
  | _ => None
  end.

Definition table_fp_update (opcode : Opcode) : FpUpdate :=
  match opcode with
  | Call => FpUpdateAPPlus2
  | Ret => FpUpdateDst
  | _ => FpUpdateRegular
  end.

(** The decoding of a word whose high bit is clear, field by field: the
    first flag field outside its table gives the error. *)
Definition decode_fields (e : Z) : Result Instruction :=
  match table_op1_src (field e 50 3) with
  | None => Err ErrInvalidOp1RegError
  | Some op1_src =>
  match table_pc_update (field e 55 3) with
  | None => Err ErrInvalidPcUpdateError
  | Some pc_update =>
  match table_res_logic (field e 53 2) pc_update with
  | None => Err ErrInvalidResError
  | Some res_logic =>
  match table_opcode (field e 60 3) with
  | None => Err ErrInvalidOpcodeError
  | Some opcode =>
  match table_ap_update (field e 58 2) opcode with
  | None => Err ErrInvalidApUpdateError
  | Some ap_update =>
      Ok {| Off0 := field e 0 16 - 2 ^ 15;
            Off1 := field e 16 16 - 2 ^ 15;
            Off2 := field e 32 16 - 2 ^ 15;
            DstReg := table_reg (field e 48 1);
            Op0Reg := table_reg (field e 49 1);
            Op1Addr := op1_src;
            ResLogic_ := res_logic;
            PcUpdate_ := pc_update;
            ApUpdate_ := ap_update;
            FpUpdate_ := table_fp_update opcode;
            Opcode_ := opcode |}
  end end end end end.

(** What computing the operands of an instruction may change: the memory
    and the builtin runners, never the registers or the step counter. *)
Definition same_registers (v v' : VirtualMachine) : Prop :=
  RunCtx v' = RunCtx v /\ CurrentStep v' = CurrentStep v.

(** What running may do to the memory: add cells.  A cell that holds a
    value keeps it, and the segment counter and the rules stay. *)
Definition memory_grows (m m' : memory.Memory) : Prop :=
  (forall a val, memory.Get m a = Ok val -> memory.Get m' a = Ok val) /\
  memory.num_segments m' = memory.num_segments m /\
  memory.validation_rules m' = memory.validation_rules m.

(** What computing the operands of an instruction keeps: the trace and the
    segment sizes; the memory only grows. *)
Definition operands_frame (v v' : VirtualMachine) : Prop :=
  memory_grows (memory.Mem (Segments v)) (memory.Mem (Segments v')) /\
  Trace v' = Trace v /\
  memory.SegmentSizes (Segments v') = memory.SegmentSizes (Segments v).

(** The states of a run that starts in [v0]: [v0] and the state after a step
    from any of them. *)
Inductive reachable (v0 : VirtualMachine) : VirtualMachine -> Prop :=
  | reach_init : reachable v0 v0
  | reach_step (v : VirtualMachine) : reachable v0 v -> reachable v0 (fst (Step v)).

Section EndRunSpec.

Import runners.

Context {T : HintTypes}.
Variable hintProcessor : HintProcessor T.
Variable ComputeEffectiveSizes :
  memory.MemorySegmentManager -> memory.MemorySegmentManager.
Variable CheckUsedCells : CairoRunner -> VirtualMachine -> option Error.

(** The padding of proof mode in the words of the specification: verify
    the accounting; if it is insufficient, run one more step, pad to the
    next power of two and repeat; any other error, and any error of a step,
    ends the run with that error. *)
Inductive padding : RunState T -> RunState T * option Error -> Prop :=
  | padding_done (s : RunState T) :
      CheckUsedCells (Runner s) (machine s) = None ->
      padding s (s, None)
  | padding_check_error (s : RunState T) (e : Error) :
      CheckUsedCells (Runner s) (machine s) = Some e ->
      Unwrap (Some e) <> Some ErrInsufficientAllocatedCells ->
      padding s (s, Some e)
  | padding_step_error (s s1 : RunState T) (e : Error) :
      Unwrap (CheckUsedCells (Runner s) (machine s)) = Some ErrInsufficientAllocatedCells ->
      RunForSteps hintProcessor s 1 = (s1, Some e) ->
      padding s (s1, Some e)
  | padding_pad_error (s s1 s2 : RunState T) (e : Error) :
      Unwrap (CheckUsedCells (Runner s) (machine s)) = Some ErrInsufficientAllocatedCells ->
      RunForSteps hintProcessor s 1 = (s1, None) ->
      RunUntilNextPowerOfTwo hintProcessor s1 = (s2, Some e) ->
      padding s (s2, Some e)
  | padding_again (s s1 s2 : RunState T) (res : RunState T * option Error) :
      Unwrap (CheckUsedCells (Runner s) (machine s)) = Some ErrInsufficientAllocatedCells ->
      RunForSteps hintProcessor s 1 = (s1, None) ->
      RunUntilNextPowerOfTwo hintProcessor s1 = (s2, None) ->
      padding s2 res ->
      padding s res.

(** End of run in proof mode, from the state [s0] that [vm.EndRun] left:
    compute the effective sizes, pad to the next power of two, then the
    padding loop; the run is marked as ended when there is no error. *)
Definition end_run_proof_mode (s0 : RunState T) (res : RunState T * option Error) : Prop :=
  let s1 := set_machine s0 (set_Segments (machine s0)
                              (ComputeEffectiveSizes (Segments (machine s0)))) in
  match RunUntilNextPowerOfTwo hintProcessor s1 with
  | (s2, Some e) => res = (s2, Some e)
  | (s2, None) =>
      exists s3 err,
        padding s2 (s3, err) /\
        res = (match err with
               | None => set_ended s3
               | Some _ => s3
               end, err)
  end.

(** The states of a run with hints: the state after a step from any state
    of the run. *)
Inductive run_reachable (hintDataMap : gmap Z (list (HintData T))) (s0 : RunState T)
  : RunState T -> Prop :=
  | run_init : run_reachable hintDataMap s0 s0
  | run_step (s : RunState T) :
      run_reachable hintDataMap s0 s ->
      run_reachable hintDataMap s0 (fst (step_machine hintProcessor hintDataMap s)).

(** Hints that leave the step counter of the machine alone. *)
Definition hints_keep_steps : Prop :=
  forall v hintData constants scopes,
    CurrentStep (fst (fst (ExecuteHint hintProcessor v hintData constants scopes)))
    = CurrentStep v.

(** What a call of the run phase keeps, apart from the end-of-run mark:
    the pointer stays where it points (a pointer at the runner's machine
    stays there; with a pointer at another machine the runner's own
    machine is untouched), and the runner keeps its mode and its final
    pc. *)
Definition run_frame (s s' : RunState T) : Prop :=
  (VmPtr s = RunnerVm -> VmPtr s' = RunnerVm) /\
  (forall v, VmPtr s = OtherVm v ->
             Vm (Runner s') = Vm (Runner s) /\ exists v', VmPtr s' = OtherVm v') /\
  ProofMode (Runner s') = ProofMode (Runner s) /\
  finalPc (Runner s') = finalPc (Runner s).

End EndRunSpec.

End spec.

(** * Example inputs *)
Module examples.
Import memory.

(** A memory with one segment that carries the range-check rule. *)
Definition rc_memory : Memory :=
  memory.AddValidationRule (Mem (fst (AddSegment NewMemorySegmentManager))) 0
                           builtins.RangeCheck.ValidationRule.

(** The felt -1, that is P - 1. *)
Definition minus_one : MaybeRelocatable :=
  NewMaybeRelocatableFelt (lambdaworks.FeltFromDecString (-1)).

(** The memory after the (rejected) insertion of -1 at 0:0. *)
Definition rc_memory_minus_one : Memory :=
  fst (Insert rc_memory (NewRelocatable 0 0) minus_one).

(** A memory with one segment, no rule, and the felt 7 at 0:0. *)
Definition memory_seven : Memory :=
  fst (Insert (Mem (fst (AddSegment NewMemorySegmentManager))) (NewRelocatable 0 0)
              (NewMaybeRelocatableFelt 7)).

(** A memory with the felts 12 and 10 in the cells 0:0 and 0:1. *)
Definition bitwise_memory : Memory :=
  let m0 := Mem (fst (AddSegment NewMemorySegmentManager)) in
  let m1 := fst (Insert m0 (NewRelocatable 0 0) (NewMaybeRelocatableFelt 12)) in
  fst (Insert m1 (NewRelocatable 0 1) (NewMaybeRelocatableFelt 10)).

Definition bitwise_runner : builtins.Bitwise.BitwiseBuiltinRunner :=
  builtins.Bitwise.mkBitwise (NewRelocatable 0 0) true.

(** The jump-if-not-zero instruction [jmp rel 3 if [ap - 1] != 0]. *)
Definition jnz_instruction : vm.Instruction :=
  vm.mkInstruction (-1) (-1) 1 vm.AP vm.FP vm.Op1SrcImm vm.ResUnconstrained vm.PcUpdateJnz
                   vm.ApUpdateRegular vm.FpUpdateRegular vm.NOp.

(** A program that returns at once, and the add-immediate program of the
    specification's first scenario. *)
Definition ret_program : runners.Program :=
  runners.mkProgram [NewMaybeRelocatableFelt 0x208b7fff7fff7ffe] 0 0.

Definition add_immediate_program : runners.Program :=
  runners.mkProgram [NewMaybeRelocatableFelt 0x480680017fff8000; NewMaybeRelocatableFelt 2] 0 0.

(** The runner of [ret_program], without builtins, after [Initialize]. *)
Definition ret_runner : runners.CairoRunner :=
  fst (fst (runners.Initialize (runners.NewCairoRunner ret_program 0 [] false))).

Definition range_check_runner : builtins.BuiltinRunner :=
  builtins.PackBuiltin _ builtins.RangeCheck.ops
    (builtins.RangeCheck.mkRangeCheck (NewRelocatable 0 0) true).

(** The runner of [add_immediate_program] with the range-check builtin,
    after its segments are created. *)
Definition add_immediate_runner : runners.CairoRunner :=
  runners.initializeSegments
    (runners.NewCairoRunner add_immediate_program 0 [range_check_runner] false).

(** A Pedersen runner on segment 0 and a memory with the inputs 1 and 2. *)
Definition pedersen_runner : builtins.Pedersen.PedersenBuiltinRunner :=
  builtins.Pedersen.mkPedersen (NewRelocatable 0 0) true [] 8 1.

Definition pedersen_memory : Memory :=
  let m0 := Mem (fst (AddSegment NewMemorySegmentManager)) in
  let m1 := fst (Insert m0 (NewRelocatable 0 0) (NewMaybeRelocatableFelt 1)) in
  fst (Insert m1 (NewRelocatable 0 1) (NewMaybeRelocatableFelt 2)).

(** A proof-mode runner, and collaborators of [EndRun]: a [vm.EndRun] that
    succeeds, no change of the segment sizes, and an accounting check that
    always reports insufficient allocated cells. *)
Definition proof_runner : runners.CairoRunner :=
  runners.NewCairoRunner ret_program 0 [] true.

Definition end_run_ok (v : vm.VirtualMachine) : vm.VirtualMachine * option Error :=
  (v, None).

Definition sizes_unchanged (s : MemorySegmentManager) : MemorySegmentManager := s.

Definition check_insufficient (r : runners.CairoRunner) (v : vm.VirtualMachine)
  : option Error :=
  Some (ErrWrap ErrInsufficientAllocatedCells).

(** A program that loops forever, [jmp rel 0], and its proof-mode runner
    after [Initialize]: pc 0:0, ap = fp = 1:2, the stack cells 1:0 and 1:1
    hold the address 1:2 and the felt 0. *)
Definition loop_program : runners.Program :=
  runners.mkProgram [NewMaybeRelocatableFelt 0x010780017fff7fff; NewMaybeRelocatableFelt 0] 0 0.

Definition loop_runner : runners.CairoRunner :=
  fst (fst (runners.Initialize (runners.NewCairoRunner loop_program 0 [] true))).

(** The hint machinery of a program without hints. *)
Definition no_hint_types : vm.HintTypes := vm.mkHintTypes unit unit unit unit unit.

Definition no_hint_processor : vm.HintProcessor no_hint_types :=
  @vm.mkHintProcessor no_hint_types (fun _ _ => Ok tt) (fun v _ _ scopes => (v, scopes, None)).

Definition no_hints : runners.HintFields no_hint_types :=
  @runners.mkHintFields no_hint_types [] tt tt tt.

(** The run state of [loop_runner] when the caller passes [&runner.Vm]. *)
Definition loop_state : runners.RunState no_hint_types :=
  runners.mkRunState loop_runner no_hints runners.RunnerVm.

(** An accounting check that reports insufficient allocated cells as long
    as fewer than four steps were run. *)
Definition check_four_steps (r : runners.CairoRunner) (v : vm.VirtualMachine)
  : option Error :=
  if vm.CurrentStep v <? 4 then Some (ErrWrap ErrInsufficientAllocatedCells) else None.

(** A hint processor that fails to compile every hint, and the hint
    fields of a program with one hint at pc 0. *)
Definition failing_processor : vm.HintProcessor no_hint_types :=
  @vm.mkHintProcessor no_hint_types (fun _ _ => Err (ErrOther 7))
                      (fun v _ _ scopes => (v, scopes, None)).

Definition one_hint : runners.HintFields no_hint_types :=
  @runners.mkHintFields no_hint_types [(0, [tt])] tt tt tt.


(** The run state of [loop_runner] when the caller passes a pointer at
    a copy of its machine. *)
Definition loop_state_copy : runners.RunState no_hint_types :=
  runners.mkRunState loop_runner no_hints (runners.OtherVm (runners.Vm loop_runner)).

(** An accounting check that always fails with an error of its own. *)
Definition check_fails (r : runners.CairoRunner) (v : vm.VirtualMachine) : option Error :=
  Some (ErrOther 5).
End examples.

(** * Properties *)

Import memory.

(** ** Machine integers and felts *)

Lemma to_int_small (u : Z) : 0 <= u < 2 ^ 63 -> to_int u = u.
Proof.
  intros [_ Hu]. unfold to_int.
  destruct (Z.ltb_spec u (2 ^ 63)) as [_|Hge]; [reflexivity|lia].
Qed.

Lemma wrap64_small (z : Z) : 0 <= z < 2 ^ 64 -> wrap64 z = z.
Proof. intros H. unfold wrap64. apply Z.mod_small. exact H. Qed.

Lemma two_pow_64_lt_prime : 2 ^ 64 < lambdaworks.CAIRO_PRIME.
Proof. reflexivity. Qed.

Lemma Bits_nonneg (f : Z) : 0 <= lambdaworks.Bits f.
Proof.
  unfold lambdaworks.Bits. destruct (f =? 0); [lia|].
  pose proof (Z.log2_nonneg f). lia.
Qed.

(** The bit length is at most n exactly for the felts below 2^n. *)
Lemma Bits_le_iff (f n : Z) :
  0 <= f -> 0 <= n -> (lambdaworks.Bits f <= n <-> f < 2 ^ n).
Proof.
  intros Hf Hn. unfold lambdaworks.Bits.
  destruct (Z.eqb_spec f 0) as [->|Hne].
  - split; intros _; [apply Z.pow_pos_nonneg; lia|exact Hn].
  - assert (Hpos : 0 < f) by lia.
    pose proof (Z.log2_lt_pow2 f n Hpos) as Hlog. lia.
Qed.

(** ** Memory *)

Lemma set_data_same (m : Memory) : set_data m (data m) = m.
Proof. destruct m; reflexivity. Qed.

(** Validation is skipped for temporary addresses, for validated addresses
    and in segments without a rule. *)
Lemma validateAddress_skip (m : Memory) (addr : Relocatable) :
  SegmentIndex addr < 0 \/ addr ∈ validated_addresses m \/
  validation_rules m !! to_uint (SegmentIndex addr) = None ->
  validateAddress m addr = (m, None).
Proof.
  intros H. unfold validateAddress.
  destruct (SegmentIndex addr <? 0) eqn:Hneg; [reflexivity|].
  destruct (bool_decide (addr ∈ validated_addresses m)) eqn:Hval; [reflexivity|].
  cbn [orb]. destruct H as [H|[H|H]].
  - apply Z.ltb_ge in Hneg. lia.
  - apply bool_decide_eq_false in Hval. contradiction.
  - rewrite H. reflexivity.
Qed.

(** Validation never touches the data map. *)
Lemma validateAddress_data (m : Memory) (addr : Relocatable) :
  data (fst (validateAddress m addr)) = data m.
Proof.
  unfold validateAddress.
  destruct (_ || _); [reflexivity|].
  destruct (validation_rules m !! _) as [rule|]; [|reflexivity].
  destruct (rule (data m) addr); reflexivity.
Qed.

(** Insertion when the allocation check and the write-once check pass. *)
Lemma Insert_passes (m : Memory) (addr : Relocatable) (val : MaybeRelocatable) :
  SegmentIndex addr < to_int (num_segments m) ->
  data m !! addr = None \/ data m !! addr = Some val ->
  Insert m addr val = validateAddress (set_data m (<[addr := val]> (data m))) addr.
Proof.
  intros Hseg Hfree. unfold Insert.
  destruct (Z.leb_spec (to_int (num_segments m)) (SegmentIndex addr)) as [Hle|_]; [lia|].
  destruct Hfree as [-> | ->]; [reflexivity|].
  rewrite bool_decide_eq_true_2 by reflexivity. reflexivity.
Qed.

(** C1 (amended).  At an address of an allocated segment that holds v1:
    inserting v1 again passes the write-once check, leaves the data map
    unchanged and returns what the validation of the address returns, which
    is success when the segment has no rule or the address is validated
    already; inserting any other value fails with the write-once error and
    leaves the memory unchanged. *)
Theorem Insert_write_once (m : Memory) (addr : Relocatable) (v1 v2 : MaybeRelocatable) :
  SegmentIndex addr < to_int (num_segments m) ->
  data m !! addr = Some v1 ->
  Insert m addr v1 = validateAddress m addr /\
  data (fst (Insert m addr v1)) = data m /\
  (validation_rules m !! to_uint (SegmentIndex addr) = None \/
   addr ∈ validated_addresses m -> Insert m addr v1 = (m, None)) /\
  (v2 <> v1 -> Insert m addr v2 = (m, Some ErrWriteOnce)).
Proof.
  intros Hseg Hv1.
  assert (Hsame : Insert m addr v1 = validateAddress m addr).
  { rewrite Insert_passes by auto.
    rewrite (insert_id (data m) addr v1 Hv1), set_data_same. reflexivity. }
  split; [exact Hsame|]. split; [|split].
  - rewrite Hsame. apply validateAddress_data.
  - intros H. rewrite Hsame. apply validateAddress_skip. tauto.
  - intros Hne. unfold Insert.
    destruct (Z.leb_spec (to_int (num_segments m)) (SegmentIndex addr)) as [Hle|_]; [lia|].
    rewrite Hv1. rewrite bool_decide_eq_false_2 by congruence. reflexivity.
Qed.

(** C10.  An address with a negative segment index passes the allocation
    check and is never validated: the insertion succeeds whenever the
    write-once check lets it through.  (The segment counter is below 2^63,
    as a counter that [AddSegment] raises one by one is.) *)
Theorem Insert_negative_segment (m : Memory) (addr : Relocatable) (val : MaybeRelocatable) :
  0 <= num_segments m < 2 ^ 63 ->
  SegmentIndex addr < 0 ->
  validateAddress m addr = (m, None) /\
  (to_int (num_segments m) <=? SegmentIndex addr) = false /\
  (data m !! addr = None \/ data m !! addr = Some val ->
   Insert m addr val = (set_data m (<[addr := val]> (data m)), None)).
Proof.
  intros Hn Hneg. split; [|split].
  - apply validateAddress_skip. auto.
  - rewrite to_int_small by exact Hn. apply Z.leb_gt. lia.
  - intros Hfree. rewrite Insert_passes; [|rewrite to_int_small by exact Hn; lia|exact Hfree].
    apply validateAddress_skip. left. exact Hneg.
Qed.

(** Witness of [Insert_write_once]: the felt 7 at 0:0, re-inserted and then
    overwritten with 8. *)
Lemma Insert_write_once_witness :
  let m := examples.memory_seven in
  let addr := NewRelocatable 0 0 in
  let v1 := NewMaybeRelocatableFelt 7 in
  let v2 := NewMaybeRelocatableFelt 8 in
  (SegmentIndex addr < to_int (num_segments m) /\ data m !! addr = Some v1) /\
  Insert m addr v1 = validateAddress m addr /\
  data (fst (Insert m addr v1)) = data m /\
  (validation_rules m !! to_uint (SegmentIndex addr) = None \/
   addr ∈ validated_addresses m -> Insert m addr v1 = (m, None)) /\
  (v2 <> v1 -> Insert m addr v2 = (m, Some ErrWriteOnce)).
Proof.
  assert (H : SegmentIndex (NewRelocatable 0 0) < to_int (num_segments examples.memory_seven) /\
              data examples.memory_seven !! NewRelocatable 0 0 = Some (NewMaybeRelocatableFelt 7)).
  { split; vm_compute; reflexivity. }
  split; [exact H|].
  exact (Insert_write_once examples.memory_seven (NewRelocatable 0 0)
           (NewMaybeRelocatableFelt 7) (NewMaybeRelocatableFelt 8) (proj1 H) (proj2 H)).
Defined.

(** Counterexample to C1 as stated: the cell 0:0 of an allocated segment
    with the range-check rule holds -1 (the insertion that wrote it was
    rejected by the rule after the write); inserting the identical value
    again does not succeed, it returns the rule's error. *)
Lemma Insert_write_once_counterexample :
  let m := examples.rc_memory_minus_one in
  let addr := NewRelocatable 0 0 in
  0 <= SegmentIndex addr < to_int (num_segments m) /\
  data m !! addr = Some examples.minus_one /\
  snd (Insert m addr examples.minus_one)
  = Some (OutsideBoundsError (lambdaworks.CAIRO_PRIME - 1)).
Proof. vm_compute. repeat split; congruence. Qed.

(** Witness of [Insert_negative_segment]: an insertion at -1:0 into the
    empty memory, which has no segment at all. *)
Lemma Insert_negative_segment_witness :
  let m := NewMemory in
  let addr := NewRelocatable (-1) 0 in
  let val := NewMaybeRelocatableFelt 5 in
  (0 <= num_segments m < 2 ^ 63 /\ SegmentIndex addr < 0) /\
  validateAddress m addr = (m, None) /\
  (to_int (num_segments m) <=? SegmentIndex addr) = false /\
  (data m !! addr = None \/ data m !! addr = Some val ->
   Insert m addr val = (set_data m (<[addr := val]> (data m)), None)).
Proof.
  assert (H : 0 <= num_segments NewMemory < 2 ^ 63 /\ SegmentIndex (NewRelocatable (-1) 0) < 0).
  { split; [split|]; vm_compute; congruence. }
  split; [exact H|].
  exact (Insert_negative_segment NewMemory (NewRelocatable (-1) 0) (NewMaybeRelocatableFelt 5)
           (proj1 H) (proj2 H)).
Defined.

(** ** Builtin runners *)

Lemma lt_pow2_log2 (z n : Z) : 0 <= z -> 0 < n -> (z < 2 ^ n <-> Z.log2 z < n).
Proof.
  intros Hz Hn. destruct (Z.eq_dec z 0) as [->|Hne].
  - cbn [Z.log2]. split; intros _; [exact Hn|apply Z.pow_pos_nonneg; lia].
  - apply Z.log2_lt_pow2. lia.
Qed.

Section BitOps.

Variables (x y n : Z).
Hypotheses (Hx : 0 <= x < 2 ^ n) (Hy : 0 <= y < 2 ^ n) (Hn : 0 < n).

Lemma land_small : 0 <= Z.land x y < 2 ^ n.
Proof using Hx Hy Hn.
  assert (H0 : 0 <= Z.land x y) by (apply Z.land_nonneg; lia).
  split; [exact H0|]. apply lt_pow2_log2; [exact H0|exact Hn|].
  pose proof (Z.log2_land x y ltac:(lia) ltac:(lia)).
  pose proof (proj1 (lt_pow2_log2 x n ltac:(lia) Hn) ltac:(lia)). lia.
Qed.

Lemma lor_small : 0 <= Z.lor x y < 2 ^ n.
Proof using Hx Hy Hn.
  assert (H0 : 0 <= Z.lor x y) by (apply Z.lor_nonneg; lia).
  split; [exact H0|]. apply lt_pow2_log2; [exact H0|exact Hn|].
  rewrite (Z.log2_lor x y) by lia.
  pose proof (proj1 (lt_pow2_log2 x n ltac:(lia) Hn) ltac:(lia)).
  pose proof (proj1 (lt_pow2_log2 y n ltac:(lia) Hn) ltac:(lia)). lia.
Qed.

Lemma lxor_small : 0 <= Z.lxor x y < 2 ^ n.
Proof using Hx Hy Hn.
  assert (H0 : 0 <= Z.lxor x y) by (apply Z.lxor_nonneg; lia).
  split; [exact H0|]. apply lt_pow2_log2; [exact H0|exact Hn|].
  pose proof (Z.log2_lxor x y ltac:(lia) ltac:(lia)).
  pose proof (proj1 (lt_pow2_log2 x n ltac:(lia) Hn) ltac:(lia)).
  pose proof (proj1 (lt_pow2_log2 y n ltac:(lia) Hn) ltac:(lia)). lia.
Qed.

End BitOps.

Lemma two_pow_251_lt_prime : 2 ^ 251 < lambdaworks.CAIRO_PRIME.
Proof. reflexivity. Qed.

(** On operands of at most 251 bits the felt operations are the bitwise
    operations on the integers. *)
Lemma bitwise_felt_ops (x y : Z) :
  0 <= x -> 0 <= y -> lambdaworks.Bits x <= 251 -> lambdaworks.Bits y <= 251 ->
  lambdaworks.And x y = Z.land x y /\
  lambdaworks.Xor x y = Z.lxor x y /\
  lambdaworks.Or x y = Z.lor x y.
Proof.
  intros Hx Hy Hbx Hby.
  apply Bits_le_iff in Hbx; [|lia|lia]. apply Bits_le_iff in Hby; [|lia|lia].
  pose proof two_pow_251_lt_prime as HP.
  pose proof (land_small x y 251 ltac:(lia) ltac:(lia) ltac:(lia)).
  pose proof (lxor_small x y 251 ltac:(lia) ltac:(lia) ltac:(lia)).
  pose proof (lor_small x y 251 ltac:(lia) ltac:(lia) ltac:(lia)).
  unfold lambdaworks.And, lambdaworks.Xor, lambdaworks.Or.
  repeat split; apply Z.mod_small; lia.
Qed.

Lemma RangeCheck_rule_felt (d : gmap Relocatable MaybeRelocatable) (address : Relocatable)
      (f : Z) :
  d !! address = Some (NewMaybeRelocatableFelt f) ->
  builtins.RangeCheck.ValidationRule d address
  = if lambdaworks.Bits f <=? 128 then Ok [address] else Err (OutsideBoundsError f).
Proof.
  intros H. unfold builtins.RangeCheck.ValidationRule, GetData. rewrite H. reflexivity.
Qed.

Lemma RangeCheck_rule_relocatable (d : gmap Relocatable MaybeRelocatable)
      (address r : Relocatable) :
  d !! address = Some (NewMaybeRelocatableRelocatable r) ->
  builtins.RangeCheck.ValidationRule d address = Err NotAFeltError.
Proof.
  intros H. unfold builtins.RangeCheck.ValidationRule, GetData. rewrite H. reflexivity.
Qed.

(** A first insertion into a segment that carries a rule runs the rule on
    the memory that already holds the new value. *)
Lemma Insert_runs_rule (m : Memory) (addr : Relocatable) (val : MaybeRelocatable)
      (rule : gmap Relocatable MaybeRelocatable -> Relocatable -> Result (list Relocatable)) :
  validation_rules m !! to_uint (SegmentIndex addr) = Some rule ->
  0 <= SegmentIndex addr < to_int (num_segments m) ->
  addr ∉ validated_addresses m ->
  data m !! addr = None ->
  let m' := set_data m (<[addr := val]> (data m)) in
  Insert m addr val
  = match rule (<[addr := val]> (data m)) addr with
    | Err e => (m', Some e)
    | Ok validated =>
        (set_validated m' (list_to_set validated ∪ validated_addresses m), None)
    end.
Proof.
  intros Hrule Hseg Hval Hfree m'.
  rewrite Insert_passes; [|lia|auto]. fold m'. unfold validateAddress.
  destruct (Z.ltb_spec (SegmentIndex addr) 0) as [Hneg|_]; [lia|].
  change (validated_addresses m') with (validated_addresses m).
  rewrite bool_decide_eq_false_2 by exact Hval. cbn [orb].
  change (validation_rules m') with (validation_rules m). rewrite Hrule.
  reflexivity.
Qed.

(** C5.  In a segment that carries the range-check rule, the first
    insertion of a felt of at most 128 bits succeeds and records the address
    as validated; a felt of more than 128 bits fails with [OutsideBounds]; a
    relocatable fails with [NotAFelt].  The felts of at most 128 bits are
    those of [0, 2^128). *)
Theorem RangeCheck_validation (m : Memory) (addr : Relocatable) :
  validation_rules m !! to_uint (SegmentIndex addr)
    = Some builtins.RangeCheck.ValidationRule ->
  0 <= SegmentIndex addr < to_int (num_segments m) ->
  addr ∉ validated_addresses m ->
  data m !! addr = None ->
  (forall f, lambdaworks.Bits f <= 128 ->
     let val := NewMaybeRelocatableFelt f in
     builtins.RangeCheck.ValidationRule (<[addr := val]> (data m)) addr = Ok [addr] /\
     snd (Insert m addr val) = None /\
     data (fst (Insert m addr val)) !! addr = Some val /\
     addr ∈ validated_addresses (fst (Insert m addr val))) /\
  (forall f, 128 < lambdaworks.Bits f ->
     let val := NewMaybeRelocatableFelt f in
     builtins.RangeCheck.ValidationRule (<[addr := val]> (data m)) addr
       = Err (OutsideBoundsError f) /\
     snd (Insert m addr val) = Some (OutsideBoundsError f)) /\
  (forall r,
     let val := NewMaybeRelocatableRelocatable r in
     builtins.RangeCheck.ValidationRule (<[addr := val]> (data m)) addr = Err NotAFeltError /\
     snd (Insert m addr val) = Some NotAFeltError) /\
  (forall f, 0 <= f -> (lambdaworks.Bits f <= 128 <-> f < 2 ^ 128)).
Proof.
  intros Hrule Hseg Hval Hfree. repeat apply conj.
  - intros f Hf val.
    assert (Hr : builtins.RangeCheck.ValidationRule (<[addr := val]> (data m)) addr
                 = Ok [addr]).
    { rewrite (RangeCheck_rule_felt _ _ f) by apply lookup_insert_eq.
      destruct (Z.leb_spec (lambdaworks.Bits f) 128); [reflexivity|lia]. }
    split; [exact Hr|].
    rewrite (Insert_runs_rule m addr val _ Hrule Hseg Hval Hfree), Hr. cbn [fst snd].
    split; [reflexivity|]. split.
    + cbn. apply lookup_insert_eq.
    + cbn. apply elem_of_union_l, elem_of_union_l, elem_of_singleton. reflexivity.
  - intros f Hf val.
    assert (Hr : builtins.RangeCheck.ValidationRule (<[addr := val]> (data m)) addr
                 = Err (OutsideBoundsError f)).
    { rewrite (RangeCheck_rule_felt _ _ f) by apply lookup_insert_eq.
      destruct (Z.leb_spec (lambdaworks.Bits f) 128); [lia|reflexivity]. }
    split; [exact Hr|].
    rewrite (Insert_runs_rule m addr val _ Hrule Hseg Hval Hfree), Hr. reflexivity.
  - intros r val.
    assert (Hr : builtins.RangeCheck.ValidationRule (<[addr := val]> (data m)) addr
                 = Err NotAFeltError).
    { apply (RangeCheck_rule_relocatable _ _ r), lookup_insert_eq. }
    split; [exact Hr|].
    rewrite (Insert_runs_rule m addr val _ Hrule Hseg Hval Hfree), Hr. reflexivity.
  - intros f Hf. apply Bits_le_iff; lia.
Qed.

(** Witness of [RangeCheck_validation]: the cell 0:0 of the range-check
    segment of [examples.rc_memory]. *)
Lemma RangeCheck_validation_witness :
  let m := examples.rc_memory in
  let addr := NewRelocatable 0 0 in
  (validation_rules m !! to_uint (SegmentIndex addr)
     = Some builtins.RangeCheck.ValidationRule /\
   0 <= SegmentIndex addr < to_int (num_segments m) /\
   (addr ∉ validated_addresses m) /\
   data m !! addr = None) /\
  snd (Insert m addr (NewMaybeRelocatableFelt (2 ^ 128 - 1))) = None /\
  snd (Insert m addr (NewMaybeRelocatableFelt (2 ^ 128))) = Some (OutsideBoundsError (2 ^ 128)).
Proof.
  assert (H : validation_rules examples.rc_memory !! to_uint (SegmentIndex (NewRelocatable 0 0))
                = Some builtins.RangeCheck.ValidationRule /\
              0 <= SegmentIndex (NewRelocatable 0 0) < to_int (num_segments examples.rc_memory) /\
              (NewRelocatable 0 0 ∉ validated_addresses examples.rc_memory) /\
              data examples.rc_memory !! NewRelocatable 0 0 = None).
  { split; [vm_compute; reflexivity|]. split; [split; vm_compute; congruence|].
    split; [|vm_compute; reflexivity].
    change (validated_addresses examples.rc_memory) with (∅ : gset Relocatable).
    apply not_elem_of_empty. }
  split; [exact H|].
  destruct H as (H1 & H2 & H3 & H4).
  pose proof (RangeCheck_validation examples.rc_memory (NewRelocatable 0 0) H1 H2 H3 H4)
    as (Hle & Hgt & _).
  split.
  - apply (Hle (2 ^ 128 - 1)). vm_compute. congruence.
  - apply (Hgt (2 ^ 128)). vm_compute. reflexivity.
Defined.

(** The two input cells of the bitwise instance that contains an output
    cell. *)
Lemma Bitwise_input_cells (address : Relocatable) :
  0 <= Offset address < 2 ^ 64 ->
  2 <= Offset address mod 5 ->
  let index := Offset address mod 5 in
  SubUint address index
  = Ok (NewRelocatable (SegmentIndex address) (Offset address - index)) /\
  AddUint (NewRelocatable (SegmentIndex address) (Offset address - index)) 1
  = NewRelocatable (SegmentIndex address) (Offset address - index + 1).
Proof.
  intros Ho Hidx index.
  assert (Hle : 0 <= index < 5) by (apply Z.mod_pos_bound; lia).
  assert (Hio : index <= Offset address) by (apply Z.mod_le; lia).
  split.
  - unfold SubUint. destruct (Z.ltb_spec (Offset address) index); [lia|reflexivity].
  - unfold AddUint. cbn [SegmentIndex Offset]. rewrite wrap64_small by lia. reflexivity.
Qed.

(** C9.  Bitwise deduction at offset o: nothing for an input cell (o mod 5
    below 2); for an output cell whose inputs x, at o - (o mod 5), and y, in
    the next cell, are felts: an error when x or y has more than 251 bits,
    otherwise x AND y, x XOR y or x OR y for o mod 5 = 2, 3 or 4. *)
Theorem Bitwise_DeduceMemoryCell_spec (b : builtins.Bitwise.BitwiseBuiltinRunner)
        (address : Relocatable) (mem : Memory) :
  0 <= Offset address < 2 ^ 64 ->
  let o := Offset address in
  let index := o mod 5 in
  let x_addr := NewRelocatable (SegmentIndex address) (o - index) in
  let y_addr := NewRelocatable (SegmentIndex address) (o - index + 1) in
  (index < 2 -> builtins.Bitwise.DeduceMemoryCell b address mem = (b, Ok None)) /\
  (forall x y,
     2 <= index ->
     MemGetFelt mem x_addr = Ok x -> MemGetFelt mem y_addr = Ok y ->
     0 <= x -> 0 <= y ->
     (251 < lambdaworks.Bits x ->
      builtins.Bitwise.DeduceMemoryCell b address mem
      = (b, Err (ErrFeltBiggerThanPowerOfTwo x))) /\
     (lambdaworks.Bits x <= 251 -> 251 < lambdaworks.Bits y ->
      builtins.Bitwise.DeduceMemoryCell b address mem
      = (b, Err (ErrFeltBiggerThanPowerOfTwo y))) /\
     (lambdaworks.Bits x <= 251 -> lambdaworks.Bits y <= 251 ->
      builtins.Bitwise.DeduceMemoryCell b address mem
      = (b, Ok (Some (NewMaybeRelocatableFelt
                        (if index =? 2 then Z.land x y
                         else if index =? 3 then Z.lxor x y
                         else Z.lor x y)))))).
Proof.
  intros Ho o index x_addr y_addr.
  assert (Hidx : 0 <= index < 5) by (apply Z.mod_pos_bound; lia).
  split.
  - intros Hlt. unfold builtins.Bitwise.DeduceMemoryCell.
    change (Offset address mod builtins.Bitwise.BITWISE_CELLS_PER_INSTANCE) with index.
    change builtins.Bitwise.BIWISE_INPUT_CELLS_PER_INSTANCE with 2.
    destruct (Z.ltb_spec index 2); [reflexivity|lia].
  - intros x y Hge Hx Hy Hx0 Hy0.
    destruct (Bitwise_input_cells address Ho Hge) as [Hsub Hadd].
    fold o index in Hsub, Hadd. fold x_addr in Hsub, Hadd. fold y_addr in Hadd.
    assert (Hred : builtins.Bitwise.DeduceMemoryCell b address mem
                   = if 251 <? lambdaworks.Bits x
                     then (b, Err (ErrFeltBiggerThanPowerOfTwo x))
                     else if 251 <? lambdaworks.Bits y
                     then (b, Err (ErrFeltBiggerThanPowerOfTwo y))
                     else (b, Ok (if index =? 2
                                  then Some (NewMaybeRelocatableFelt (lambdaworks.And x y))
                                  else if index =? 3
                                  then Some (NewMaybeRelocatableFelt (lambdaworks.Xor x y))
                                  else if index =? 4
                                  then Some (NewMaybeRelocatableFelt (lambdaworks.Or x y))
                                  else None))).
    { unfold builtins.Bitwise.DeduceMemoryCell.
      change (Offset address mod builtins.Bitwise.BITWISE_CELLS_PER_INSTANCE) with index.
      change builtins.Bitwise.BIWISE_INPUT_CELLS_PER_INSTANCE with 2.
      change builtins.Bitwise.BITWISE_TOTAL_N_BITS with 251.
      destruct (Z.ltb_spec index 2); [lia|].
      rewrite Hsub, Hadd, Hx, Hy. reflexivity. }
    rewrite Hred. split; [|split].
    + intros Hbx. destruct (Z.ltb_spec 251 (lambdaworks.Bits x)); [reflexivity|lia].
    + intros Hbx Hby.
      destruct (Z.ltb_spec 251 (lambdaworks.Bits x)); [lia|].
      destruct (Z.ltb_spec 251 (lambdaworks.Bits y)); [reflexivity|lia].
    + intros Hbx Hby.
      destruct (Z.ltb_spec 251 (lambdaworks.Bits x)); [lia|].
      destruct (Z.ltb_spec 251 (lambdaworks.Bits y)); [lia|].
      destruct (bitwise_felt_ops x y Hx0 Hy0 Hbx Hby) as (-> & -> & ->).
      destruct (Z.eqb_spec index 2); [reflexivity|].
      destruct (Z.eqb_spec index 3); [reflexivity|].
      destruct (Z.eqb_spec index 4); [reflexivity|lia].
Qed.

(** Witness of [Bitwise_DeduceMemoryCell_spec]: 12 AND 10 = 8 in the cell
    0:2 of [examples.bitwise_memory]. *)
Lemma Bitwise_DeduceMemoryCell_witness :
  0 <= Offset (NewRelocatable 0 2) < 2 ^ 64 /\
  builtins.Bitwise.DeduceMemoryCell examples.bitwise_runner (NewRelocatable 0 2)
                                    examples.bitwise_memory
  = (examples.bitwise_runner, Ok (Some (NewMaybeRelocatableFelt 8))).
Proof.
  assert (H : 0 <= Offset (NewRelocatable 0 2) < 2 ^ 64) by (vm_compute; split; congruence).
  split; [exact H|].
  destruct (Bitwise_DeduceMemoryCell_spec examples.bitwise_runner (NewRelocatable 0 2)
              examples.bitwise_memory H) as [_ Hout].
  destruct (Hout 12 10) as (_ & _ & Hok);
    [vm_compute; congruence | reflexivity | reflexivity | lia | lia |].
  apply Hok; vm_compute; congruence.
Defined.

(** ** Instruction decoding *)

Lemma land_pow2 (e n : Z) :
  0 <= n -> Z.land e (2 ^ n) = if Z.testbit e n then 2 ^ n else 0.
Proof.
  intros Hn. apply Z.bits_inj'. intros m Hm.
  rewrite Z.land_spec, Z.pow2_bits_eqb by exact Hn.
  destruct (Z.eqb_spec n m) as [->|Hne].
  - destruct (Z.testbit e m); cbn [andb].
    + rewrite Z.pow2_bits_eqb, Z.eqb_refl by exact Hm. reflexivity.
    + rewrite Z.bits_0. reflexivity.
  - rewrite andb_false_r. destruct (Z.testbit e n).
    + rewrite Z.pow2_bits_eqb by exact Hn. symmetry. apply Z.eqb_neq. exact Hne.
    + rewrite Z.bits_0. reflexivity.
Qed.

(** The test of the high bit. *)
Lemma high_bit_test (e : Z) :
  negb (Z.land e (Z.shiftl 1 63) =? 0) = Z.testbit e 63.
Proof.
  rewrite Z.shiftl_1_l, land_pow2 by lia.
  destruct (Z.testbit e 63); reflexivity.
Qed.

(** A flag is read by masking [len] bits at [off] and shifting them down. *)
Lemma flag_field (e mask off len : Z) :
  0 <= off -> 0 <= len -> mask = Z.shiftl (Z.ones len) off ->
  Z.shiftr (Z.land (Z.shiftr e 48) mask) off = spec.field e (48 + off) len.
Proof.
  intros Hoff Hlen ->. unfold spec.field.
  rewrite Z.shiftr_land, Z.shiftr_shiftl_l, Z.sub_diag, Z.shiftl_0_r by exact Hoff.
  rewrite Z.shiftr_shiftr by exact Hoff.
  rewrite Z.land_ones by exact Hlen.
  rewrite Z.shiftr_div_pow2 by lia. reflexivity.
Qed.

Lemma offset_field (e lo : Z) :
  0 <= lo -> Z.land (Z.shiftr e lo) 0xFFFF = spec.field e lo 16.
Proof.
  intros Hlo. unfold spec.field. change 0xFFFF with (Z.ones 16).
  rewrite Z.land_ones, Z.shiftr_div_pow2 by lia. reflexivity.
Qed.

Lemma offset0_field (e : Z) : Z.land e 0xFFFF = spec.field e 0 16.
Proof. rewrite <- (offset_field e 0), Z.shiftr_0_r by lia. reflexivity. Qed.

(** A biased 16-bit group is read as the group minus 2^15. *)
Lemma fromBiasedRepresentation_spec (offset : Z) :
  0 <= offset < 2 ^ 16 -> vm.fromBiasedRepresentation offset = offset - 2 ^ 15.
Proof.
  intros H. unfold vm.fromBiasedRepresentation. cbv zeta.
  rewrite (Z.mod_small offset) by exact H.
  destruct (Z.lt_ge_cases offset (2 ^ 15)) as [Hlo|Hhi].
  - replace ((offset - 2 ^ 15) mod 2 ^ 16) with (offset + 2 ^ 15).
    + destruct (Z.ltb_spec (offset + 2 ^ 15) (2 ^ 15)); lia.
    + symmetry. rewrite <- (Z.mod_small (offset + 2 ^ 15) (2 ^ 16)) by lia.
      rewrite <- (Z_mod_plus_full (offset - 2 ^ 15) 1 (2 ^ 16)).
      f_equal. lia.
  - rewrite (Z.mod_small (offset - 2 ^ 15)) by lia.
    destruct (Z.ltb_spec (offset - 2 ^ 15) (2 ^ 15)); lia.
Qed.

Lemma field_bound (e lo len : Z) : 0 <= len -> 0 <= spec.field e lo len < 2 ^ len.
Proof. intros H. unfold spec.field. apply Z.mod_pos_bound, Z.pow_pos_nonneg; lia. Qed.

(** The decoder on a word whose high bit is clear. *)
Lemma DecodeInstruction_fields (e : Z) :
  Z.testbit e 63 = false -> vm.DecodeInstruction e = spec.decode_fields e.
Proof.
  intros Hhigh. unfold vm.DecodeInstruction. cbv zeta.
  rewrite high_bit_test, Hhigh.
  rewrite offset0_field, !offset_field by lia.
  rewrite (flag_field e 0x0001 0 1), (flag_field e 0x0002 1 1), (flag_field e 0x001C 2 3),
          (flag_field e 0x0060 5 2), (flag_field e 0x0380 7 3), (flag_field e 0x0C00 10 2),
          (flag_field e 0x7000 12 3) by first [lia | reflexivity].
  rewrite !fromBiasedRepresentation_spec by (apply field_bound; lia).
  unfold spec.decode_fields.
  change (48 + 0) with 48. change (48 + 1) with 49. change (48 + 2) with 50.
  change (48 + 5) with 53. change (48 + 7) with 55. change (48 + 10) with 58.
  change (48 + 12) with 60.
  generalize (spec.field e 50 3) (spec.field e 55 3) (spec.field e 53 2)
             (spec.field e 60 3) (spec.field e 58 2).
  intros n1 n2 n3 n4 n5.
  unfold spec.table_op1_src.
  destruct n1 as [|[?|[?|[?|?|]|]|]|?]; try reflexivity.
  all: unfold spec.table_pc_update;
    destruct n2 as [|[?|[?|[?|?|]|]|]|?]; try reflexivity.
  all: unfold spec.table_res_logic;
    destruct n3 as [|[?|[?|?|]|]|?]; try reflexivity.
  all: unfold spec.table_opcode;
    destruct n4 as [|[?|[?|[?|?|]|]|]|?]; try reflexivity.
  all: unfold spec.table_ap_update;
    destruct n5 as [|[?|[?|?|]|]|?]; reflexivity.
Qed.

Lemma decode_fields_not_high_bit (e : Z) :
  spec.decode_fields e <> Err ErrNonZeroHighBitError.
Proof.
  unfold spec.decode_fields.
  destruct (spec.table_op1_src _); [|discriminate].
  destruct (spec.table_pc_update _) as [pc|]; [|discriminate].
  destruct (spec.table_res_logic _ pc); [|discriminate].
  destruct (spec.table_opcode _) as [opc|]; [|discriminate].
  destruct (spec.table_ap_update _ opc); discriminate.
Qed.

(** C2.  [DecodeInstruction] fails with the high-bit error exactly when bit
    63 of the word is set.  Otherwise it is the table decoding of the
    fields: the three low 16-bit groups minus 2^15 as offsets, dst_reg and
    op0_reg at bits 48 and 49, op1_src at 50-52, res_logic at 53-54,
    pc_update at 55-57, ap_update at 58-59, opcode at 60-62, each read in
    its table ([spec.decode_fields]), where a pattern outside a table gives
    that field's error; the offsets lie in [-2^15, 2^15). *)
Theorem DecodeInstruction_spec (e : Z) :
  (vm.DecodeInstruction e = Err ErrNonZeroHighBitError <-> Z.testbit e 63 = true) /\
  (Z.testbit e 63 = false -> vm.DecodeInstruction e = spec.decode_fields e) /\
  (forall i, vm.DecodeInstruction e = Ok i ->
     - 2 ^ 15 <= vm.Off0 i < 2 ^ 15 /\
     - 2 ^ 15 <= vm.Off1 i < 2 ^ 15 /\
     - 2 ^ 15 <= vm.Off2 i < 2 ^ 15).
Proof.
  destruct (Z.testbit e 63) eqn:Hhigh.
  - assert (Hdec : vm.DecodeInstruction e = Err ErrNonZeroHighBitError).
    { unfold vm.DecodeInstruction. cbv zeta. rewrite high_bit_test, Hhigh. reflexivity. }
    split; [tauto|]. split; [discriminate|].
    intros i Hi. rewrite Hdec in Hi. discriminate.
  - pose proof (DecodeInstruction_fields e Hhigh) as Hdec.
    split; [|split].
    + split; [|discriminate]. intros H. rewrite Hdec in H.
      exfalso. exact (decode_fields_not_high_bit e H).
    + intros _. exact Hdec.
    + intros i Hi. rewrite Hdec in Hi. unfold spec.decode_fields in Hi.
      destruct (spec.table_op1_src _); [|discriminate].
      destruct (spec.table_pc_update _) as [pc|]; [|discriminate].
      destruct (spec.table_res_logic _ pc); [|discriminate].
      destruct (spec.table_opcode _) as [opc|]; [|discriminate].
      destruct (spec.table_ap_update _ opc); [|discriminate].
      injection Hi as <-. cbn [vm.Off0 vm.Off1 vm.Off2].
      pose proof (field_bound e 0 16 ltac:(lia)).
      pose proof (field_bound e 16 16 ltac:(lia)).
      pose proof (field_bound e 32 16 ltac:(lia)).
      change (2 ^ 16) with (2 ^ 15 + 2 ^ 15) in *. lia.
Qed.

(** The return instruction and the add-immediate instruction of the
    specification's scenarios, decoded. *)
Example DecodeInstruction_ret :
  vm.DecodeInstruction 0x208b7fff7fff7ffe
  = Ok (vm.mkInstruction (-2) (-1) (-1) vm.FP vm.FP vm.Op1SrcFP vm.ResOp1 vm.PcUpdateJump
                         vm.ApUpdateRegular vm.FpUpdateDst vm.Ret).
Proof. reflexivity. Qed.

Example DecodeInstruction_high_bit :
  vm.DecodeInstruction (2 ^ 63) = Err ErrNonZeroHighBitError.
Proof. reflexivity. Qed.

Example DecodeInstruction_bad_opcode :
  vm.DecodeInstruction 0x3000800080008000 = Err ErrInvalidOpcodeError.
Proof. reflexivity. Qed.

(** ** Register updates *)

(** Adding a felt to an address: the offsets are added in the field, so a
    felt P - k moves the address back by k. *)
Lemma AddFelt_forward (r : Relocatable) (f : Z) :
  0 <= Offset r -> 0 <= f -> Offset r + f < 2 ^ 64 ->
  AddFelt r f = (NewRelocatable (SegmentIndex r) (Offset r + f), None).
Proof.
  intros Ho Hf Hlt. pose proof two_pow_64_lt_prime as HP.
  unfold AddFelt, lambdaworks.Add, lambdaworks.FeltFromUint64, lambdaworks.ToU64.
  rewrite Zplus_mod_idemp_l, (Z.mod_small (Offset r + f)) by lia.
  destruct (Z.ltb_spec (Offset r + f) (2 ^ 64)); [reflexivity|lia].
Qed.

Lemma AddFelt_backward (r : Relocatable) (k : Z) :
  0 < k <= Offset r -> Offset r < 2 ^ 64 ->
  AddFelt r (lambdaworks.CAIRO_PRIME - k)
  = (NewRelocatable (SegmentIndex r) (Offset r - k), None).
Proof.
  intros Hk Hlt. pose proof two_pow_64_lt_prime as HP.
  unfold AddFelt, lambdaworks.Add, lambdaworks.FeltFromUint64, lambdaworks.ToU64.
  rewrite Zplus_mod_idemp_l.
  replace (Offset r + (lambdaworks.CAIRO_PRIME - k))
    with (Offset r - k + 1 * lambdaworks.CAIRO_PRIME) by lia.
  rewrite Z_mod_plus_full, (Z.mod_small (Offset r - k)) by lia.
  destruct (Z.ltb_spec (Offset r - k) (2 ^ 64)); [reflexivity|lia].
Qed.

(** An addition never changes the segment index of the address. *)
Lemma AddFelt_segment (r : Relocatable) (f : Z) :
  SegmentIndex (fst (AddFelt r f)) = SegmentIndex r.
Proof. unfold AddFelt. destruct (lambdaworks.ToU64 _); reflexivity. Qed.

Lemma AddMaybeRelocatable_segment (r r' : Relocatable) (other : MaybeRelocatable) :
  AddMaybeRelocatable r other = Ok r' -> SegmentIndex r' = SegmentIndex r.
Proof.
  unfold AddMaybeRelocatable. destruct other as [f|?]; [|discriminate].
  pose proof (AddFelt_segment r f) as Hseg.
  destruct (AddFelt r f) as [r1 [e|]]; [discriminate|].
  intros [= <-]. exact Hseg.
Qed.

(** A relocatable is never zero; a felt is zero when it is 0. *)
Lemma IsZero_spec (m : MaybeRelocatable) :
  IsZero m = true <-> m = NewMaybeRelocatableFelt 0.
Proof.
  destruct m as [f|r]; cbn; [|split; discriminate].
  unfold lambdaworks.IsZero. split.
  - intros H. apply Z.eqb_eq in H. congruence.
  - intros [= ->]. reflexivity.
Qed.

(** C7.  A step with pc_update = JNZ: when dst is the felt zero the new pc
    is the old pc plus the instruction size (in 64-bit arithmetic); in every
    other case, a relocatable dst included, it is pc + op1, and the update
    fails with the error of that addition when it fails (op1 a relocatable,
    or an offset outside 64 bits).  For a felt op1 the sum is taken on the
    offset. *)
Theorem UpdatePc_jnz (v : vm.VirtualMachine) (instruction : vm.Instruction)
        (operands : vm.Operands) :
  vm.PcUpdate_ instruction = vm.PcUpdateJnz ->
  let pc := vm.Pc (vm.RunCtx v) in
  (vm.Dst operands = NewMaybeRelocatableFelt 0 ->
   vm.UpdatePc v instruction operands
   = (vm.set_RunCtx v (vm.set_Pc (vm.RunCtx v)
        (NewRelocatable (SegmentIndex pc) (wrap64 (Offset pc + vm.Size instruction)))),
      None)) /\
  (vm.Dst operands <> NewMaybeRelocatableFelt 0 ->
   vm.UpdatePc v instruction operands
   = match AddMaybeRelocatable pc (vm.Op1 operands) with
     | Ok new_pc => (vm.set_RunCtx v (vm.set_Pc (vm.RunCtx v) new_pc), None)
     | Err e => (v, Some e)
     end) /\
  (forall r, vm.Dst operands = NewMaybeRelocatableRelocatable r ->
             IsZero (vm.Dst operands) = false) /\
  (forall f, vm.Dst operands <> NewMaybeRelocatableFelt 0 ->
             vm.Op1 operands = NewMaybeRelocatableFelt f ->
             0 <= Offset pc -> 0 <= f -> Offset pc + f < 2 ^ 64 ->
             vm.UpdatePc v instruction operands
             = (vm.set_RunCtx v (vm.set_Pc (vm.RunCtx v)
                  (NewRelocatable (SegmentIndex pc) (Offset pc + f))), None)) /\
  (0 <= Offset pc -> Offset pc + vm.Size instruction < 2 ^ 64 ->
   wrap64 (Offset pc + vm.Size instruction) = Offset pc + vm.Size instruction).
Proof.
  intros Hjnz pc.
  assert (Hnz : vm.Dst operands <> NewMaybeRelocatableFelt 0 ->
                vm.UpdatePc v instruction operands
                = match AddMaybeRelocatable pc (vm.Op1 operands) with
                  | Ok new_pc => (vm.set_RunCtx v (vm.set_Pc (vm.RunCtx v) new_pc), None)
                  | Err e => (v, Some e)
                  end).
  { intros Hne. unfold vm.UpdatePc. rewrite Hjnz.
    destruct (IsZero (vm.Dst operands)) eqn:Hz.
    - apply IsZero_spec in Hz. contradiction.
    - reflexivity. }
  split; [|split; [exact Hnz|split; [|split]]].
  - intros Hdst. unfold vm.UpdatePc. rewrite Hjnz.
    rewrite (proj2 (IsZero_spec _) Hdst). reflexivity.
  - intros r ->. reflexivity.
  - intros f Hne Hop1 Ho Hf Hlt. rewrite (Hnz Hne), Hop1.
    unfold AddMaybeRelocatable. rewrite AddFelt_forward by assumption. reflexivity.
  - intros Ho Hlt. apply wrap64_small.
    assert (0 < vm.Size instruction) by (unfold vm.Size; destruct (vm.Op1Addr _); lia).
    lia.
Qed.

(** ** Registers along a step *)

Lemma same_registers_refl (v : vm.VirtualMachine) : spec.same_registers v v.
Proof. split; reflexivity. Qed.

Lemma same_registers_trans (v1 v2 v3 : vm.VirtualMachine) :
  spec.same_registers v1 v2 -> spec.same_registers v2 v3 -> spec.same_registers v1 v3.
Proof. intros [H1 H2] [H3 H4]. split; congruence. Qed.

Lemma insert_ignore_registers (v : vm.VirtualMachine) (addr : Relocatable)
      (val : MaybeRelocatable) :
  spec.same_registers v (vm.insert_ignore v addr val).
Proof. split; reflexivity. Qed.

Lemma DeduceMemoryCell_registers (v : vm.VirtualMachine) (addr : Relocatable) :
  spec.same_registers v (fst (vm.DeduceMemoryCell v addr)).
Proof.
  unfold vm.DeduceMemoryCell. destruct (vm.deduce_in _ _ _). split; reflexivity.
Qed.

Lemma ComputeOp0Deductions_registers (v : vm.VirtualMachine) (op0_addr : Relocatable)
      (i : vm.Instruction) (dst op1 : option MaybeRelocatable) :
  spec.same_registers v (fst (vm.ComputeOp0Deductions v op0_addr i dst op1)).
Proof.
  unfold vm.ComputeOp0Deductions.
  pose proof (DeduceMemoryCell_registers v op0_addr) as H.
  destruct (vm.DeduceMemoryCell v op0_addr) as [v1 [op0|e]]; cbn [fst] in *; [|exact H].
  destruct op0 as [val|].
  - eapply same_registers_trans; [exact H|apply insert_ignore_registers].
  - destruct (vm.DeduceOp0 v1 i dst op1) as [[[val|] res]|e]; exact H.
Qed.

Lemma ComputeOp1Deductions_registers (v : vm.VirtualMachine) (op1_addr : Relocatable)
      (i : vm.Instruction) (dst op0 res : option MaybeRelocatable) :
  spec.same_registers v (fst (vm.ComputeOp1Deductions v op1_addr i dst op0 res)).
Proof.
  unfold vm.ComputeOp1Deductions.
  pose proof (DeduceMemoryCell_registers v op1_addr) as H.
  destruct (vm.DeduceMemoryCell v op1_addr) as [v1 [op1|e]]; cbn [fst] in *; [|exact H].
  destruct op1 as [val|].
  - eapply same_registers_trans; [exact H|apply insert_ignore_registers].
  - destruct (vm.DeduceOp1 v1 i dst op0) as [[[val|] r]|e]; exact H.
Qed.

Lemma ComputeOperands_registers (v : vm.VirtualMachine) (i : vm.Instruction) :
  spec.same_registers v (fst (vm.ComputeOperands v i)).
Proof.
  unfold vm.ComputeOperands.
  destruct (vm.ComputeDstAddr _ _) as [dst_addr|]; [|apply same_registers_refl].
  destruct (vm.ComputeOp0Addr _ _) as [op0_addr|]; [|apply same_registers_refl].
  set (op0_op := vm.result_option (Get _ op0_addr)).
  destruct (vm.ComputeOp1Addr _ _ _) as [op1_addr|]; [|apply same_registers_refl].
  set (dst := vm.result_option (Get _ dst_addr)).
  set (op1_op := vm.result_option (Get _ op1_addr)).
  assert (H0 : spec.same_registers v
                 (fst (match op0_op with
                       | Some op0 => (v, Ok (op0, None))
                       | None => vm.ComputeOp0Deductions v op0_addr i dst op1_op
                       end))).
  { destruct op0_op; [apply same_registers_refl|apply ComputeOp0Deductions_registers]. }
  destruct (match op0_op with Some _ => _ | None => _ end) as [v1 [[op0 res]|e]];
    cbn [fst] in H0; [|exact H0].
  assert (H1 : spec.same_registers v1
                 (fst (match op1_op with
                       | Some op1 => (v1, Ok op1)
                       | None => vm.ComputeOp1Deductions v1 op1_addr i dst op0_op res
                       end))).
  { destruct op1_op; [apply same_registers_refl|apply ComputeOp1Deductions_registers]. }
  destruct (match op1_op with Some _ => _ | None => _ end) as [v2 [op1|e]];
    cbn [fst] in H1; [|exact (same_registers_trans _ _ _ H0 H1)].
  pose proof (same_registers_trans _ _ _ H0 H1) as H2.
  destruct (match res with Some _ => _ | None => _ end) as [res'|e]; [|exact H2].
  destruct dst as [d|]; [exact H2|].
  destruct (vm.DeduceDst v2 i res'); [|exact H2].
  eapply same_registers_trans; [exact H2|apply insert_ignore_registers].
Qed.

(** Closes the goals about register projections of an updated machine. *)
Ltac registers_done :=
  cbn in *; repeat split; solve [reflexivity | assumption | congruence].

(** [UpdateAp] moves ap inside its segment and leaves fp alone. *)
Lemma UpdateAp_registers (v : vm.VirtualMachine) (i : vm.Instruction) (ops : vm.Operands) :
  let v' := fst (vm.UpdateAp v i ops) in
  SegmentIndex (vm.Ap (vm.RunCtx v')) = SegmentIndex (vm.Ap (vm.RunCtx v)) /\
  vm.Fp (vm.RunCtx v') = vm.Fp (vm.RunCtx v) /\
  vm.CurrentStep v' = vm.CurrentStep v.
Proof.
  unfold vm.UpdateAp. destruct (vm.ApUpdate_ i); try registers_done.
  destruct (vm.Res ops) as [res|]; [|registers_done].
  destruct (AddMaybeRelocatable _ res) as [new_ap|e] eqn:Hadd; [|registers_done].
  apply AddMaybeRelocatable_segment in Hadd. registers_done.
Qed.

(** [UpdateFp] leaves ap alone.  It keeps the segment index of fp, except
    for the update DST with a relocatable dst, where fp becomes dst. *)
Lemma UpdateFp_registers (v : vm.VirtualMachine) (i : vm.Instruction) (ops : vm.Operands) :
  let v' := fst (vm.UpdateFp v i ops) in
  vm.Ap (vm.RunCtx v') = vm.Ap (vm.RunCtx v) /\
  vm.CurrentStep v' = vm.CurrentStep v /\
  match vm.FpUpdate_ i, vm.Dst ops with
  | vm.FpUpdateDst, NewMaybeRelocatableRelocatable rel =>
      snd (vm.UpdateFp v i ops) = None /\ vm.Fp (vm.RunCtx v') = rel
  | _, _ => SegmentIndex (vm.Fp (vm.RunCtx v')) = SegmentIndex (vm.Fp (vm.RunCtx v))
  end.
Proof.
  unfold vm.UpdateFp. destruct (vm.FpUpdate_ i).
  - destruct (vm.Dst ops); registers_done.
  - destruct (vm.Dst ops); registers_done.
  - destruct (vm.Dst ops) as [f|rel]; [|registers_done].
    pose proof (AddFelt_segment (vm.Fp (vm.RunCtx v)) f) as Hseg.
    cbn [GetRelocatable GetFelt].
    destruct (AddFelt _ f) as [new_fp [e|]]; registers_done.
Qed.

Lemma UpdatePc_registers (v : vm.VirtualMachine) (i : vm.Instruction) (ops : vm.Operands) :
  let v' := fst (vm.UpdatePc v i ops) in
  vm.Ap (vm.RunCtx v') = vm.Ap (vm.RunCtx v) /\
  vm.Fp (vm.RunCtx v') = vm.Fp (vm.RunCtx v) /\
  vm.CurrentStep v' = vm.CurrentStep v.
Proof.
  unfold vm.UpdatePc. destruct (vm.PcUpdate_ i); try registers_done.
  - destruct (vm.Res ops) as [r|]; [|registers_done].
    destruct (GetRelocatable r) as [res [|]]; registers_done.
  - destruct (vm.Res ops) as [r|]; [|registers_done].
    destruct (GetFelt r) as [res [|]]; [|registers_done].
    destruct (AddFelt _ res) as [new_pc [e|]]; registers_done.
  - destruct (IsZero (vm.Dst ops)); [registers_done|].
    destruct (AddMaybeRelocatable _ _); registers_done.
Qed.

Lemma UpdateRegisters_registers (v : vm.VirtualMachine) (i : vm.Instruction)
      (ops : vm.Operands) :
  let v' := fst (vm.UpdateRegisters v i ops) in
  SegmentIndex (vm.Ap (vm.RunCtx v')) = SegmentIndex (vm.Ap (vm.RunCtx v)) /\
  vm.CurrentStep v' = vm.CurrentStep v /\
  match vm.FpUpdate_ i, vm.Dst ops with
  | vm.FpUpdateDst, NewMaybeRelocatableRelocatable rel => vm.Fp (vm.RunCtx v') = rel
  | _, _ => SegmentIndex (vm.Fp (vm.RunCtx v')) = SegmentIndex (vm.Fp (vm.RunCtx v))
  end.
Proof.
  unfold vm.UpdateRegisters.
  pose proof (UpdateFp_registers v i ops) as (Hap1 & Hst1 & Hfp1).
  destruct (vm.UpdateFp v i ops) as [v1 [e|]]; cbn [fst snd] in *.
  { rewrite Hap1. split; [reflexivity|]. split; [exact Hst1|].
    destruct (vm.FpUpdate_ i), (vm.Dst ops); tauto. }
  pose proof (UpdateAp_registers v1 i ops) as (Hap2 & Hfp2 & Hst2).
  destruct (vm.UpdateAp v1 i ops) as [v2 [e|]]; cbn [fst snd] in *.
  { split; [congruence|]. split; [congruence|].
    rewrite Hfp2. destruct (vm.FpUpdate_ i), (vm.Dst ops); tauto. }
  pose proof (UpdatePc_registers v2 i ops) as (Hap3 & Hfp3 & Hst3).
  split; [congruence|]. split; [congruence|].
  rewrite Hfp3, Hfp2. destruct (vm.FpUpdate_ i), (vm.Dst ops); tauto.
Qed.

Lemma RunInstruction_registers (v : vm.VirtualMachine) (i : vm.Instruction) :
  let v' := fst (vm.RunInstruction v i) in
  SegmentIndex (vm.Ap (vm.RunCtx v')) = SegmentIndex (vm.Ap (vm.RunCtx v)) /\
  (vm.FpUpdate_ i <> vm.FpUpdateDst ->
   SegmentIndex (vm.Fp (vm.RunCtx v')) = SegmentIndex (vm.Fp (vm.RunCtx v))) /\
  (snd (vm.RunInstruction v i) = None ->
   vm.CurrentStep v' = wrap64 (vm.CurrentStep v + 1)).
Proof.
  unfold vm.RunInstruction.
  pose proof (ComputeOperands_registers v i) as [Hctx Hstep].
  destruct (vm.ComputeOperands v i) as [v1 [ops|e]]; cbn [fst snd] in *.
  2:{ rewrite Hctx. repeat split; try reflexivity. discriminate. }
  destruct (vm.OpcodeAssertions v1 i ops) as [e|]; cbn [fst snd].
  { rewrite Hctx. repeat split; try reflexivity. discriminate. }
  match goal with |- context [vm.UpdateRegisters ?v2 i ops] =>
    pose proof (UpdateRegisters_registers v2 i ops) as (Hap & Hst & Hfp);
    destruct (vm.UpdateRegisters v2 i ops) as [v3 [e|]]
  end; cbn [fst snd vm.RunCtx vm.CurrentStep] in *.
  - rewrite Hctx in *. split; [exact Hap|]. split; [|discriminate].
    intros Hne. destruct (vm.FpUpdate_ i), (vm.Dst ops); congruence.
  - rewrite Hctx in *. split; [exact Hap|]. split; [|intros _; congruence].
    intros Hne. destruct (vm.FpUpdate_ i), (vm.Dst ops); congruence.
Qed.

(** A step keeps ap in its segment; it keeps fp in its segment unless the
    instruction at pc has the update DST of fp. *)
Lemma Step_registers (v : vm.VirtualMachine) :
  let v' := fst (vm.Step v) in
  SegmentIndex (vm.Ap (vm.RunCtx v')) = SegmentIndex (vm.Ap (vm.RunCtx v)) /\
  (SegmentIndex (vm.Fp (vm.RunCtx v')) = SegmentIndex (vm.Fp (vm.RunCtx v)) \/
   exists e i,
     Get (Mem (vm.Segments v)) (vm.Pc (vm.RunCtx v)) = Ok (NewMaybeRelocatableFelt e) /\
     vm.DecodeInstruction e = Ok i /\ vm.FpUpdate_ i = vm.FpUpdateDst) /\
  (snd (vm.Step v) = None -> vm.CurrentStep v' = wrap64 (vm.CurrentStep v + 1)).
Proof.
  unfold vm.Step.
  destruct (Get _ _) as [[e|r]|err] eqn:Hget; cbn [GetFelt negb fst snd];
    try (split; [reflexivity|split; [left; reflexivity|discriminate]]).
  unfold lambdaworks.ToU64.
  destruct (e <? 2 ^ 64); cbn [fst snd];
    try (split; [reflexivity|split; [left; reflexivity|discriminate]]).
  destruct (vm.DecodeInstruction e) as [i|err] eqn:Hdec; cbn [fst snd];
    try (split; [reflexivity|split; [left; reflexivity|discriminate]]).
  pose proof (RunInstruction_registers v i) as (Hap & Hfp & Hst).
  split; [exact Hap|]. split; [|exact Hst].
  destruct (vm.FpUpdate_ i) eqn:Hupd.
  - left. apply Hfp. congruence.
  - left. apply Hfp. congruence.
  - right. exists e, i. auto.
Qed.

(** ** Runner initialization *)

Import runners.

Lemma mark_accessed_from_fields (n : nat) (m : Memory) (base : Relocatable) (i : Z) :
  let m' := mark_accessed_from m base i n in
  data m' = data m /\ num_segments m' = num_segments m /\
  validation_rules m' = validation_rules m /\
  validated_addresses m' = validated_addresses m.
Proof.
  revert m i. induction n as [|n IH]; intros m i; cbn [mark_accessed_from].
  - repeat split.
  - destruct (IH (MarkAsAccessed m (NewRelocatable (SegmentIndex base)
                                                   (wrap64 (Offset base + i)))) (i + 1))
      as (H1 & H2 & H3 & H4).
    cbn zeta in *. rewrite H1, H2, H3, H4. repeat split.
Qed.

(** Loading a list of values into free cells of an allocated segment that
    carries no validation rule. *)
Lemma LoadData_loop_fresh (l : list MaybeRelocatable) :
  forall (m : Memory) (ptr : Relocatable),
    validation_rules m !! to_uint (SegmentIndex ptr) = None ->
    SegmentIndex ptr < to_int (num_segments m) ->
    0 <= Offset ptr -> Offset ptr + Z.of_nat (length l) < 2 ^ 64 ->
    (forall a, SegmentIndex a = SegmentIndex ptr -> Offset ptr <= Offset a ->
               data m !! a = None) ->
    exists d,
      LoadData_loop m ptr l
      = (set_data m d,
         Ok (NewRelocatable (SegmentIndex ptr) (Offset ptr + Z.of_nat (length l)))) /\
      (forall i v, l !! i = Some v ->
                   d !! NewRelocatable (SegmentIndex ptr) (Offset ptr + Z.of_nat i) = Some v) /\
      (forall a, SegmentIndex a <> SegmentIndex ptr \/ Offset a < Offset ptr \/
                 Offset ptr + Z.of_nat (length l) <= Offset a ->
                 d !! a = data m !! a).
Proof.
  induction l as [|val rest IH]; intros m ptr Hrules Hseg Hoff Hlen Hfree.
  - exists (data m). cbn [LoadData_loop length]. rewrite set_data_same, Z.add_0_r.
    destruct ptr as [s o]. repeat split. intros i v Hi. destruct i; discriminate.
  - cbn [LoadData_loop]. cbn [length] in Hlen.
    rewrite Insert_passes; [|exact Hseg|left; apply Hfree; [reflexivity|lia]].
    rewrite validateAddress_skip by (right; right; exact Hrules).
    set (m1 := set_data m (<[ptr := val]> (data m))).
    set (ptr1 := NewRelocatable (SegmentIndex ptr) (wrap64 (Offset ptr + 1))).
    assert (Hw : wrap64 (Offset ptr + 1) = Offset ptr + 1) by (apply wrap64_small; lia).
    destruct (IH m1 ptr1) as (d & Hload & Hin & Hout).
    + exact Hrules.
    + exact Hseg.
    + cbn [ptr1 Offset]. lia.
    + cbn [ptr1 Offset]. lia.
    + intros a Ha Hge. cbn [ptr1 Offset SegmentIndex] in Ha, Hge.
      cbn [m1 data set_data]. rewrite lookup_insert_ne.
      * apply Hfree; [exact Ha|lia].
      * intros ->. lia.
    + exists d. cbn [ptr1 SegmentIndex Offset] in Hload, Hin, Hout. rewrite Hw in *.
      split; [|split].
      * rewrite Hload. do 3 f_equal. cbn [length]. lia.
      * intros [|i] v Hi.
        -- cbn in Hi. injection Hi as <-. rewrite Z.add_0_r.
           rewrite Hout by (right; left; cbn [Offset]; lia).
           cbn [m1 data set_data]. destruct ptr as [s o]. apply lookup_insert_eq.
        -- cbn in Hi. specialize (Hin i v Hi).
           replace (Offset ptr + Z.of_nat (S i)) with (Offset ptr + 1 + Z.of_nat i) by lia.
           exact Hin.
      * intros a Ha. cbn [length] in Ha. rewrite Hout by lia.
        cbn [m1 data set_data]. apply lookup_insert_ne. intros ->. lia.
Qed.

(** The fields that [initializeState] leaves alone, and the initial pc. *)
Lemma initializeState_fields (r : CairoRunner) (entrypoint : Z)
      (stack : list MaybeRelocatable) :
  let r' := fst (initializeState r entrypoint stack) in
  executionBase r' = executionBase r /\ ProgramBase r' = ProgramBase r /\
  initialAp r' = initialAp r /\ initialFp r' = initialFp r /\
  finalPc r' = finalPc r /\
  initialPc r' = NewRelocatable (SegmentIndex (ProgramBase r))
                                (wrap64 (Offset (ProgramBase r) + entrypoint)).
Proof.
  unfold initializeState.
  destruct (LoadData _ _ _) as [s [p|e]].
  - destruct (LoadData s _ _) as [s' res']. cbn. repeat split.
  - cbn. repeat split.
Qed.

(** After the main entrypoint is initialized, in either mode, the initial
    ap and fp are one address of the execution segment. *)
Lemma initializeMainEntrypoint_registers (r : CairoRunner) :
  let r' := fst (fst (fst (initializeMainEntrypoint r))) in
  initialAp r' = initialFp r' /\
  SegmentIndex (initialFp r') = SegmentIndex (executionBase r').
Proof.
  unfold initializeMainEntrypoint. destruct (ProofMode r).
  - match goal with |- context [initializeState ?r0 ?e ?s] =>
      pose proof (initializeState_fields r0 e s) as (Heb & _);
      destruct (initializeState r0 e s) as [r1 err]
    end.
    cbn in *. rewrite Heb. split; reflexivity.
  - unfold add_segment, initializeFunctionEntrypoint, add_segment.
    cbn [AddSegment fst snd].
    match goal with |- context [initializeState ?r0 ?e ?s] =>
      pose proof (initializeState_fields r0 e s) as (Heb & _ & Hap & Hfp & _);
      destruct (initializeState r0 e s) as [r1 err]
    end.
    cbn in *. rewrite Heb, Hap, Hfp. split; reflexivity.
Qed.

Lemma initializeVM_registers (r : CairoRunner) :
  let r' := fst (initializeVM r) in
  vm.RunCtx (Vm r') = vm.mkRunContext (initialPc r) (initialAp r) (initialFp r) /\
  executionBase r' = executionBase r.
Proof.
  unfold initializeVM. destruct (ValidateExistingMemory _) as [m err]. split; reflexivity.
Qed.

(** After a successful [Initialize], ap and fp are one address of the
    execution segment. *)
Lemma Initialize_registers (r r' : CairoRunner) (end_ : Relocatable) :
  Initialize r = (r', end_, None) ->
  vm.Ap (vm.RunCtx (Vm r')) = vm.Fp (vm.RunCtx (Vm r')) /\
  SegmentIndex (vm.Ap (vm.RunCtx (Vm r'))) = SegmentIndex (executionBase r').
Proof.
  unfold Initialize. set (r0 := initializeSegments r).
  pose proof (initializeMainEntrypoint_registers r0) as [Heq Hseg].
  destruct (initializeMainEntrypoint r0) as [[[r1 stack] e1] [err|]]; [discriminate|].
  cbn [fst] in Heq, Hseg.
  pose proof (initializeVM_registers r1) as [Hctx Heb].
  destruct (initializeVM r1) as [r2 err]. cbn [fst] in Hctx, Heb.
  intros [= <- _ _]. rewrite Hctx, Heb. cbn [vm.Ap vm.Fp]. split; congruence.
Qed.

(** [initializeState] on a memory whose program and execution segments are
    allocated, distinct, empty and without a validation rule. *)
Lemma initializeState_fresh (r : CairoRunner) (entrypoint : Z) (stack : list MaybeRelocatable) :
  let m := Mem (vm.Segments (Vm r)) in
  let pb := ProgramBase r in
  let eb := executionBase r in
  validation_rules m !! to_uint (SegmentIndex pb) = None ->
  validation_rules m !! to_uint (SegmentIndex eb) = None ->
  SegmentIndex pb < to_int (num_segments m) ->
  SegmentIndex eb < to_int (num_segments m) ->
  SegmentIndex pb <> SegmentIndex eb ->
  (forall a, SegmentIndex a = SegmentIndex pb \/ SegmentIndex a = SegmentIndex eb ->
             data m !! a = None) ->
  0 <= Offset pb -> Offset pb + Z.of_nat (length (Data (Program_ r))) < 2 ^ 64 ->
  0 <= Offset eb -> Offset eb + Z.of_nat (length stack) < 2 ^ 64 ->
  exists r',
    initializeState r entrypoint stack = (r', None) /\
    num_segments (Mem (vm.Segments (Vm r'))) = num_segments m /\
    (forall i v, Data (Program_ r) !! i = Some v ->
       data (Mem (vm.Segments (Vm r')))
         !! NewRelocatable (SegmentIndex pb) (Offset pb + Z.of_nat i) = Some v) /\
    (forall i v, stack !! i = Some v ->
       data (Mem (vm.Segments (Vm r')))
         !! NewRelocatable (SegmentIndex eb) (Offset eb + Z.of_nat i) = Some v).
Proof.
  intros m pb eb Hrules Hrules' Hpb Heb Hne Hfree Hpo Hpl Heo Hel.
  destruct (LoadData_loop_fresh (Data (Program_ r)) m pb Hrules Hpb Hpo Hpl)
    as (d1 & Hl1 & Hin1 & Hout1).
  { intros a Ha _. apply Hfree. left. exact Ha. }
  destruct (LoadData_loop_fresh stack (set_data m d1) eb Hrules' Heb Heo Hel)
    as (d2 & Hl2 & Hin2 & Hout2).
  { intros a Ha _. cbn [data set_data]. rewrite Hout1 by (left; congruence).
    apply Hfree. right. exact Ha. }
  unfold initializeState, LoadData. fold m pb eb. rewrite Hl1.
  cbn [Mem set_Mem]. fold eb. rewrite Hl2.
  eexists. split; [reflexivity|].
  cbn [Vm vm.Segments vm.set_Segments Mem set_Mem].
  match goal with |- context [mark_accessed_from ?m0 ?b ?i ?k] =>
    destruct (mark_accessed_from_fields k m0 b i) as (Hd & Hn & _)
  end.
  cbn zeta in Hd, Hn. rewrite Hd, Hn. cbn [data num_segments set_data].
  split; [reflexivity|]. split.
  - intros i v Hi. rewrite Hout2 by (left; cbn [SegmentIndex]; exact Hne).
    apply Hin1. exact Hi.
  - exact Hin2.
Qed.

(** C6.  Normal mode, on a runner whose program and execution segments are
    allocated, distinct, empty and without a validation rule (rules are
    installed later, by [initializeVM], on builtin segments): the main
    entrypoint initialization allocates the segments n
    (return fp) and n + 1 (end), builds the stack of the builtins' initial
    stacks followed by return_fp and end, loads the program at the program
    base and the stack at the execution base without error, sets
    fp = ap = execution base + stack length, final pc = end and
    pc = program base + main offset, and returns end; [initializeVM] then
    copies the three registers into the run context. *)
Theorem initializeMainEntrypoint_normal_mode (r : CairoRunner) :
  let m := Mem (vm.Segments (Vm r)) in
  let n := num_segments m in
  let pb := ProgramBase r in
  let eb := executionBase r in
  let return_fp := NewRelocatable n 0 in
  let end_ := NewRelocatable (n + 1) 0 in
  let stack := builtins_initial_stack (vm.BuiltinRunners (Vm r))
               ++ [NewMaybeRelocatableRelocatable return_fp;
                   NewMaybeRelocatableRelocatable end_] in
  ProofMode r = false ->
  0 <= n -> n + 2 < 2 ^ 63 ->
  validation_rules m !! to_uint (SegmentIndex pb) = None ->
  validation_rules m !! to_uint (SegmentIndex eb) = None ->
  SegmentIndex pb < n -> SegmentIndex eb < n -> SegmentIndex pb <> SegmentIndex eb ->
  (forall a, SegmentIndex a = SegmentIndex pb \/ SegmentIndex a = SegmentIndex eb ->
             data m !! a = None) ->
  0 <= Offset pb -> Offset pb + Z.of_nat (length (Data (Program_ r))) < 2 ^ 64 ->
  0 <= mainOffset r -> Offset pb + mainOffset r < 2 ^ 64 ->
  0 <= Offset eb -> Offset eb + Z.of_nat (length stack) < 2 ^ 64 ->
  exists r',
    initializeMainEntrypoint r = (r', stack, end_, None) /\
    num_segments (Mem (vm.Segments (Vm r'))) = n + 2 /\
    initialFp r' = NewRelocatable (SegmentIndex eb) (Offset eb + Z.of_nat (length stack)) /\
    initialAp r' = initialFp r' /\
    finalPc r' = Some end_ /\
    initialPc r' = NewRelocatable (SegmentIndex pb) (Offset pb + mainOffset r) /\
    (forall i v, Data (Program_ r) !! i = Some v ->
       data (Mem (vm.Segments (Vm r')))
         !! NewRelocatable (SegmentIndex pb) (Offset pb + Z.of_nat i) = Some v) /\
    (forall i v, stack !! i = Some v ->
       data (Mem (vm.Segments (Vm r')))
         !! NewRelocatable (SegmentIndex eb) (Offset eb + Z.of_nat i) = Some v) /\
    vm.RunCtx (Vm (fst (initializeVM r')))
    = vm.mkRunContext (initialPc r') (initialAp r') (initialFp r').
Proof.
  intros m n pb eb return_fp end_ stack Hmode Hn0 Hn2 Hrules Hrules' Hpb Heb Hne Hfree
         Hpo Hpl Hmo Hml Heo Hel.
  assert (Hi0 : to_int n = n) by (apply to_int_small; lia).
  assert (Hw1 : wrap64 (n + 1) = n + 1) by (apply wrap64_small; lia).
  assert (Hi1 : to_int (n + 1) = n + 1) by (apply to_int_small; lia).
  assert (Hw2 : wrap64 (n + 1 + 1) = n + 2) by (rewrite wrap64_small; lia).
  assert (Hi2 : to_int (n + 2) = n + 2) by (apply to_int_small; lia).
  unfold initializeMainEntrypoint. rewrite Hmode.
  unfold add_segment, initializeFunctionEntrypoint, add_segment, AddSegment,
    set_Vm, vm.set_Segments, set_Mem.
  cbn [fst snd Vm vm.Segments Mem SegmentSizes num_segments data validation_rules
       validated_addresses accessed_addresses mainOffset executionBase ProgramBase
       vm.BuiltinRunners vm.RunCtx vm.CurrentStep vm.Trace Program_ initialPc
       initialAp initialFp finalPc ProofMode RunEnded ExecutionPublicMemory
       SegmentsFinalized].
  fold m n. rewrite Hi0, Hw1, Hi1, Hw2. fold return_fp end_ stack.
  match goal with |- context [initializeState ?r1 _ _] => set (r0 := r1) end.
  destruct (initializeState_fresh r0 (mainOffset r) stack)
    as (r' & Hinit & Hnum & Hprog & Hstack);
    try (subst r0;
         cbn [Vm vm.Segments Mem num_segments validation_rules data ProgramBase
              executionBase Program_];
         fold m n pb eb; try rewrite Hi2; first [assumption | lia]).
  pose proof (initializeState_fields r0 (mainOffset r) stack) as Hfields.
  rewrite Hinit in *. cbn [fst] in Hfields.
  destruct Hfields as (_ & _ & Hap & Hfp & Hfin & Hpc).
  subst r0.
  cbn [Vm vm.Segments Mem num_segments initialAp initialFp finalPc ProgramBase]
    in Hap, Hfp, Hfin, Hpc, Hnum, Hprog, Hstack.
  fold eb pb in Hap, Hfp, Hpc.
  rewrite (wrap64_small (Offset eb + _)) in Hap, Hfp by lia.
  rewrite (wrap64_small (Offset pb + _)) in Hpc by lia.
  exists r'. split; [reflexivity|].
  split; [exact Hnum|].
  split; [exact Hfp|]. split; [congruence|]. split; [exact Hfin|]. split; [exact Hpc|].
  split; [exact Hprog|]. split; [exact Hstack|].
  apply initializeVM_registers.
Qed.

(** Witness of [initializeMainEntrypoint_normal_mode]: the add-immediate
    program with the range-check builtin.  The segments 0 (program), 1
    (execution) and 2 (range check) exist; the return-fp segment is 3, the
    end segment 4, and the stack is [2:0, 3:0, 4:0]. *)
Lemma initializeMainEntrypoint_normal_mode_witness :
  let r := examples.add_immediate_runner in
  let stack := [NewMaybeRelocatableRelocatable (NewRelocatable 2 0);
                NewMaybeRelocatableRelocatable (NewRelocatable 3 0);
                NewMaybeRelocatableRelocatable (NewRelocatable 4 0)] in
  (ProofMode r = false /\
   validation_rules (Mem (vm.Segments (Vm r))) = ∅ /\
   num_segments (Mem (vm.Segments (Vm r))) = 3 /\
   data (Mem (vm.Segments (Vm r))) = ∅) /\
  exists r',
    initializeMainEntrypoint r = (r', stack, NewRelocatable 4 0, None) /\
    num_segments (Mem (vm.Segments (Vm r'))) = 5 /\
    initialFp r' = NewRelocatable 1 3 /\
    initialAp r' = initialFp r' /\
    finalPc r' = Some (NewRelocatable 4 0) /\
    initialPc r' = NewRelocatable 0 0.
Proof.
  assert (H : ProofMode examples.add_immediate_runner = false /\
              validation_rules (Mem (vm.Segments (Vm examples.add_immediate_runner))) = ∅ /\
              num_segments (Mem (vm.Segments (Vm examples.add_immediate_runner))) = 3 /\
              data (Mem (vm.Segments (Vm examples.add_immediate_runner))) = ∅).
  { repeat split; vm_compute; reflexivity. }
  split; [exact H|].
  destruct H as (Hmode & Hrules & Hnum & Hdata).
  assert (Hfree : forall a,
             SegmentIndex a = SegmentIndex (ProgramBase examples.add_immediate_runner) \/
             SegmentIndex a = SegmentIndex (executionBase examples.add_immediate_runner) ->
             data (Mem (vm.Segments (Vm examples.add_immediate_runner))) !! a = None).
  { intros a _. rewrite Hdata. apply lookup_empty. }
  destruct (initializeMainEntrypoint_normal_mode examples.add_immediate_runner Hmode
              ltac:(vm_compute; congruence) ltac:(vm_compute; congruence)
              ltac:(rewrite Hrules; apply lookup_empty)
              ltac:(rewrite Hrules; apply lookup_empty)
              ltac:(vm_compute; congruence) ltac:(vm_compute; congruence)
              ltac:(vm_compute; congruence) Hfree
              ltac:(vm_compute; congruence) ltac:(vm_compute; congruence)
              ltac:(vm_compute; congruence) ltac:(vm_compute; congruence)
              ltac:(vm_compute; congruence) ltac:(vm_compute; congruence))
    as (r' & Hinit & Hn & Hfp & Hap & Hfin & Hpc & _).
  exists r'. repeat split; assumption.
Defined.

(** Witness of [UpdatePc_jnz]: from pc = 0:0, a zero dst moves pc by the
    size 2 of the instruction, the dst 5 moves it by op1 = 3. *)
Lemma UpdatePc_jnz_witness :
  let i := examples.jnz_instruction in
  let v := vm.NewVirtualMachine in
  let zero := vm.mkOperands (NewMaybeRelocatableFelt 0) (NewMaybeRelocatableFelt 0)
                            (NewMaybeRelocatableFelt 3) None in
  let five := vm.mkOperands (NewMaybeRelocatableFelt 5) (NewMaybeRelocatableFelt 0)
                            (NewMaybeRelocatableFelt 3) None in
  vm.PcUpdate_ i = vm.PcUpdateJnz /\
  vm.Pc (vm.RunCtx (fst (vm.UpdatePc v i zero))) = NewRelocatable 0 2 /\
  vm.Pc (vm.RunCtx (fst (vm.UpdatePc v i five))) = NewRelocatable 0 3.
Proof.
  assert (H : vm.PcUpdate_ examples.jnz_instruction = vm.PcUpdateJnz) by reflexivity.
  split; [exact H|]. split.
  - destruct (UpdatePc_jnz vm.NewVirtualMachine examples.jnz_instruction
                (vm.mkOperands (NewMaybeRelocatableFelt 0) (NewMaybeRelocatableFelt 0)
                               (NewMaybeRelocatableFelt 3) None) H) as (Hz & _).
    rewrite Hz by reflexivity. reflexivity.
  - destruct (UpdatePc_jnz vm.NewVirtualMachine examples.jnz_instruction
                (vm.mkOperands (NewMaybeRelocatableFelt 5) (NewMaybeRelocatableFelt 0)
                               (NewMaybeRelocatableFelt 3) None) H) as (_ & _ & _ & Hf & _).
    rewrite (Hf 3); [reflexivity|discriminate|reflexivity|..]; vm_compute; congruence.
Defined.

(** C3 (amended).  After a successful [Initialize], ap and fp are one
    address of the execution segment, and ap keeps the execution segment's
    index in every state that steps reach from there.  fp keeps its segment
    index under the updates REGULAR, AP_PLUS_2 and DST with a felt dst; the
    update DST with a relocatable dst makes fp that dst, whatever its
    segment is; so a step changes fp's segment index only when the
    instruction at pc has the update DST (a return). *)
Theorem registers_segment_index :
  (forall r r' end_,
      Initialize r = (r', end_, None) ->
      vm.Ap (vm.RunCtx (Vm r')) = vm.Fp (vm.RunCtx (Vm r')) /\
      SegmentIndex (vm.Ap (vm.RunCtx (Vm r'))) = SegmentIndex (executionBase r')) /\
  (forall r r' end_ v,
      Initialize r = (r', end_, None) ->
      spec.reachable (Vm r') v ->
      SegmentIndex (vm.Ap (vm.RunCtx v)) = SegmentIndex (executionBase r')) /\
  (forall v i ops,
      match vm.FpUpdate_ i, vm.Dst ops with
      | vm.FpUpdateDst, NewMaybeRelocatableRelocatable rel =>
          vm.UpdateFp v i ops = (vm.set_RunCtx v (vm.set_Fp (vm.RunCtx v) rel), None)
      | _, _ =>
          SegmentIndex (vm.Fp (vm.RunCtx (fst (vm.UpdateFp v i ops))))
          = SegmentIndex (vm.Fp (vm.RunCtx v))
      end) /\
  (forall v,
      SegmentIndex (vm.Fp (vm.RunCtx (fst (vm.Step v)))) = SegmentIndex (vm.Fp (vm.RunCtx v)) \/
      exists e i,
        Get (Mem (vm.Segments v)) (vm.Pc (vm.RunCtx v)) = Ok (NewMaybeRelocatableFelt e) /\
        vm.DecodeInstruction e = Ok i /\ vm.FpUpdate_ i = vm.FpUpdateDst).
Proof.
  split; [|split; [|split]].
  - intros r r' end_ H. exact (Initialize_registers r r' end_ H).
  - intros r r' end_ v Hinit Hreach.
    destruct (Initialize_registers r r' end_ Hinit) as [_ Hseg].
    induction Hreach as [|v Hreach IH]; [exact Hseg|].
    destruct (Step_registers v) as [Hap _]. cbn zeta in Hap. congruence.
  - intros v i ops.
    pose proof (UpdateFp_registers v i ops) as (_ & _ & H).
    destruct (vm.FpUpdate_ i) eqn:Hupd, (vm.Dst ops) eqn:Hdst; try exact H.
    unfold vm.UpdateFp. rewrite Hupd, Hdst. reflexivity.
  - intros v. exact (proj1 (proj2 (Step_registers v))).
Qed.

(** Counterexample to C3 as stated: the program that returns at once, no
    builtins.  After [Initialize], ap = fp = 1:2 and the stack holds the
    return fp 2:0 and the end 3:0.  The single step, a return, succeeds and
    leaves ap in the execution segment 1 and fp at 2:0, in segment 2. *)
Lemma registers_segment_index_counterexample :
  let r := examples.ret_runner in
  let v := fst (vm.Step (Vm r)) in
  snd (Initialize (NewCairoRunner examples.ret_program 0 [] false)) = None /\
  vm.RunCtx (Vm r)
  = vm.mkRunContext (NewRelocatable 0 0) (NewRelocatable 1 2) (NewRelocatable 1 2) /\
  SegmentIndex (executionBase r) = 1 /\
  snd (vm.Step (Vm r)) = None /\
  vm.RunCtx v
  = vm.mkRunContext (NewRelocatable 3 0) (NewRelocatable 1 2) (NewRelocatable 2 0) /\
  SegmentIndex (vm.Fp (vm.RunCtx v)) <> SegmentIndex (vm.Ap (vm.RunCtx v)).
Proof. vm_compute. repeat split; congruence. Qed.

(** ** Pedersen deduction *)

Section PedersenDeduction.

Import builtins.Pedersen.

Variable PedersenHash : Z -> Z -> Z.

(** Marking an address that is not verified yet: the slice is grown when it
    is too short and the flag of the address is set. *)
Lemma ResizeVerifiedAddresses_marks (p : PedersenBuiltinRunner) (address : Relocatable) :
  0 <= Offset address < 2 ^ 63 ->
  CheckVerifiedAddresses p address = Ok false ->
  exists p',
    ResizeVerifiedAddresses p address = Ok p' /\
    CheckVerifiedAddresses p' address = Ok true /\
    base p' = base p /\ included p' = included p.
Proof.
  intros Ho Hcheck.
  unfold CheckVerifiedAddresses in Hcheck. unfold ResizeVerifiedAddresses.
  rewrite to_int_small in * by exact Ho.
  set (len := Z.of_nat (length (verified_addresses p))) in *.
  set (grown := if 0 <? Offset address - len
                then verified_addresses p
                     ++ replicate (Z.to_nat (Offset address - len + 1)) false
                else verified_addresses p).
  assert (Hlong : Offset address < Z.of_nat (length grown)).
  { subst grown. destruct (Z.ltb_spec 0 (Offset address - len)) as [Hgrow|Hkeep].
    - rewrite length_app, length_replicate. fold len. lia.
    - destruct (Z.ltb_spec len (Offset address)) as [Hlt|_]; [lia|].
      destruct (verified_addresses p !! Z.to_nat (Offset address)) eqn:Hlook;
        [|discriminate].
      apply lookup_lt_Some in Hlook. lia. }
  destruct (Z.leb_spec (Z.of_nat (length grown)) (Offset address)) as [Hle|_]; [lia|].
  eexists. split; [reflexivity|]. split; [|split; reflexivity].
  unfold CheckVerifiedAddresses. cbn [verified_addresses set_verified].
  rewrite to_int_small by exact Ho. rewrite length_insert.
  destruct (Z.ltb_spec (Z.of_nat (length grown)) (Offset address)) as [Hlt|_]; [lia|].
  rewrite list_lookup_insert_eq by lia. reflexivity.
Qed.

(** C4 (amended).  For an output cell (offset mod 3 = 2) that is not
    verified yet and whose two input felts a (at offset - 1) and b (at
    offset - 2) are in memory, the first request returns the hash of b and
    a and marks the address as verified; every later request at that
    address, on any memory, deduces nothing (nil) and leaves the runner
    unchanged: the hash is computed at most once, and the value is not
    returned a second time. *)
Theorem Pedersen_deduce_once (p : PedersenBuiltinRunner) (address : Relocatable)
        (mem : Memory) (a b : Z) :
  Offset address mod 3 = 2 ->
  0 <= Offset address < 2 ^ 63 ->
  CheckVerifiedAddresses p address = Ok false ->
  MemGetFelt mem (NewRelocatable (SegmentIndex address) (Offset address - 1)) = Ok a ->
  MemGetFelt mem (NewRelocatable (SegmentIndex address) (Offset address - 2)) = Ok b ->
  exists p',
    DeduceMemoryCell PedersenHash p address mem
    = (p', Ok (Some (NewMaybeRelocatableFelt (PedersenHash b a)))) /\
    CheckVerifiedAddresses p' address = Ok true /\
    (forall mem', DeduceMemoryCell PedersenHash p' address mem' = (p', Ok None)).
Proof.
  intros Hmod Ho Hcheck Ha Hb.
  assert (Hge : 2 <= Offset address).
  { pose proof (Z.mod_le (Offset address) 3 ltac:(lia) ltac:(lia)). lia. }
  destruct (ResizeVerifiedAddresses_marks p address Ho Hcheck)
    as (p' & Hresize & Hcheck' & _).
  exists p'. split; [|split; [exact Hcheck'|]].
  - unfold DeduceMemoryCell.
    change PEDERSEN_CELLS_PER_INSTANCE with 3.
    change PEDERSEN_INPUT_CELLS_PER_INSTANCE with 2.
    rewrite Hmod. cbn [Z.eqb Pos.eqb negb]. rewrite Hcheck.
    rewrite !wrap64_small by lia. rewrite Ha, Hb, Hresize. reflexivity.
  - intros mem'. unfold DeduceMemoryCell.
    change PEDERSEN_CELLS_PER_INSTANCE with 3.
    change PEDERSEN_INPUT_CELLS_PER_INSTANCE with 2.
    rewrite Hmod. cbn [Z.eqb Pos.eqb negb]. rewrite Hcheck'. reflexivity.
Qed.

End PedersenDeduction.

(** Witness of [Pedersen_deduce_once]: the cell 0:2 of
    [examples.pedersen_memory], whose inputs are 1 and 2, with addition in the place of the hash. *)
Lemma Pedersen_deduce_once_witness :
  let p := examples.pedersen_runner in
  let address := NewRelocatable 0 2 in
  let mem := examples.pedersen_memory in
  (Offset address mod 3 = 2 /\ 0 <= Offset address < 2 ^ 63 /\
   builtins.Pedersen.CheckVerifiedAddresses p address = Ok false /\
   MemGetFelt mem (NewRelocatable 0 1) = Ok 2 /\
   MemGetFelt mem (NewRelocatable 0 0) = Ok 1) /\
  exists p',
    builtins.Pedersen.DeduceMemoryCell Z.add p address mem
    = (p', Ok (Some (NewMaybeRelocatableFelt (1 + 2)))) /\
    builtins.Pedersen.CheckVerifiedAddresses p' address = Ok true /\
    (forall mem', builtins.Pedersen.DeduceMemoryCell Z.add p' address mem' = (p', Ok None)).
Proof.
  assert (H : Offset (NewRelocatable 0 2) mod 3 = 2 /\
              0 <= Offset (NewRelocatable 0 2) < 2 ^ 63 /\
              builtins.Pedersen.CheckVerifiedAddresses examples.pedersen_runner
                (NewRelocatable 0 2) = Ok false /\
              MemGetFelt examples.pedersen_memory (NewRelocatable 0 1) = Ok 2 /\
              MemGetFelt examples.pedersen_memory (NewRelocatable 0 0) = Ok 1).
  { repeat split; vm_compute; congruence. }
  split; [exact H|].
  destruct H as (H1 & H2 & H3 & H4 & H5).
  exact (Pedersen_deduce_once Z.add examples.pedersen_runner (NewRelocatable 0 2)
           examples.pedersen_memory 2 1 H1 H2 H3 H4 H5).
Defined.

(** Counterexample to C4 as stated: whatever the hash is, the second request
    at 0:2 does not return what the first one returned; it returns nil. *)
Lemma Pedersen_deduce_once_counterexample :
  ~ (forall hash : Z -> Z -> Z,
       let first := builtins.Pedersen.DeduceMemoryCell
                      hash examples.pedersen_runner (NewRelocatable 0 2)
                      examples.pedersen_memory in
       snd (builtins.Pedersen.DeduceMemoryCell hash (fst first) (NewRelocatable 0 2)
                                               examples.pedersen_memory)
       = snd first).
Proof.
  intros H. specialize (H Z.add). vm_compute in H. discriminate H.
Qed.

(** ** End of run in proof mode *)

Lemma NextPowOf2_bounds (c : Z) :
  0 <= c < 2 ^ 62 -> c <= 2 ^ Z.log2_up c <= 2 ^ 62.
Proof.
  intros Hc. split.
  - destruct (Z.le_gt_cases c 1) as [Hle|Hgt].
    + pose proof (Z.pow_pos_nonneg 2 (Z.log2_up c) ltac:(lia) (Z.log2_up_nonneg c)). lia.
    + apply Z.log2_up_spec. exact Hgt.
  - apply Z.pow_le_mono_r; [lia|].
    destruct (Z.le_gt_cases c 0) as [Hle|Hgt].
    + rewrite Z.log2_up_nonpos by exact Hle. lia.
    + apply Z.log2_up_le_pow2; lia.
Qed.

Section RunProperties.

Context {T : vm.HintTypes}.
Variable hintProcessor : vm.HintProcessor T.

(** Reading and writing through the pointer. *)
Lemma machine_set_machine (s : RunState T) (v : vm.VirtualMachine) :
  machine (set_machine s v) = v.
Proof. unfold machine, set_machine. destruct (VmPtr s); reflexivity. Qed.

Lemma machine_set_execScopes (s : RunState T) (scopes : vm.ExecutionScopes T) :
  machine (set_execScopes s scopes) = machine s.
Proof. reflexivity. Qed.

Lemma set_machine_frame (s : RunState T) (v : vm.VirtualMachine) :
  spec.run_frame s (set_machine s v) /\
  RunEnded (Runner (set_machine s v)) = RunEnded (Runner s) /\
  HintState (set_machine s v) = HintState s.
Proof.
  unfold spec.run_frame, set_machine.
  destruct (VmPtr s) as [|v0] eqn:Hptr; cbn; repeat split; try congruence; eauto.
Qed.

Lemma run_frame_refl (s : RunState T) : spec.run_frame s s.
Proof. unfold spec.run_frame. repeat split; eauto. Qed.

Lemma run_frame_trans (s1 s2 s3 : RunState T) :
  spec.run_frame s1 s2 -> spec.run_frame s2 s3 -> spec.run_frame s1 s3.
Proof.
  intros (A1 & A2 & A3 & A4) (B1 & B2 & B3 & B4). unfold spec.run_frame.
  split; [auto|]. split; [|split; congruence].
  intros v Hv. destruct (A2 v Hv) as [Hvm [v' Hv']].
  destruct (B2 v' Hv') as [Hvm' Hptr]. split; [congruence|exact Hptr].
Qed.

(** A step changes the machine behind the pointer and the execution
    scopes, nothing else. *)
Lemma step_machine_frame (hintDataMap : gmap Z (list (vm.HintData T))) (s : RunState T) :
  let s' := fst (step_machine hintProcessor hintDataMap s) in
  spec.run_frame s s' /\ RunEnded (Runner s') = RunEnded (Runner s) /\
  Hints (HintState s') = Hints (HintState s) /\
  ReferenceManager_ (HintState s') = ReferenceManager_ (HintState s) /\
  ExtractConstants (HintState s') = ExtractConstants (HintState s).
Proof.
  unfold step_machine.
  destruct (vm.StepHints _ _ _ _ _) as [[v scopes] err]. cbn [fst].
  destruct (set_machine_frame s v) as (Hframe & Hended & Hhints).
  unfold set_execScopes. cbn [Runner HintState VmPtr Hints ReferenceManager_ ExtractConstants].
  rewrite Hhints. destruct Hframe as (F1 & F2 & F3 & F4).
  unfold spec.run_frame. cbn [Runner HintState VmPtr]. auto 10.
Qed.

(** The hint data map does not depend on what a step changes. *)
Lemma BuildHintDataMap_step (hintDataMap : gmap Z (list (vm.HintData T))) (s : RunState T) :
  BuildHintDataMap hintProcessor (HintState (fst (step_machine hintProcessor hintDataMap s)))
  = BuildHintDataMap hintProcessor (HintState s).
Proof.
  destruct (step_machine_frame hintDataMap s) as (_ & _ & Hh & Hr & _).
  unfold BuildHintDataMap. cbn zeta in *. rewrite Hh, Hr. reflexivity.
Qed.

Section StepCounter.

Hypothesis Hkeep : spec.hints_keep_steps hintProcessor.

Lemma execute_hints_counter (hintDatas : list (vm.HintData T)) (constants : vm.Constants T) :
  forall v scopes,
    vm.CurrentStep (fst (fst (vm.execute_hints hintProcessor hintDatas constants v scopes)))
    = vm.CurrentStep v.
Proof.
  induction hintDatas as [|d rest IH]; intros v scopes; cbn [vm.execute_hints]; [reflexivity|].
  pose proof (Hkeep v d constants scopes) as Hd.
  destruct (vm.ExecuteHint hintProcessor v d constants scopes) as [[v1 sc1] [e|]];
    cbn [fst] in *; [exact Hd|]. rewrite IH. exact Hd.
Qed.

(** A step with hints that returns no error adds one to the step counter. *)
Lemma step_machine_counter (hintDataMap : gmap Z (list (vm.HintData T))) (s s' : RunState T) :
  step_machine hintProcessor hintDataMap s = (s', None) ->
  vm.CurrentStep (machine s') = wrap64 (vm.CurrentStep (machine s) + 1).
Proof.
  unfold step_machine, vm.StepHints.
  assert (Hhints : forall r,
            r = match hintDataMap !! Offset (vm.Pc (vm.RunCtx (machine s))) with
                | Some hintDatas =>
                    vm.execute_hints hintProcessor hintDatas (ExtractConstants (HintState s))
                                     (machine s) (execScopes (HintState s))
                | None => (machine s, execScopes (HintState s), None)
                end ->
            vm.CurrentStep (fst (fst r)) = vm.CurrentStep (machine s)).
  { intros r ->. destruct (hintDataMap !! _); [apply execute_hints_counter|reflexivity]. }
  specialize (Hhints _ eq_refl).
  destruct (match hintDataMap !! _ with Some _ => _ | None => _ end) as [[v1 sc1] [e|]];
    cbn [fst] in Hhints; [discriminate|].
  destruct (Step_registers v1) as (_ & _ & Hstep).
  destruct (vm.Step v1) as [v2 err]. cbn [fst snd] in Hstep.
  intros [= <- ->]. rewrite machine_set_execScopes, machine_set_machine.
  rewrite (Hstep eq_refl), Hhints. reflexivity.
Qed.

(** A run of n steps that succeeds adds n to the step counter. *)
Lemma RunForSteps_loop_counter (n : nat) (hintDataMap : gmap Z (list (vm.HintData T))) :
  forall s s',
    RunForSteps_loop hintProcessor n hintDataMap s = (s', None) ->
    0 <= vm.CurrentStep (machine s) -> vm.CurrentStep (machine s) + Z.of_nat n < 2 ^ 64 ->
    vm.CurrentStep (machine s') = vm.CurrentStep (machine s) + Z.of_nat n.
Proof.
  induction n as [|n IH]; intros s s' Hrun H0 Hlt; cbn [RunForSteps_loop] in Hrun.
  - injection Hrun as <-. lia.
  - destruct (bool_decide _); [discriminate|].
    destruct (step_machine hintProcessor hintDataMap s) as [s1 [e|]] eqn:Hstep;
      [discriminate|].
    apply step_machine_counter in Hstep. rewrite wrap64_small in Hstep by lia.
    rewrite (IH s1 s' Hrun) by lia. lia.
Qed.

(** Padding reaches the next power of two. *)
Lemma RunUntilNextPowerOfTwo_reaches (s s' : RunState T) :
  0 <= vm.CurrentStep (machine s) < 2 ^ 62 ->
  RunUntilNextPowerOfTwo hintProcessor s = (s', None) ->
  vm.CurrentStep (machine s') = 2 ^ Z.log2_up (vm.CurrentStep (machine s)).
Proof.
  intros Hc Hrun. pose proof (NextPowOf2_bounds _ Hc) as Hb.
  unfold RunUntilNextPowerOfTwo, RunUntilSteps, RunForSteps, NextPowOf2 in Hrun.
  destruct (BuildHintDataMap hintProcessor (HintState s)) as [hintDataMap|e];
    [|discriminate].
  assert (H62 : 2 ^ 62 < 2 ^ 63) by reflexivity.
  assert (H63 : 2 ^ 63 < 2 ^ 64) by reflexivity.
  rewrite (wrap64_small (2 ^ _)) in Hrun by lia.
  rewrite wrap64_small, to_int_small in Hrun by lia.
  apply RunForSteps_loop_counter in Hrun; [|lia|rewrite Z2Nat.id; lia].
  rewrite Z2Nat.id in Hrun by lia. lia.
Qed.

End StepCounter.

Variable vmEndRun : vm.VirtualMachine -> vm.VirtualMachine * option Error.
Variable ComputeEffectiveSizes : MemorySegmentManager -> MemorySegmentManager.
Variable CheckUsedCells : CairoRunner -> vm.VirtualMachine -> option Error.

(** The padding loop computes the padding of the specification. *)
Lemma padding_loop_sound (fuel : nat) :
  forall s res,
    padding_loop hintProcessor CheckUsedCells fuel s = Some res ->
    spec.padding hintProcessor CheckUsedCells s res.
Proof.
  induction fuel as [|fuel IH]; intros s res Hloop; cbn [padding_loop] in Hloop;
    [discriminate|].
  destruct (bool_decide _) eqn:Hins.
  - apply bool_decide_eq_true in Hins.
    destruct (RunForSteps hintProcessor s 1) as [s1 [e|]] eqn:Hstep.
    + injection Hloop as <-. eapply spec.padding_step_error; eassumption.
    + destruct (RunUntilNextPowerOfTwo hintProcessor s1) as [s2 [e|]] eqn:Hpad.
      * injection Hloop as <-. eapply spec.padding_pad_error; eassumption.
      * eapply spec.padding_again; eauto.
  - apply bool_decide_eq_false in Hins.
    destruct (CheckUsedCells (Runner s) (machine s)) as [e|] eqn:Hc; injection Hloop as <-.
    + apply spec.padding_check_error; assumption.
    + apply spec.padding_done; assumption.
Qed.

Lemma padding_loop_complete (s : RunState T) (res : RunState T * option Error) :
  spec.padding hintProcessor CheckUsedCells s res ->
  exists fuel, padding_loop hintProcessor CheckUsedCells fuel s = Some res.
Proof.
  induction 1 as [s Hc|s e Hc Hne|s s1 e Hc Hstep|s s1 s2 e Hc Hstep Hpad
                  |s s1 s2 res Hc Hstep Hpad Hrest [fuel IH]].
  - exists 1%nat. cbn [padding_loop]. rewrite Hc.
    rewrite bool_decide_eq_false_2 by discriminate. reflexivity.
  - exists 1%nat. cbn [padding_loop]. rewrite Hc.
    rewrite bool_decide_eq_false_2 by exact Hne. reflexivity.
  - exists 1%nat. cbn [padding_loop].
    rewrite bool_decide_eq_true_2 by exact Hc. rewrite Hstep. reflexivity.
  - exists 1%nat. cbn [padding_loop].
    rewrite bool_decide_eq_true_2 by exact Hc. rewrite Hstep, Hpad. reflexivity.
  - exists (S fuel). cbn [padding_loop].
    rewrite bool_decide_eq_true_2 by exact Hc. rewrite Hstep, Hpad. exact IH.
Qed.

(** When the padding ends without error the accounting check passed on
    the state it ends in. *)
Lemma padding_success (s : RunState T) (res : RunState T * option Error) :
  spec.padding hintProcessor CheckUsedCells s res ->
  snd res = None -> CheckUsedCells (Runner (fst res)) (machine (fst res)) = None.
Proof.
  induction 1; cbn [fst snd]; intros Hnone; try discriminate; auto.
Qed.

(** With an accounting check that always reports insufficient cells the
    padding never ends without error. *)
Lemma padding_insufficient (s : RunState T) (res : RunState T * option Error) :
  (forall r v, Unwrap (CheckUsedCells r v) = Some ErrInsufficientAllocatedCells) ->
  spec.padding hintProcessor CheckUsedCells s res -> snd res <> None.
Proof.
  intros Hall. induction 1 as [s Hc| | | |]; cbn [snd]; try discriminate; auto.
  specialize (Hall (Runner s) (machine s)). rewrite Hc in Hall. discriminate.
Qed.

(** C8 (amended).  In proof mode, when the run has not ended yet,
    [vm.EndRun] succeeds and neither the finalization nor the trace padding
    is disabled: [EndRun] computes the effective sizes, pads the run to the
    next power of two and then verifies the accounting; whenever the check
    fails with an error that wraps [InsufficientAllocatedCells] it runs one
    more step, pads to the next power of two again and repeats.  That is
    the only error recovered: [EndRun] returns any other error of the
    accounting and any error of [RunForSteps] (of a step, of a hint, or of
    compiling the hints) as it is.  It marks the run as ended when it
    returns no error, and then the accounting was verified on the final
    state.  When the hints leave the step counter alone, padding moves the
    step counter to the next power of two. *)
Theorem EndRun_proof_mode (s : RunState T) (v0 : vm.VirtualMachine) :
  ProofMode (Runner s) = true ->
  RunEnded (Runner s) = false ->
  vmEndRun (machine s) = (v0, None) ->
  (forall res,
      (exists fuel,
          EndRun hintProcessor vmEndRun ComputeEffectiveSizes CheckUsedCells fuel s false false
          = Some res) <->
      spec.end_run_proof_mode hintProcessor ComputeEffectiveSizes CheckUsedCells
                              (set_machine s v0) res) /\
  (forall fuel s',
      EndRun hintProcessor vmEndRun ComputeEffectiveSizes CheckUsedCells fuel s false false
      = Some (s', None) ->
      RunEnded (Runner s') = true /\
      exists s1, s' = set_ended s1 /\ CheckUsedCells (Runner s1) (machine s1) = None) /\
  (spec.hints_keep_steps hintProcessor ->
   forall u u',
      0 <= vm.CurrentStep (machine u) < 2 ^ 62 ->
      RunUntilNextPowerOfTwo hintProcessor u = (u', None) ->
      vm.CurrentStep (machine u') = 2 ^ Z.log2_up (vm.CurrentStep (machine u))).
Proof.
  intros Hmode Hended Hend.
  set (s1 := set_machine (set_machine s v0)
               (vm.set_Segments (machine (set_machine s v0))
                  (ComputeEffectiveSizes (vm.Segments (machine (set_machine s v0)))))).
  assert (Hmode1 : ProofMode (Runner s1) = true).
  { unfold s1. destruct (set_machine_frame (set_machine s v0)
                           (vm.set_Segments (machine (set_machine s v0))
                              (ComputeEffectiveSizes
                                 (vm.Segments (machine (set_machine s v0))))))
      as ((_ & _ & Hm & _) & _).
    destruct (set_machine_frame s v0) as ((_ & _ & Hm0 & _) & _). congruence. }
  assert (Hrun : forall fuel,
             EndRun hintProcessor vmEndRun ComputeEffectiveSizes CheckUsedCells fuel s
                    false false
             = match RunUntilNextPowerOfTwo hintProcessor s1 with
               | (s2, Some e) => Some (s2, Some e)
               | (s2, None) =>
                   match padding_loop hintProcessor CheckUsedCells fuel s2 with
                   | None => None
                   | Some (s3, Some e) => Some (s3, Some e)
                   | Some (s3, None) => Some (set_ended s3, None)
                   end
               end).
  { intros fuel. unfold EndRun. rewrite Hended, Hend. cbv zeta. fold s1.
    rewrite Hmode1. reflexivity. }
  assert (Hspec_eq : forall res,
             spec.end_run_proof_mode hintProcessor ComputeEffectiveSizes CheckUsedCells
                                     (set_machine s v0) res
             = match RunUntilNextPowerOfTwo hintProcessor s1 with
               | (s2, Some e) => res = (s2, Some e)
               | (s2, None) =>
                   exists s3 err,
                     spec.padding hintProcessor CheckUsedCells s2 (s3, err) /\
                     res = (match err with
                            | None => set_ended s3
                            | Some _ => s3
                            end, err)
               end) by reflexivity.
  split; [|split].
  - intros res. rewrite Hspec_eq. split.
    + intros [fuel Hres]. rewrite Hrun in Hres.
      destruct (RunUntilNextPowerOfTwo hintProcessor s1) as [s2 [e|]].
      * congruence.
      * destruct (padding_loop hintProcessor CheckUsedCells fuel s2) as [[s3 err]|] eqn:Hloop;
          [|discriminate].
        exists s3, err. split; [exact (padding_loop_sound _ _ _ Hloop)|].
        destruct err; congruence.
    + destruct (RunUntilNextPowerOfTwo hintProcessor s1) as [s2 [e|]]; intros Hspec.
      * exists 0%nat. rewrite Hrun. congruence.
      * destruct Hspec as (s3 & err & Hpadding & ->).
        destruct (padding_loop_complete _ _ Hpadding) as [fuel Hloop].
        exists fuel. rewrite Hrun, Hloop. destruct err; reflexivity.
  - intros fuel s' Hres. rewrite Hrun in Hres.
    destruct (RunUntilNextPowerOfTwo hintProcessor s1) as [s2 [e|]]; [discriminate|].
    destruct (padding_loop hintProcessor CheckUsedCells fuel s2) as [[s3 [e|]]|] eqn:Hloop;
      try discriminate.
    injection Hres as <-. split; [reflexivity|]. exists s3. split; [reflexivity|].
    exact (padding_success _ _ (padding_loop_sound _ _ _ Hloop) eq_refl).
  - intros Hkeep u u'. apply RunUntilNextPowerOfTwo_reaches. exact Hkeep.
Qed.

End RunProperties.

(** Witness of [EndRun_proof_mode]: the proof-mode runner of the endless
    loop, passed with its own machine, and an accounting check that
    reports insufficient cells below four steps.  [EndRun] pads from step
    0 to step 1; the check fails, one step and the padding lead to step 2;
    the check fails again, one step and the padding lead to step 4, where
    the check passes.  The runner's own machine has run the four steps. *)
Lemma EndRun_proof_mode_witness :
  let s := examples.loop_state in
  let run := EndRun examples.no_hint_processor examples.end_run_ok examples.sizes_unchanged
                    examples.check_four_steps in
  (ProofMode (Runner s) = true /\ RunEnded (Runner s) = false /\
   examples.end_run_ok (machine s) = (machine s, None) /\
   examples.check_four_steps (Runner s) (machine s)
   = Some (ErrWrap ErrInsufficientAllocatedCells)) /\
  (exists fuel s',
      run fuel s false false = Some (s', None) /\
      vm.CurrentStep (machine s') = 4 /\
      length (vm.Trace (Vm (Runner s'))) = 4%nat /\
      RunEnded (Runner s') = true /\
      examples.check_four_steps (Runner s') (machine s') = None).
Proof.
  intros s run.
  assert (H : ProofMode (Runner s) = true /\ RunEnded (Runner s) = false /\
              examples.end_run_ok (machine s) = (machine s, None) /\
              examples.check_four_steps (Runner s) (machine s)
              = Some (ErrWrap ErrInsufficientAllocatedCells)).
  { repeat split. }
  split; [exact H|].
  destruct H as (H1 & H2 & H3 & _).
  pose (hp := examples.no_hint_processor).
  pose (s2 := fst (RunUntilNextPowerOfTwo hp s)).
  pose (s3 := fst (RunForSteps hp s2 1)).
  pose (s4 := fst (RunUntilNextPowerOfTwo hp s3)).
  pose (s5 := fst (RunForSteps hp s4 1)).
  pose (s6 := fst (RunUntilNextPowerOfTwo hp s5)).
  assert (Hpad : spec.padding hp examples.check_four_steps s2 (s6, None)).
  { apply (spec.padding_again hp examples.check_four_steps s2 s3 s4);
      [vm_compute; reflexivity|vm_compute; reflexivity|vm_compute; reflexivity|].
    apply (spec.padding_again hp examples.check_four_steps s4 s5 s6);
      [vm_compute; reflexivity|vm_compute; reflexivity|vm_compute; reflexivity|].
    apply spec.padding_done. vm_compute. reflexivity. }
  destruct (proj1 (EndRun_proof_mode hp examples.end_run_ok examples.sizes_unchanged
                     examples.check_four_steps s (machine s) H1 H2 H3)
                  (set_ended s6, None)) as [_ Hexists].
  destruct Hexists as [fuel Hfuel].
  { unfold spec.end_run_proof_mode. cbv zeta.
    replace (RunUntilNextPowerOfTwo hp _) with (s2, @None Error) by (vm_compute; reflexivity).
    exists s6, None. split; [exact Hpad|reflexivity]. }
  exists fuel, (set_ended s6). split; [exact Hfuel|].
  repeat split; vm_compute; reflexivity.
Defined.

(** Counterexample to C8 as stated: the same runner in proof mode, with an
    accounting check that always reports insufficient allocated cells.
    With the trace padding disabled, [EndRun] executes no step (the step
    counter stays 0, which is not a power of two), never consults the
    accounting and ends the run without error. *)
Lemma EndRun_proof_mode_counterexample :
  let s := examples.loop_state in
  let hp := examples.no_hint_processor in
  ProofMode (Runner s) = true /\
  vm.CurrentStep (machine s) = 0 /\
  examples.check_insufficient (Runner s) (machine s)
  = Some (ErrWrap ErrInsufficientAllocatedCells) /\
  EndRun hp examples.end_run_ok examples.sizes_unchanged examples.check_insufficient
         0 s true false
  = Some (set_ended s, None) /\
  vm.CurrentStep (machine (set_ended s)) = 0 /\
  ~ spec.end_run_proof_mode hp examples.sizes_unchanged examples.check_insufficient s
      (set_ended s, None).
Proof.
  intros s hp. repeat split.
  unfold spec.end_run_proof_mode. cbv zeta.
  destruct (RunUntilNextPowerOfTwo hp _) as [s2 [e|]]; [discriminate|].
  intros (s3 & err & Hpad & Heq).
  apply (padding_insufficient hp examples.check_insufficient s2 (s3, err)) in Hpad;
    [|reflexivity].
  destruct err; [discriminate|]. apply Hpad. reflexivity.
Qed.

(** ** Scenarios of the specification, run on the embedding *)

(** Add-immediate: with main at offset 0 and ap at 1:2, one step writes 2 at
    1:2, moves ap to 1:3 and advances pc by 2. *)
Example scenario_add_immediate :
  let r := fst (fst (Initialize (NewCairoRunner examples.add_immediate_program 0 [] false))) in
  let v := fst (vm.Step (Vm r)) in
  vm.Ap (vm.RunCtx (Vm r)) = NewRelocatable 1 2 /\
  snd (vm.Step (Vm r)) = None /\
  data (Mem (vm.Segments v)) !! NewRelocatable 1 2 = Some (NewMaybeRelocatableFelt 2) /\
  vm.Ap (vm.RunCtx v) = NewRelocatable 1 3 /\
  vm.Pc (vm.RunCtx v) = NewRelocatable 0 2.
Proof. vm_compute. repeat split; reflexivity. Qed.

(** Range-check rejection: inserting -1 into the range-check segment fails
    with [OutsideBounds] at insert time. *)
Example scenario_range_check_rejection :
  snd (Insert examples.rc_memory (NewRelocatable 0 0) examples.minus_one)
  = Some (OutsideBoundsError (lambdaworks.CAIRO_PRIME - 1)).
Proof. vm_compute. reflexivity. Qed.

(** Write-once violation: of two distinct inserts at one address the second
    fails; the identical re-insert succeeds. *)
Example scenario_write_once :
  let m := examples.memory_seven in
  snd (Insert m (NewRelocatable 0 0) (NewMaybeRelocatableFelt 8)) = Some ErrWriteOnce /\
  snd (Insert m (NewRelocatable 0 0) (NewMaybeRelocatableFelt 7)) = None.
Proof. vm_compute. split; reflexivity. Qed.

(** * Further properties of the code *)

(** ** Memory: what an insertion may change *)

Lemma validateAddress_frame (m : Memory) (addr : Relocatable) :
  let m' := fst (validateAddress m addr) in
  data m' = data m /\ num_segments m' = num_segments m /\
  validation_rules m' = validation_rules m /\
  validated_addresses m ⊆ validated_addresses m' /\
  (snd (validateAddress m addr) <> None -> m' = m).
Proof.
  unfold validateAddress.
  destruct (_ || _); [cbn; repeat split; try reflexivity; congruence|].
  destruct (validation_rules m !! _) as [rule|];
    [|cbn; repeat split; try reflexivity; congruence].
  destruct (rule (data m) addr) as [validated|e]; cbn.
  - repeat split; try reflexivity; try congruence. apply union_subseteq_r.
  - repeat split; reflexivity.
Qed.

(** The effect of an insertion on each field of the memory. *)
Lemma Insert_effect (m : Memory) (addr : Relocatable) (val : MaybeRelocatable) :
  let m' := fst (Insert m addr val) in
  (forall a v, data m !! a = Some v -> data m' !! a = Some v) /\
  (forall a, a <> addr -> data m' !! a = data m !! a) /\
  num_segments m' = num_segments m /\
  validation_rules m' = validation_rules m /\
  validated_addresses m ⊆ validated_addresses m' /\
  (snd (Insert m addr val) = None -> Get m' addr = Ok val) /\
  (forall e, snd (Insert m addr val) = Some e ->
             e <> ErrUnallocatedSegment -> e <> ErrWriteOnce ->
             Get m' addr = Ok val).
Proof.
  unfold Insert.
  destruct (Z.leb_spec (to_int (num_segments m)) (SegmentIndex addr)) as [Hun|Hal].
  { cbn. repeat split; try reflexivity; try discriminate; auto.
    intros e [= <-] Hne. contradiction. }
  assert (Hwritten :
            forall prev, data m !! addr = prev -> (prev = None \/ prev = Some val) ->
            let m' := fst (validateAddress (set_data m (<[addr := val]> (data m))) addr) in
            (forall a v, data m !! a = Some v -> data m' !! a = Some v) /\
            (forall a, a <> addr -> data m' !! a = data m !! a) /\
            num_segments m' = num_segments m /\
            validation_rules m' = validation_rules m /\
            validated_addresses m ⊆ validated_addresses m' /\
            Get m' addr = Ok val).
  { intros prev Hprev Hcase.
    destruct (validateAddress_frame (set_data m (<[addr := val]> (data m))) addr)
      as (Hd & Hn & Hr & Hv & _).
    cbn zeta in *. unfold Get, GetData. rewrite Hd, Hn, Hr. cbn [data set_data].
    repeat split; try assumption; try reflexivity.
    - intros a v Ha. destruct (decide (a = addr)) as [->|Hne].
      + rewrite lookup_insert_eq. destruct Hcase as [-> | ->]; congruence.
      + rewrite lookup_insert_ne by congruence. exact Ha.
    - intros a Hne. apply lookup_insert_ne. congruence.
    - rewrite lookup_insert_eq. reflexivity. }
  destruct (data m !! addr) as [prev|] eqn:Hprev.
  - destruct (decide (prev = val)) as [->|Hne].
    + rewrite bool_decide_eq_true_2 by reflexivity. cbn [negb].
      destruct (Hwritten (Some val) eq_refl (or_intror eq_refl))
        as (H1 & H2 & H3 & H4 & H5 & H6).
      repeat split; auto.
    + rewrite bool_decide_eq_false_2 by exact Hne. cbn.
      repeat split; try reflexivity; try discriminate; auto.
      intros e [= <-] _ Hw. contradiction.
  - destruct (Hwritten None eq_refl (or_introl eq_refl)) as (H1 & H2 & H3 & H4 & H5 & H6).
    repeat split; auto.
Qed.

(** X1.  An insertion, whatever it returns, never changes or removes a
    cell that holds a value, never touches another address, the segment
    counter or the rules, and never forgets a validated address.  When it
    returns no error the value can be read back.  It can be read back as
    well when the error is the one of the validation rule: the write
    precedes the validation. *)
Theorem Insert_frame (m : Memory) (addr : Relocatable) (val : MaybeRelocatable) :
  let m' := fst (Insert m addr val) in
  (forall a v, Get m a = Ok v -> Get m' a = Ok v) /\
  (forall a, a <> addr -> Get m' a = Get m a) /\
  num_segments m' = num_segments m /\
  validation_rules m' = validation_rules m /\
  validated_addresses m ⊆ validated_addresses m' /\
  (snd (Insert m addr val) = None -> Get m' addr = Ok val) /\
  (forall e, snd (Insert m addr val) = Some e ->
             e <> ErrUnallocatedSegment -> e <> ErrWriteOnce ->
             Get m' addr = Ok val).
Proof.
  destruct (Insert_effect m addr val) as (Hkeep & Hother & Hn & Hr & Hv & Hok & Herr).
  cbn zeta in *. repeat split; try assumption.
  - intros a v. unfold Get, GetData.
    destruct (data m !! a) as [w|] eqn:Ha; [|discriminate].
    intros [= ->]. rewrite (Hkeep a v Ha). reflexivity.
  - intros a Hne. unfold Get, GetData. rewrite (Hother a Hne). reflexivity.
Qed.

(** ** Memory: validation of the cells already in memory *)

Lemma validate_all_spec (addrs : list Relocatable) :
  forall m : Memory,
    let r := validate_all m addrs in
    data (fst r) = data m /\ num_segments (fst r) = num_segments m /\
    validation_rules (fst r) = validation_rules m /\
    validated_addresses m ⊆ validated_addresses (fst r) /\
    ((forall addr, addr ∈ addrs ->
        match validation_rules m !! to_uint (SegmentIndex addr) with
        | Some rule => SegmentIndex addr < 0 \/ exists l, rule (data m) addr = Ok l
        | None => True
        end) -> snd r = None) /\
    (forall e, snd r = Some e ->
       exists addr rule, addr ∈ addrs /\
         validation_rules m !! to_uint (SegmentIndex addr) = Some rule /\
         rule (data m) addr = Err e).
Proof.
  induction addrs as [|addr rest IH]; intros m; cbn [validate_all].
  - cbn. repeat split; try reflexivity; discriminate.
  - destruct (validateAddress_frame m addr) as (Hd & Hn & Hr & Hv & _).
    destruct (validateAddress m addr) as [m1 [e|]] eqn:Hval; cbn [fst snd] in *.
    + repeat split; try assumption.
      * intros Hall. exfalso.
        specialize (Hall addr ltac:(left)).
        unfold validateAddress in Hval.
        destruct (Z.ltb_spec (SegmentIndex addr) 0) as [Hneg|Hpos]; [discriminate|].
        destruct (bool_decide _); [discriminate|]. cbn [orb] in Hval.
        destruct (validation_rules m !! _) as [rule|]; [|discriminate].
        destruct Hall as [Hneg|[l Hl]]; [lia|]. rewrite Hl in Hval. discriminate.
      * intros e' [= <-]. unfold validateAddress in Hval.
        destruct (_ || _); [discriminate|].
        destruct (validation_rules m !! _) as [rule|] eqn:Hrule; [|discriminate].
        destruct (rule (data m) addr) as [l|e''] eqn:Hres; [discriminate|].
        injection Hval as _ <-. exists addr, rule. split; [left|auto].
    + destruct (IH m1) as (Hd' & Hn' & Hr' & Hv' & Hok & Herr). cbn zeta in *.
      rewrite Hd', Hn', Hr', Hd, Hn, Hr. rewrite Hd, Hr in Hok, Herr.
      repeat split; try reflexivity.
      * etransitivity; eassumption.
      * intros Hall. apply Hok. intros a Ha. apply Hall. right. exact Ha.
      * intros e He. destruct (Herr e He) as (a & rule & Ha & Hrule & Hres).
        exists a, rule. split; [right; exact Ha|auto].
Qed.

(** X2.  [ValidateExistingMemory] never changes the data, the segment counter or
    the rules.  It returns no error when the rule of each cell's segment
    accepts the cell; an error it returns is the error of the rule of some
    cell that is in memory.  (Both hold for every order in which the cells
    are visited.) *)
Theorem ValidateExistingMemory_spec (m : Memory) :
  let r := ValidateExistingMemory m in
  data (fst r) = data m /\ num_segments (fst r) = num_segments m /\
  validation_rules (fst r) = validation_rules m /\
  ((forall addr val rule,
      data m !! addr = Some val ->
      validation_rules m !! to_uint (SegmentIndex addr) = Some rule ->
      SegmentIndex addr < 0 \/ exists l, rule (data m) addr = Ok l) ->
   snd r = None) /\
  (forall e, snd r = Some e ->
     exists addr val rule,
       data m !! addr = Some val /\
       validation_rules m !! to_uint (SegmentIndex addr) = Some rule /\
       rule (data m) addr = Err e).
Proof.
  unfold ValidateExistingMemory.
  destruct (validate_all_spec (fst <$> map_to_list (data m)) m)
    as (Hd & Hn & Hr & _ & Hok & Herr).
  assert (Hin : forall addr, addr ∈ (fst <$> map_to_list (data m)) ->
                             exists val, data m !! addr = Some val).
  { intros addr Ha. apply list_elem_of_fmap in Ha as [[a v] [-> Hav]].
    apply elem_of_map_to_list in Hav. exists v. exact Hav. }
  cbn zeta in *. repeat split; try assumption.
  - intros Hall. apply Hok. intros addr Ha. destruct (Hin addr Ha) as [val Hval].
    destruct (validation_rules m !! _) as [rule|] eqn:Hrule; [|exact I].
    exact (Hall addr val rule Hval Hrule).
  - intros e He. destruct (Herr e He) as (addr & rule & Ha & Hrule & Hres).
    destruct (Hin addr Ha) as [val Hval]. exists addr, val, rule. auto.
Qed.

(** ** Segments: loading data *)

Lemma LoadData_loop_keeps (l : list MaybeRelocatable) :
  forall (m : Memory) (ptr : Relocatable),
    let r := LoadData_loop m ptr l in
    (forall a v, data m !! a = Some v -> data (fst r) !! a = Some v) /\
    num_segments (fst r) = num_segments m /\
    validation_rules (fst r) = validation_rules m.
Proof.
  induction l as [|val rest IH]; intros m ptr; cbn [LoadData_loop].
  - cbn. auto.
  - destruct (Insert_effect m ptr val) as (Hkeep & _ & Hn & Hr & _).
    destruct (Insert m ptr val) as [m1 [e|]]; cbn [fst snd] in *.
    + auto.
    + destruct (IH m1 (NewRelocatable (SegmentIndex ptr) (wrap64 (Offset ptr + 1))))
        as (Hkeep' & Hn' & Hr').
      cbn zeta in *. rewrite Hn', Hr'. auto.
Qed.

(** Loading into cells that are free or hold the value to be written. *)
Lemma LoadData_loop_writes (l : list MaybeRelocatable) :
  forall (m : Memory) (ptr : Relocatable),
    validation_rules m !! to_uint (SegmentIndex ptr) = None ->
    SegmentIndex ptr < to_int (num_segments m) ->
    0 <= Offset ptr -> Offset ptr + Z.of_nat (length l) < 2 ^ 64 ->
    (forall i v, l !! i = Some v ->
       let a := NewRelocatable (SegmentIndex ptr) (Offset ptr + Z.of_nat i) in
       data m !! a = None \/ data m !! a = Some v) ->
    exists d,
      LoadData_loop m ptr l
      = (set_data m d,
         Ok (NewRelocatable (SegmentIndex ptr) (Offset ptr + Z.of_nat (length l)))) /\
      (forall i v, l !! i = Some v ->
                   d !! NewRelocatable (SegmentIndex ptr) (Offset ptr + Z.of_nat i) = Some v) /\
      (forall a, SegmentIndex a <> SegmentIndex ptr \/ Offset a < Offset ptr \/
                 Offset ptr + Z.of_nat (length l) <= Offset a ->
                 d !! a = data m !! a).
Proof.
  induction l as [|val rest IH]; intros m ptr Hrules Hseg Hoff Hlen Hfree.
  - exists (data m). cbn [LoadData_loop length]. rewrite set_data_same, Z.add_0_r.
    destruct ptr as [s o]. repeat split. intros i v Hi. destruct i; discriminate.
  - cbn [LoadData_loop]. cbn [length] in Hlen.
    assert (Hptr : NewRelocatable (SegmentIndex ptr) (Offset ptr + Z.of_nat 0) = ptr)
      by (destruct ptr; cbn; f_equal; lia).
    rewrite Insert_passes;
      [|exact Hseg|specialize (Hfree 0%nat val eq_refl); cbn zeta in Hfree;
                   rewrite Hptr in Hfree; exact Hfree].
    rewrite validateAddress_skip by (right; right; exact Hrules).
    set (m1 := set_data m (<[ptr := val]> (data m))).
    set (ptr1 := NewRelocatable (SegmentIndex ptr) (wrap64 (Offset ptr + 1))).
    assert (Hw : wrap64 (Offset ptr + 1) = Offset ptr + 1) by (apply wrap64_small; lia).
    destruct (IH m1 ptr1) as (d & Hload & Hin & Hout).
    + exact Hrules.
    + exact Hseg.
    + cbn [ptr1 Offset]. lia.
    + cbn [ptr1 Offset]. lia.
    + intros i v Hi. cbn [ptr1 Offset SegmentIndex]. rewrite Hw.
      cbn [m1 data set_data]. rewrite lookup_insert_ne.
      * specialize (Hfree (S i) v Hi). cbn zeta in Hfree.
        replace (Offset ptr + 1 + Z.of_nat i) with (Offset ptr + Z.of_nat (S i)) by lia.
        exact Hfree.
      * destruct ptr as [s o]. cbn. intros [= Ho]. lia.
    + exists d. cbn [ptr1 SegmentIndex Offset] in Hload, Hin, Hout. rewrite Hw in *.
      split; [|split].
      * rewrite Hload. do 3 f_equal. cbn [length]. lia.
      * intros [|i] v Hi.
        -- cbn in Hi. injection Hi as <-. rewrite Z.add_0_r.
           rewrite Hout by (right; left; cbn [Offset]; lia).
           cbn [m1 data set_data]. destruct ptr as [s o]. apply lookup_insert_eq.
        -- cbn in Hi. specialize (Hin i v Hi).
           replace (Offset ptr + Z.of_nat (S i)) with (Offset ptr + 1 + Z.of_nat i) by lia.
           exact Hin.
      * intros a Ha. cbn [length] in Ha. rewrite Hout by lia.
        cbn [m1 data set_data]. apply lookup_insert_ne. intros ->. lia.
Qed.

(** X3.  Loading a list at an address of an allocated segment without a
    validation rule, where every target cell is free or already holds the
    value to be written, succeeds: it returns the address after the last
    value, every value can be read back at its place and every cell
    outside the written range reads as before. *)
Theorem LoadData_round_trip (s : MemorySegmentManager) (ptr : Relocatable)
        (l : list MaybeRelocatable) :
  validation_rules (Mem s) !! to_uint (SegmentIndex ptr) = None ->
  SegmentIndex ptr < to_int (num_segments (Mem s)) ->
  0 <= Offset ptr -> Offset ptr + Z.of_nat (length l) < 2 ^ 64 ->
  (forall i v, l !! i = Some v ->
     let a := NewRelocatable (SegmentIndex ptr) (Offset ptr + Z.of_nat i) in
     Get (Mem s) a = Err ErrValueNotFound \/ Get (Mem s) a = Ok v) ->
  let r := LoadData s ptr l in
  snd r = Ok (NewRelocatable (SegmentIndex ptr) (Offset ptr + Z.of_nat (length l))) /\
  (forall i v, l !! i = Some v ->
     Get (Mem (fst r)) (NewRelocatable (SegmentIndex ptr) (Offset ptr + Z.of_nat i)) = Ok v) /\
  (forall a, SegmentIndex a <> SegmentIndex ptr \/ Offset a < Offset ptr \/
             Offset ptr + Z.of_nat (length l) <= Offset a ->
             Get (Mem (fst r)) a = Get (Mem s) a).
Proof.
  intros Hrules Hseg Hoff Hlen Hfree.
  destruct (LoadData_loop_writes l (Mem s) ptr Hrules Hseg Hoff Hlen) as (d & Hload & Hin & Hout).
  { intros i v Hi. specialize (Hfree i v Hi). cbn zeta in *. unfold Get, GetData in Hfree.
    destruct (data (Mem s) !! _) as [w|]; [right|left; reflexivity].
    destruct Hfree as [Hfree|Hfree]; congruence. }
  unfold LoadData. rewrite Hload. cbn [fst snd Mem set_Mem]. repeat split.
  - intros i v Hi. unfold Get, GetData. cbn [data set_data]. rewrite (Hin i v Hi). reflexivity.
  - intros a Ha. unfold Get, GetData. cbn [data set_data]. rewrite (Hout a Ha). reflexivity.
Qed.

Lemma LoadData_round_trip_witness :
  let s := fst (AddSegment NewMemorySegmentManager) in
  let l := [NewMaybeRelocatableFelt 5; NewMaybeRelocatableFelt 7] in
  snd (LoadData s (NewRelocatable 0 3) l) = Ok (NewRelocatable 0 5) /\
  Get (Mem (fst (LoadData s (NewRelocatable 0 3) l))) (NewRelocatable 0 4)
  = Ok (NewMaybeRelocatableFelt 7).
Proof.
  intros s l.
  assert (Hfree : forall i v, l !! i = Some v ->
            let a := NewRelocatable (SegmentIndex (NewRelocatable 0 3))
                                    (Offset (NewRelocatable 0 3) + Z.of_nat i) in
            Get (Mem s) a = Err ErrValueNotFound \/ Get (Mem s) a = Ok v).
  { intros i v _. left. reflexivity. }
  destruct (LoadData_round_trip s (NewRelocatable 0 3) l
              ltac:(reflexivity) ltac:(reflexivity) ltac:(cbn; lia) ltac:(cbn; lia) Hfree)
    as (Hres & Hget & _).
  split; [exact Hres|]. exact (Hget 1%nat (NewMaybeRelocatableFelt 7) eq_refl).
Defined.

(** X4.  Whatever [LoadData] returns, every cell that held a value holds
    it afterwards, and the segment counter, the rules and the segment sizes
    are as before: a failed load is not rolled back, but it destroys
    nothing. *)
Theorem LoadData_keeps_cells (s : MemorySegmentManager) (ptr : Relocatable)
        (l : list MaybeRelocatable) :
  let s' := fst (LoadData s ptr l) in
  (forall a v, Get (Mem s) a = Ok v -> Get (Mem s') a = Ok v) /\
  num_segments (Mem s') = num_segments (Mem s) /\
  validation_rules (Mem s') = validation_rules (Mem s) /\
  SegmentSizes s' = SegmentSizes s.
Proof.
  destruct (LoadData_loop_keeps l (Mem s) ptr) as (Hkeep & Hn & Hr).
  unfold LoadData. destruct (LoadData_loop (Mem s) ptr l) as [m' r].
  cbn [fst snd Mem set_Mem SegmentSizes] in *. repeat split; try assumption.
  intros a v. unfold Get, GetData.
  destruct (data (Mem s) !! a) as [w|] eqn:Ha; [|discriminate].
  intros [= ->]. rewrite (Hkeep a v Ha). reflexivity.
Qed.

(** X5.  A load is not atomic.  When the cells of a prefix are free and
    the next cell holds another value than the one to be written, the load
    fails with the write-once error and the prefix stays written. *)
Theorem LoadData_partial_write (s : MemorySegmentManager) (ptr : Relocatable)
        (pre rest : list MaybeRelocatable) (val old : MaybeRelocatable) :
  validation_rules (Mem s) !! to_uint (SegmentIndex ptr) = None ->
  SegmentIndex ptr < to_int (num_segments (Mem s)) ->
  0 <= Offset ptr -> Offset ptr + Z.of_nat (length pre) < 2 ^ 64 ->
  (forall i, (i < length pre)%nat ->
     Get (Mem s) (NewRelocatable (SegmentIndex ptr) (Offset ptr + Z.of_nat i))
     = Err ErrValueNotFound) ->
  Get (Mem s) (NewRelocatable (SegmentIndex ptr) (Offset ptr + Z.of_nat (length pre)))
  = Ok old ->
  old <> val ->
  let r := LoadData s ptr (pre ++ val :: rest) in
  snd r = Err ErrWriteOnce /\
  (forall i v, pre !! i = Some v ->
     Get (Mem (fst r)) (NewRelocatable (SegmentIndex ptr) (Offset ptr + Z.of_nat i)) = Ok v).
Proof.
  intros Hrules Hseg Hoff Hlen Hfree Hold Hne.
  assert (Happ : forall (l1 l2 : list MaybeRelocatable) m p,
            LoadData_loop m p (l1 ++ l2)
            = match LoadData_loop m p l1 with
              | (m', Ok p') => LoadData_loop m' p' l2
              | (m', Err e) => (m', Err e)
              end).
  { induction l1 as [|x l1 IH]; intros l2 m p; cbn [LoadData_loop app]; [reflexivity|].
    destruct (Insert m p x) as [m1 [e|]]; [reflexivity|]. apply IH. }
  destruct (LoadData_loop_writes pre (Mem s) ptr Hrules Hseg Hoff Hlen) as (d & Hload & Hin & Hout).
  { intros i v Hi. left. apply lookup_lt_Some in Hi. specialize (Hfree i Hi).
    cbn zeta. unfold Get, GetData in Hfree.
    destruct (data (Mem s) !! _); [discriminate|reflexivity]. }
  unfold LoadData. rewrite Happ, Hload. cbn [LoadData_loop].
  set (p := NewRelocatable (SegmentIndex ptr) (Offset ptr + Z.of_nat (length pre))) in *.
  assert (Hd : d !! p = Some old).
  { rewrite Hout by (right; right; cbn; lia). unfold Get, GetData in Hold.
    destruct (data (Mem s) !! p); congruence. }
  unfold Insert. cbn [num_segments set_data data].
  destruct (Z.leb_spec (to_int (num_segments (Mem s))) (SegmentIndex p)) as [Hle|_];
    [cbn in Hle; lia|].
  rewrite Hd, bool_decide_eq_false_2 by exact Hne. cbn [negb fst snd Mem set_Mem].
  split; [reflexivity|].
  intros i v Hi. unfold Get, GetData. cbn [data set_data]. rewrite (Hin i v Hi). reflexivity.
Qed.

Lemma LoadData_partial_write_witness :
  let s0 := fst (AddSegment NewMemorySegmentManager) in
  let s := set_Mem s0 (fst (Insert (Mem s0) (NewRelocatable 0 1) (NewMaybeRelocatableFelt 9))) in
  let r := LoadData s (NewRelocatable 0 0)
                    [NewMaybeRelocatableFelt 5; NewMaybeRelocatableFelt 7] in
  snd r = Err ErrWriteOnce /\
  Get (Mem (fst r)) (NewRelocatable 0 0) = Ok (NewMaybeRelocatableFelt 5).
Proof.
  intros s0 s.
  assert (Hfree : forall i, (i < length [NewMaybeRelocatableFelt 5])%nat ->
            Get (Mem s) (NewRelocatable (SegmentIndex (NewRelocatable 0 0))
                                        (Offset (NewRelocatable 0 0) + Z.of_nat i))
            = Err ErrValueNotFound).
  { intros [|i] Hi; [reflexivity|cbn in Hi; lia]. }
  destruct (LoadData_partial_write s (NewRelocatable 0 0) [NewMaybeRelocatableFelt 5] []
              (NewMaybeRelocatableFelt 7) (NewMaybeRelocatableFelt 9)
              ltac:(reflexivity) ltac:(reflexivity) ltac:(cbn; lia) ltac:(cbn; lia)
              Hfree ltac:(reflexivity) ltac:(discriminate)) as (Hres & Hget).
  split; [exact Hres|]. exact (Hget 0%nat (NewMaybeRelocatableFelt 5) eq_refl).
Defined.

(** X6.  [AddSegment] returns the base of a segment whose index is the old
    segment counter and touches no cell and no rule.  An insertion at an
    address of that segment is rejected as unallocated before the call;
    after the call the same insertion into a free cell writes the value. *)
Theorem AddSegment_allocates (s : MemorySegmentManager) (o : Z) (val : MaybeRelocatable) :
  0 <= num_segments (Mem s) < 2 ^ 63 - 1 ->
  let s' := fst (AddSegment s) in
  let base := snd (AddSegment s) in
  let addr := NewRelocatable (SegmentIndex base) o in
  base = NewRelocatable (num_segments (Mem s)) 0 /\
  num_segments (Mem s') = num_segments (Mem s) + 1 /\
  (forall a, Get (Mem s') a = Get (Mem s) a) /\
  validation_rules (Mem s') = validation_rules (Mem s) /\
  Insert (Mem s) addr val = (Mem s, Some ErrUnallocatedSegment) /\
  (Get (Mem s) addr = Err ErrValueNotFound ->
   Get (fst (Insert (Mem s') addr val)) addr = Ok val).
Proof.
  intros Hn. cbn zeta. unfold AddSegment. cbn [fst snd Mem set_Mem data SegmentIndex].
  assert (H63 : 2 ^ 63 < 2 ^ 64) by reflexivity.
  rewrite to_int_small by lia. rewrite wrap64_small by lia.
  repeat split.
  - unfold Insert. cbn [SegmentIndex]. rewrite to_int_small by lia.
    rewrite Z.leb_refl. reflexivity.
  - intros Hfree. unfold Get, GetData in Hfree.
    destruct (data (Mem s) !! _) eqn:Hcell; [discriminate|].
    rewrite Insert_passes.
    + unfold Get, GetData. rewrite validateAddress_data. cbn [data set_data].
      rewrite lookup_insert_eq. reflexivity.
    + cbn [SegmentIndex num_segments]. rewrite to_int_small by lia. lia.
    + left. exact Hcell.
Qed.

Lemma AddSegment_allocates_witness :
  let s := NewMemorySegmentManager in
  Insert (Mem s) (NewRelocatable 0 4) (NewMaybeRelocatableFelt 1)
  = (Mem s, Some ErrUnallocatedSegment) /\
  Get (fst (Insert (Mem (fst (AddSegment s))) (NewRelocatable 0 4) (NewMaybeRelocatableFelt 1)))
      (NewRelocatable 0 4) = Ok (NewMaybeRelocatableFelt 1).
Proof.
  intros s.
  destruct (AddSegment_allocates s 4 (NewMaybeRelocatableFelt 1) ltac:(cbn; lia))
    as (_ & _ & _ & _ & Hbefore & Hafter).
  split; [exact Hbefore|]. apply Hafter. reflexivity.
Defined.

(** ** Arithmetic on addresses *)

Lemma SubFelt_cases (r : Relocatable) (f : Z) :
  0 <= Offset r < 2 ^ 64 -> lambdaworks.IsFelt f ->
  SubFelt r f
  = if f <=? Offset r then (NewRelocatable (SegmentIndex r) (Offset r - f), None)
    else if f <=? lambdaworks.CAIRO_PRIME - 2 ^ 64 + Offset r
         then (r, Some (ConversionError (lambdaworks.CAIRO_PRIME + Offset r - f)))
         else (NewRelocatable (SegmentIndex r) (lambdaworks.CAIRO_PRIME + Offset r - f), None).
Proof.
  intros Ho Hf. pose proof two_pow_64_lt_prime as HP. unfold lambdaworks.IsFelt in Hf.
  unfold SubFelt, lambdaworks.Sub, lambdaworks.FeltFromUint64, lambdaworks.ToU64.
  rewrite Zminus_mod_idemp_l.
  destruct (Z.leb_spec f (Offset r)) as [Hle|Hgt].
  - rewrite (Z.mod_small (Offset r - f)) by lia.
    destruct (Z.ltb_spec (Offset r - f) (2 ^ 64)); [reflexivity|lia].
  - replace (Offset r - f) with (lambdaworks.CAIRO_PRIME + Offset r - f
                                 + (-1) * lambdaworks.CAIRO_PRIME) by lia.
    rewrite Z_mod_plus_full, Z.mod_small by lia.
    destruct (Z.leb_spec f (lambdaworks.CAIRO_PRIME - 2 ^ 64 + Offset r));
      destruct (Z.ltb_spec (lambdaworks.CAIRO_PRIME + Offset r - f) (2 ^ 64));
      first [reflexivity | lia].
Qed.

(** X7.  [SubFelt] on an address with a 64-bit offset and a felt f: when
    f is at most the offset, the offset decreases by f; when f is larger
    but at most P - 2^64 + offset, the conversion fails and the address is
    returned unchanged; for the remaining felts, which stand for small
    negative numbers, the offset increases by P - f.  The segment index
    never changes. *)
Theorem SubFelt_spec (r : Relocatable) (f : Z) :
  0 <= Offset r < 2 ^ 64 -> lambdaworks.IsFelt f ->
  SegmentIndex (fst (SubFelt r f)) = SegmentIndex r /\
  (f <= Offset r ->
   SubFelt r f = (NewRelocatable (SegmentIndex r) (Offset r - f), None)) /\
  (Offset r < f <= lambdaworks.CAIRO_PRIME - 2 ^ 64 + Offset r ->
   fst (SubFelt r f) = r /\ snd (SubFelt r f) <> None) /\
  (lambdaworks.CAIRO_PRIME - 2 ^ 64 + Offset r < f ->
   SubFelt r f
   = (NewRelocatable (SegmentIndex r) (Offset r + (lambdaworks.CAIRO_PRIME - f)), None)).
Proof.
  intros Ho Hf. rewrite (SubFelt_cases r f Ho Hf). repeat split.
  - destruct (_ <=? _); [reflexivity|]. destruct (_ <=? _); reflexivity.
  - intros H. destruct (Z.leb_spec f (Offset r)); [reflexivity|lia].
  - destruct (Z.leb_spec f (Offset r)); [lia|].
    destruct (Z.leb_spec f (lambdaworks.CAIRO_PRIME - 2 ^ 64 + Offset r)); [reflexivity|lia].
  - destruct (Z.leb_spec f (Offset r)); [lia|].
    destruct (Z.leb_spec f (lambdaworks.CAIRO_PRIME - 2 ^ 64 + Offset r));
      [discriminate|lia].
  - intros H. pose proof two_pow_64_lt_prime. unfold lambdaworks.IsFelt in Hf.
    destruct (Z.leb_spec f (Offset r)); [lia|].
    destruct (Z.leb_spec f (lambdaworks.CAIRO_PRIME - 2 ^ 64 + Offset r)); [lia|].
    do 2 f_equal. lia.
Qed.

Lemma SubFelt_spec_witness :
  SubFelt (NewRelocatable 1 5) 3 = (NewRelocatable 1 2, None) /\
  fst (SubFelt (NewRelocatable 1 5) 6) = NewRelocatable 1 5 /\
  snd (SubFelt (NewRelocatable 1 5) 6) <> None /\
  SubFelt (NewRelocatable 1 5) (lambdaworks.CAIRO_PRIME - 1) = (NewRelocatable 1 6, None).
Proof.
  destruct (SubFelt_spec (NewRelocatable 1 5) 3 ltac:(cbn; lia) ltac:(vm_compute; split; congruence))
    as (_ & H1 & _).
  destruct (SubFelt_spec (NewRelocatable 1 5) 6 ltac:(cbn; lia) ltac:(vm_compute; split; congruence))
    as (_ & _ & H2 & _).
  destruct (SubFelt_spec (NewRelocatable 1 5) (lambdaworks.CAIRO_PRIME - 1)
              ltac:(cbn; lia) ltac:(vm_compute; split; congruence)) as (_ & _ & _ & H3).
  split; [apply H1; cbn; lia|].
  split; [apply H2; vm_compute; split; congruence|].
  split; [apply H2; vm_compute; split; congruence|].
  apply H3. vm_compute. reflexivity.
Defined.

Lemma AddFelt_then_SubFelt (r r' : Relocatable) (f : Z) :
  0 <= Offset r < 2 ^ 64 -> AddFelt r f = (r', None) -> SubFelt r' f = (r, None).
Proof.
  intros Ho. pose proof two_pow_64_lt_prime as HP.
  unfold AddFelt, SubFelt, lambdaworks.Add, lambdaworks.Sub, lambdaworks.FeltFromUint64,
    lambdaworks.ToU64.
  rewrite Zplus_mod_idemp_l, Zminus_mod_idemp_l.
  destruct (Z.ltb_spec ((Offset r + f) mod lambdaworks.CAIRO_PRIME) (2 ^ 64)) as [Hlt|];
    [|discriminate].
  intros [= <-]. cbn [Offset SegmentIndex].
  rewrite Zminus_mod_idemp_l. replace (Offset r + f - f) with (Offset r) by lia.
  rewrite (Z.mod_small (Offset r)) by lia.
  destruct (Z.ltb_spec (Offset r) (2 ^ 64)); [|lia]. destruct r; reflexivity.
Qed.

Lemma SubFelt_then_AddFelt (r r' : Relocatable) (f : Z) :
  0 <= Offset r < 2 ^ 64 -> SubFelt r f = (r', None) -> AddFelt r' f = (r, None).
Proof.
  intros Ho. pose proof two_pow_64_lt_prime as HP.
  unfold AddFelt, SubFelt, lambdaworks.Add, lambdaworks.Sub, lambdaworks.FeltFromUint64,
    lambdaworks.ToU64.
  rewrite Zplus_mod_idemp_l, Zminus_mod_idemp_l.
  destruct (Z.ltb_spec ((Offset r - f) mod lambdaworks.CAIRO_PRIME) (2 ^ 64)) as [Hlt|];
    [|discriminate].
  intros [= <-]. cbn [Offset SegmentIndex].
  rewrite Zplus_mod_idemp_l. replace (Offset r - f + f) with (Offset r) by lia.
  rewrite (Z.mod_small (Offset r)) by lia.
  destruct (Z.ltb_spec (Offset r) (2 ^ 64)); [|lia]. destruct r; reflexivity.
Qed.

(** X8.  [AddFelt] and [SubFelt] undo each other: on an address with a
    64-bit offset, whenever one of them succeeds the other, applied to the
    result with the same felt, gives the address back. *)
Theorem AddFelt_SubFelt_round_trip (r r' : Relocatable) (f : Z) :
  0 <= Offset r < 2 ^ 64 ->
  (AddFelt r f = (r', None) -> SubFelt r' f = (r, None)) /\
  (SubFelt r f = (r', None) -> AddFelt r' f = (r, None)).
Proof.
  intros Ho. split; [apply AddFelt_then_SubFelt | apply SubFelt_then_AddFelt]; exact Ho.
Qed.

Lemma AddFelt_SubFelt_round_trip_witness :
  SubFelt (NewRelocatable 2 12) 7 = (NewRelocatable 2 5, None).
Proof.
  apply (AddFelt_SubFelt_round_trip (NewRelocatable 2 5) (NewRelocatable 2 12) 7);
    [cbn; lia|reflexivity].
Defined.

Lemma Sub_then_AddFelt (r other : Relocatable) (d : Z) :
  0 <= Offset other -> Offset r < 2 ^ 64 -> Sub r other = Ok d ->
  d = Offset r - Offset other /\ AddUint other d = r /\ AddFelt other d = (r, None).
Proof.
  intros Ho Hr. unfold Sub.
  destruct (Z.eqb_spec (SegmentIndex r) (SegmentIndex other)) as [Hs|Hs]; [|discriminate].
  cbn [negb]. destruct (Z.ltb_spec (Offset r) (Offset other)); [discriminate|].
  intros [= <-]. split; [reflexivity|]. split.
  - unfold AddUint. rewrite wrap64_small by lia. destruct r; cbn in *. f_equal; lia.
  - rewrite AddFelt_forward by lia. destruct r; cbn in *. do 2 f_equal; lia.
Qed.

(** X9.  [Relocatable.Sub] returns the distance d between two addresses
    exactly when they lie in one segment and the first is not below the
    second, and then moving the second address by d (with [AddUint] or
    [AddFelt]) reaches the first.  Conversely the distance from an address
    to the same address moved by d is d. *)
Theorem Relocatable_Sub_distance (r other : Relocatable) (d : Z) :
  0 <= Offset other -> Offset r < 2 ^ 64 ->
  (Sub r other = Ok d <->
   SegmentIndex r = SegmentIndex other /\ Offset other <= Offset r /\
   d = Offset r - Offset other) /\
  (Sub r other = Ok d -> AddUint other d = r /\ AddFelt other d = (r, None)) /\
  (0 <= d -> Offset other + d < 2 ^ 64 -> Sub (AddUint other d) other = Ok d).
Proof.
  intros Ho Hr.
  assert (Hiff : Sub r other = Ok d <->
                 SegmentIndex r = SegmentIndex other /\ Offset other <= Offset r /\
                 d = Offset r - Offset other).
  { unfold Sub. destruct (Z.eqb_spec (SegmentIndex r) (SegmentIndex other)) as [Hs|Hs]; cbn [negb].
    - destruct (Z.ltb_spec (Offset r) (Offset other)).
      + split; [discriminate|lia].
      + split; [intros [= <-]; auto|intros (_ & _ & ->); reflexivity].
    - split; [discriminate|intros (Hs' & _); contradiction]. }
  split; [exact Hiff|]. split.
  - intros Hsub. exact (proj2 (Sub_then_AddFelt r other d Ho Hr Hsub)).
  - intros Hd Hlt. unfold Sub, AddUint. cbn [SegmentIndex Offset].
    rewrite Z.eqb_refl, wrap64_small by lia. cbn [negb].
    destruct (Z.ltb_spec (Offset other + d) (Offset other)); [lia|]. f_equal. lia.
Qed.

Lemma Relocatable_Sub_distance_witness :
  AddUint (NewRelocatable 1 4) 6 = NewRelocatable 1 10 /\
  AddFelt (NewRelocatable 1 4) 6 = (NewRelocatable 1 10, None).
Proof.
  apply (Relocatable_Sub_distance (NewRelocatable 1 10) (NewRelocatable 1 4) 6);
    [cbn; lia|cbn; lia|reflexivity].
Defined.

(** X10.  [MaybeRelocatable.Add] is commutative: the two operands can be
    given in either order, also when one of them is an address. *)
Theorem MaybeRelocatable_Add_comm (a b : MaybeRelocatable) : Add a b = Add b a.
Proof.
  destruct a as [x|x], b as [y|y]; cbn [Add]; try reflexivity.
  unfold lambdaworks.Add. rewrite (Z.add_comm x y). reflexivity.
Qed.

(** X11.  [MaybeRelocatable.Sub] undoes [MaybeRelocatable.Add]: when the
    sum of a value (a canonical felt or an address with a 64-bit offset)
    and a felt is defined, subtracting the felt from the sum gives the value
    back; and when the difference of two addresses is defined, adding it to
    the second address gives the first. *)
Theorem MaybeRelocatable_Sub_Add (m sum : MaybeRelocatable) (f : Z) (r1 r2 : Relocatable)
        (diff : MaybeRelocatable) :
  match m with
  | NewMaybeRelocatableFelt x => lambdaworks.IsFelt x
  | NewMaybeRelocatableRelocatable r => 0 <= Offset r < 2 ^ 64
  end ->
  0 <= Offset r2 -> Offset r1 < 2 ^ 64 ->
  (Add m (NewMaybeRelocatableFelt f) = Ok sum ->
   SubMaybe sum (NewMaybeRelocatableFelt f) = Ok m) /\
  (SubMaybe (NewMaybeRelocatableRelocatable r1) (NewMaybeRelocatableRelocatable r2) = Ok diff ->
   Add (NewMaybeRelocatableRelocatable r2) diff = Ok (NewMaybeRelocatableRelocatable r1)).
Proof.
  intros Hm H2 H1. split.
  - destruct m as [x|r]; cbn [Add] in *.
    + intros [= <-]. cbn [SubMaybe]. unfold lambdaworks.Add, lambdaworks.Sub.
      rewrite Zminus_mod_idemp_l. replace (x + f - f) with x by lia.
      unfold lambdaworks.IsFelt in Hm. rewrite Z.mod_small by lia. reflexivity.
    + destruct (AddFelt r f) as [r' [e|]] eqn:Hadd; [discriminate|].
      intros [= <-]. cbn [SubMaybe].
      rewrite (AddFelt_then_SubFelt r r' f Hm Hadd). reflexivity.
  - cbn [SubMaybe]. destruct (Sub r1 r2) as [d|e] eqn:Hsub; [|discriminate].
    intros [= <-]. cbn [Add].
    destruct (Sub_then_AddFelt r1 r2 d H2 H1 Hsub) as (-> & _ & Hadd).
    pose proof two_pow_64_lt_prime.
    assert (Hle : Offset r2 <= Offset r1).
    { unfold Sub in Hsub. destruct (negb _); [discriminate|].
      destruct (Z.ltb_spec (Offset r1) (Offset r2)); [discriminate|lia]. }
    unfold lambdaworks.FeltFromUint64. rewrite Z.mod_small by lia.
    rewrite Hadd. reflexivity.
Qed.

Lemma MaybeRelocatable_Sub_Add_witness :
  SubMaybe (NewMaybeRelocatableRelocatable (NewRelocatable 1 9)) (NewMaybeRelocatableFelt 4)
  = Ok (NewMaybeRelocatableRelocatable (NewRelocatable 1 5)) /\
  Add (NewMaybeRelocatableRelocatable (NewRelocatable 1 2)) (NewMaybeRelocatableFelt 7)
  = Ok (NewMaybeRelocatableRelocatable (NewRelocatable 1 9)).
Proof.
  destruct (MaybeRelocatable_Sub_Add
              (NewMaybeRelocatableRelocatable (NewRelocatable 1 5))
              (NewMaybeRelocatableRelocatable (NewRelocatable 1 9)) 4
              (NewRelocatable 1 9) (NewRelocatable 1 2) (NewMaybeRelocatableFelt 7)
              ltac:(cbn; lia) ltac:(cbn; lia) ltac:(cbn; lia)) as [Hsub Hadd].
  split; [apply Hsub; reflexivity|apply Hadd; reflexivity].
Defined.

(** ** The decoder: invariants of a decoded instruction *)

Lemma DecodeInstruction_Ok_fields (e : Z) (i : vm.Instruction) :
  vm.DecodeInstruction e = Ok i ->
  Z.testbit e 63 = false /\ spec.decode_fields e = Ok i.
Proof.
  intros Hdec. destruct (Z.testbit e 63) eqn:Hhigh.
  - exfalso. revert Hdec. unfold vm.DecodeInstruction. cbv zeta.
    rewrite high_bit_test, Hhigh. discriminate.
  - split; [reflexivity|]. rewrite <- Hdec. symmetry.
    apply DecodeInstruction_fields. exact Hhigh.
Qed.

(** Each table of the decoder is one-to-one: the decoded value gives the
    bit pattern back. *)
Ltac table_cases n H :=
  destruct n as [|n|n]; cbn in H; try discriminate H;
  [try (injection H as <-; reflexivity)
  |do 3 (try destruct n as [n|n|]); cbn in H; try discriminate H;
   try (injection H as <-; reflexivity)].

Lemma table_op1_src_code (n : Z) (x : vm.Op1Src) :
  spec.table_op1_src n = Some x ->
  n = match x with
      | vm.Op1SrcOp0 => 0 | vm.Op1SrcImm => 1 | vm.Op1SrcFP => 2 | vm.Op1SrcAP => 4
      end.
Proof. intros H. table_cases n H. Qed.

Lemma table_pc_update_code (n : Z) (x : vm.PcUpdate) :
  spec.table_pc_update n = Some x ->
  n = match x with
      | vm.PcUpdateRegular => 0 | vm.PcUpdateJump => 1 | vm.PcUpdateJumpRel => 2
      | vm.PcUpdateJnz => 4
      end.
Proof. intros H. table_cases n H. Qed.

Lemma table_opcode_code (n : Z) (x : vm.Opcode) :
  spec.table_opcode n = Some x ->
  n = match x with vm.NOp => 0 | vm.Call => 1 | vm.Ret => 2 | vm.AssertEq => 4 end.
Proof. intros H. table_cases n H. Qed.

Lemma table_res_logic_code (n : Z) (pc : vm.PcUpdate) (x : vm.ResLogic) :
  spec.table_res_logic n pc = Some x ->
  n = match x with
      | vm.ResOp1 => 0 | vm.ResUnconstrained => 0 | vm.ResAdd => 1 | vm.ResMul => 2
      end /\
  (x = vm.ResUnconstrained -> pc = vm.PcUpdateJnz) /\
  (x = vm.ResOp1 -> pc <> vm.PcUpdateJnz).
Proof.
  intros H. destruct n as [|n|n]; cbn in H; try discriminate H.
  - destruct pc; injection H as <-; repeat split; congruence.
  - do 2 (try destruct n as [n|n|]); cbn in H; try discriminate H;
      injection H as <-; repeat split; congruence.
Qed.

Lemma table_ap_update_code (n : Z) (opc : vm.Opcode) (x : vm.ApUpdate) :
  spec.table_ap_update n opc = Some x ->
  n = match x with
      | vm.ApUpdateRegular => 0 | vm.ApUpdateAdd2 => 0 | vm.ApUpdateAdd => 1
      | vm.ApUpdateAdd1 => 2
      end /\
  (x = vm.ApUpdateAdd2 -> opc = vm.Call) /\
  (x = vm.ApUpdateRegular -> opc <> vm.Call).
Proof.
  intros H. destruct n as [|n|n]; cbn in H; try discriminate H.
  - destruct opc; injection H as <-; repeat split; congruence.
  - do 2 (try destruct n as [n|n|]); cbn in H; try discriminate H;
      injection H as <-; repeat split; congruence.
Qed.

(** The fields of a word that decodes to an instruction. *)
Lemma decode_fields_codes (e : Z) (i : vm.Instruction) :
  spec.decode_fields e = Ok i ->
  vm.Off0 i = spec.field e 0 16 - 2 ^ 15 /\
  vm.Off1 i = spec.field e 16 16 - 2 ^ 15 /\
  vm.Off2 i = spec.field e 32 16 - 2 ^ 15 /\
  vm.DstReg i = spec.table_reg (spec.field e 48 1) /\
  vm.Op0Reg i = spec.table_reg (spec.field e 49 1) /\
  spec.table_op1_src (spec.field e 50 3) = Some (vm.Op1Addr i) /\
  spec.table_pc_update (spec.field e 55 3) = Some (vm.PcUpdate_ i) /\
  spec.table_res_logic (spec.field e 53 2) (vm.PcUpdate_ i) = Some (vm.ResLogic_ i) /\
  spec.table_opcode (spec.field e 60 3) = Some (vm.Opcode_ i) /\
  spec.table_ap_update (spec.field e 58 2) (vm.Opcode_ i) = Some (vm.ApUpdate_ i) /\
  vm.FpUpdate_ i = spec.table_fp_update (vm.Opcode_ i).
Proof.
  unfold spec.decode_fields. intros H.
  destruct (spec.table_op1_src _) as [op1|] eqn:H1; [|discriminate].
  destruct (spec.table_pc_update _) as [pc|] eqn:H2; [|discriminate].
  destruct (spec.table_res_logic _ pc) as [rl|] eqn:H3; [|discriminate].
  destruct (spec.table_opcode _) as [opc|] eqn:H4; [|discriminate].
  destruct (spec.table_ap_update _ opc) as [ap|] eqn:H5; [|discriminate].
  injection H as <-. cbn. repeat split; assumption.
Qed.

(** X12.  Every instruction that the decoder returns satisfies: the fp
    update is the one of the opcode (ap + 2 for a call, dst for a return,
    none otherwise); the result logic is unconstrained only in a
    conditional jump, and a conditional jump never has the result logic
    op1; the ap update add-2 occurs only in a call, and a call never has
    the regular ap update. *)
Theorem DecodeInstruction_invariants (e : Z) (i : vm.Instruction) :
  vm.DecodeInstruction e = Ok i ->
  vm.FpUpdate_ i = match vm.Opcode_ i with
                   | vm.Call => vm.FpUpdateAPPlus2
                   | vm.Ret => vm.FpUpdateDst
                   | _ => vm.FpUpdateRegular
                   end /\
  (vm.ResLogic_ i = vm.ResUnconstrained -> vm.PcUpdate_ i = vm.PcUpdateJnz) /\
  (vm.PcUpdate_ i = vm.PcUpdateJnz -> vm.ResLogic_ i <> vm.ResOp1) /\
  (vm.ApUpdate_ i = vm.ApUpdateAdd2 -> vm.Opcode_ i = vm.Call) /\
  (vm.Opcode_ i = vm.Call -> vm.ApUpdate_ i <> vm.ApUpdateRegular).
Proof.
  intros Hdec. apply DecodeInstruction_Ok_fields in Hdec as [_ Hdec].
  apply decode_fields_codes in Hdec
    as (_ & _ & _ & _ & _ & _ & _ & Hres & _ & Hap & Hfp).
  apply table_res_logic_code in Hres as (_ & Hres1 & Hres2).
  apply table_ap_update_code in Hap as (_ & Hap1 & Hap2).
  split; [exact Hfp|]. split; [exact Hres1|]. split; [|split; [exact Hap1|]].
  - intros Hpc Hrl. exact (Hres2 Hrl Hpc).
  - intros Hopc Hreg. exact (Hap2 Hreg Hopc).
Qed.

Lemma DecodeInstruction_invariants_witness :
  vm.FpUpdate_ examples.jnz_instruction = vm.FpUpdateRegular /\
  (vm.PcUpdate_ examples.jnz_instruction = vm.PcUpdateJnz ->
   vm.ResLogic_ examples.jnz_instruction <> vm.ResOp1).
Proof.
  destruct (DecodeInstruction_invariants 0x020680017FFF7FFF examples.jnz_instruction
              ltac:(reflexivity)) as (Hfp & _ & Hjnz & _).
  split; [exact Hfp|exact Hjnz].
Defined.

(** ** The decoder is one-to-one *)

Lemma field_step (e lo len hi : Z) :
  0 <= lo -> 0 <= len -> hi = lo + len ->
  e / 2 ^ lo = 2 ^ len * (e / 2 ^ hi) + spec.field e lo len.
Proof.
  intros Hlo Hlen ->. unfold spec.field.
  rewrite Z.pow_add_r, <- Z.div_div by (try apply Z.pow_pos_nonneg; lia).
  apply Z.div_mod. apply Z.pow_nonzero; lia.
Qed.

(** A 63-bit word is the sum of its ten fields. *)
Lemma word_of_fields (e : Z) :
  0 <= e < 2 ^ 63 ->
  e = spec.field e 0 16 + 2 ^ 16 * spec.field e 16 16 + 2 ^ 32 * spec.field e 32 16
      + 2 ^ 48 * spec.field e 48 1 + 2 ^ 49 * spec.field e 49 1
      + 2 ^ 50 * spec.field e 50 3 + 2 ^ 53 * spec.field e 53 2
      + 2 ^ 55 * spec.field e 55 3 + 2 ^ 58 * spec.field e 58 2
      + 2 ^ 60 * spec.field e 60 3.
Proof.
  intros He.
  pose proof (field_step e 0 16 16 ltac:(lia) ltac:(lia) eq_refl) as H0.
  pose proof (field_step e 16 16 32 ltac:(lia) ltac:(lia) eq_refl) as H16.
  pose proof (field_step e 32 16 48 ltac:(lia) ltac:(lia) eq_refl) as H32.
  pose proof (field_step e 48 1 49 ltac:(lia) ltac:(lia) eq_refl) as H48.
  pose proof (field_step e 49 1 50 ltac:(lia) ltac:(lia) eq_refl) as H49.
  pose proof (field_step e 50 3 53 ltac:(lia) ltac:(lia) eq_refl) as H50.
  pose proof (field_step e 53 2 55 ltac:(lia) ltac:(lia) eq_refl) as H53.
  pose proof (field_step e 55 3 58 ltac:(lia) ltac:(lia) eq_refl) as H55.
  pose proof (field_step e 58 2 60 ltac:(lia) ltac:(lia) eq_refl) as H58.
  pose proof (field_step e 60 3 63 ltac:(lia) ltac:(lia) eq_refl) as H60.
  assert (H63 : e / 2 ^ 63 = 0) by (apply Z.div_small; exact He).
  rewrite H63 in H60. change (2 ^ 0) with 1 in H0. rewrite Z.div_1_r in H0.
  lia.
Qed.

Lemma high_bit_clear_bound (e : Z) :
  0 <= e < 2 ^ 64 -> Z.testbit e 63 = false -> e < 2 ^ 63.
Proof.
  intros He Hbit. apply Z.testbit_false in Hbit; [|lia].
  assert (Hq : 0 <= e / 2 ^ 63 < 2).
  { split; [apply Z.div_pos; lia|apply Z.div_lt_upper_bound; lia]. }
  assert (Hz : e / 2 ^ 63 = 0).
  { rewrite (Z.div_mod (e / 2 ^ 63) 2) by lia. rewrite Hbit.
    assert (e / 2 ^ 63 / 2 = 0) by (apply Z.div_small; lia). lia. }
  apply Z.div_small_iff in Hz; lia.
Qed.

(** X13.  The decoder is one-to-one on 64-bit words: two words that
    decode to the same instruction are the same word. *)
Theorem DecodeInstruction_injective (e e' : Z) (i : vm.Instruction) :
  0 <= e < 2 ^ 64 -> 0 <= e' < 2 ^ 64 ->
  vm.DecodeInstruction e = Ok i -> vm.DecodeInstruction e' = Ok i ->
  e = e'.
Proof.
  intros He He' Hdec Hdec'.
  apply DecodeInstruction_Ok_fields in Hdec as [Hbit Hdec].
  apply DecodeInstruction_Ok_fields in Hdec' as [Hbit' Hdec'].
  pose proof (high_bit_clear_bound e He Hbit) as Hlt.
  pose proof (high_bit_clear_bound e' He' Hbit') as Hlt'.
  apply decode_fields_codes in Hdec
    as (H0 & H1 & H2 & Hd & Ho & Hop1 & Hpc & Hres & Hopc & Hap & _).
  apply decode_fields_codes in Hdec'
    as (H0' & H1' & H2' & Hd' & Ho' & Hop1' & Hpc' & Hres' & Hopc' & Hap' & _).
  apply table_op1_src_code in Hop1, Hop1'.
  apply table_pc_update_code in Hpc, Hpc'.
  apply table_opcode_code in Hopc, Hopc'.
  apply table_res_logic_code in Hres as [Hres _], Hres' as [Hres' _].
  apply table_ap_update_code in Hap as [Hap _], Hap' as [Hap' _].
  assert (Hd48 : spec.field e 48 1 = spec.field e' 48 1).
  { pose proof (field_bound e 48 1 ltac:(lia)). pose proof (field_bound e' 48 1 ltac:(lia)).
    rewrite Hd in Hd'. unfold spec.table_reg in Hd'.
    destruct (Z.eqb_spec (spec.field e 48 1) 1), (Z.eqb_spec (spec.field e' 48 1) 1);
      try discriminate; lia. }
  assert (Hd49 : spec.field e 49 1 = spec.field e' 49 1).
  { pose proof (field_bound e 49 1 ltac:(lia)). pose proof (field_bound e' 49 1 ltac:(lia)).
    rewrite Ho in Ho'. unfold spec.table_reg in Ho'.
    destruct (Z.eqb_spec (spec.field e 49 1) 1), (Z.eqb_spec (spec.field e' 49 1) 1);
      try discriminate; lia. }
  rewrite (word_of_fields e) by lia. rewrite (word_of_fields e') by lia.
  rewrite Hop1, Hop1', Hpc, Hpc', Hopc, Hopc', Hres, Hres', Hap, Hap', Hd48, Hd49.
  replace (spec.field e 0 16) with (spec.field e' 0 16) by lia.
  replace (spec.field e 16 16) with (spec.field e' 16 16) by lia.
  replace (spec.field e 32 16) with (spec.field e' 32 16) by lia.
  reflexivity.
Qed.

Lemma DecodeInstruction_injective_witness :
  vm.DecodeInstruction 0x020680017FFF7FFF = Ok examples.jnz_instruction /\
  0x020680017FFF7FFF = 0x020680017FFF7FFF.
Proof.
  split; [reflexivity|].
  exact (DecodeInstruction_injective 0x020680017FFF7FFF 0x020680017FFF7FFF
           examples.jnz_instruction ltac:(lia) ltac:(lia)
           ltac:(reflexivity) ltac:(reflexivity)).
Defined.

(** ** Deduction of a missing operand *)

(** A subtraction that is defined is undone by the addition. *)
Lemma SubMaybe_then_Add (dst x y : MaybeRelocatable) :
  match dst with
  | NewMaybeRelocatableFelt f => lambdaworks.IsFelt f
  | NewMaybeRelocatableRelocatable r => 0 <= Offset r < 2 ^ 64
  end ->
  match x with
  | NewMaybeRelocatableFelt f => True
  | NewMaybeRelocatableRelocatable r => 0 <= Offset r
  end ->
  SubMaybe dst x = Ok y -> Add x y = Ok dst /\ Add y x = Ok dst.
Proof.
  intros Hdst Hx Hsub.
  assert (Hadd : Add y x = Ok dst).
  { destruct dst as [a|r1], x as [b|r2]; cbn [SubMaybe] in Hsub.
    - injection Hsub as <-. cbn [Add]. unfold lambdaworks.Add, lambdaworks.Sub.
      rewrite Zplus_mod_idemp_l. replace (a - b + b) with a by lia.
      unfold lambdaworks.IsFelt in Hdst. rewrite Z.mod_small by lia. reflexivity.
    - discriminate.
    - destruct (SubFelt r1 b) as [r' [e|]] eqn:Hs; [discriminate|].
      injection Hsub as <-. cbn [Add].
      rewrite (SubFelt_then_AddFelt r1 r' b Hdst Hs). reflexivity.
    - destruct (Sub r1 r2) as [d|e] eqn:Hs; [|discriminate].
      injection Hsub as <-. cbn [Add].
      destruct (Sub_then_AddFelt r1 r2 d Hx ltac:(lia) Hs) as (-> & _ & Haddf).
      pose proof two_pow_64_lt_prime.
      assert (Hle : Offset r2 <= Offset r1).
      { unfold Sub in Hs. destruct (negb _); [discriminate|].
        destruct (Z.ltb_spec (Offset r1) (Offset r2)); [discriminate|lia]. }
      unfold lambdaworks.FeltFromUint64. rewrite Z.mod_small by lia.
      rewrite Haddf. reflexivity. }
  split; [|exact Hadd].
  destruct x as [b|r2], y as [c|r3]; cbn [Add] in *; try exact Hadd.
  unfold lambdaworks.Add in *. rewrite (Z.add_comm b c). exact Hadd.
Qed.

(** X14.  The operand deduced for an assertion satisfies the assertion.
    For an [AssertEq] instruction whose result is op1 or op0 + op1, with a
    dst that is a canonical felt or an address with a 64-bit offset: when
    [DeduceOp1] (from dst and op0) or [DeduceOp0] (from dst and op1)
    returns an operand, the result it returns with it is dst, and the
    result computed from the two operands is dst as well. *)
Theorem Deduce_operand_sound (v : vm.VirtualMachine) (i : vm.Instruction)
        (dst op0 op1 : MaybeRelocatable) (res : option MaybeRelocatable) :
  vm.Opcode_ i = vm.AssertEq ->
  vm.ResLogic_ i = vm.ResOp1 \/ vm.ResLogic_ i = vm.ResAdd ->
  match dst with
  | NewMaybeRelocatableFelt f => lambdaworks.IsFelt f
  | NewMaybeRelocatableRelocatable r => 0 <= Offset r < 2 ^ 64
  end ->
  (match op0 with
   | NewMaybeRelocatableFelt f => True
   | NewMaybeRelocatableRelocatable r => 0 <= Offset r
   end ->
   vm.DeduceOp1 v i (Some dst) (Some op0) = Ok (Some op1, res) ->
   res = Some dst /\ vm.ComputeRes v i op0 op1 = Ok (Some dst)) /\
  (match op1 with
   | NewMaybeRelocatableFelt f => True
   | NewMaybeRelocatableRelocatable r => 0 <= Offset r
   end ->
   vm.DeduceOp0 v i (Some dst) (Some op1) = Ok (Some op0, res) ->
   res = Some dst /\ vm.ComputeRes v i op0 op1 = Ok (Some dst)).
Proof.
  intros Hopc Hlogic Hdst. unfold vm.DeduceOp1, vm.DeduceOp0, vm.ComputeRes.
  rewrite Hopc. split.
  - intros Hop0. destruct Hlogic as [-> | ->].
    + intros [= <- <-]. split; reflexivity.
    + destruct (SubMaybe dst op0) as [y|e] eqn:Hsub; [|discriminate].
      intros [= <- <-]. split; [reflexivity|].
      destruct (SubMaybe_then_Add dst op0 y Hdst Hop0 Hsub) as [-> _]. reflexivity.
  - intros Hop1. destruct Hlogic as [-> | ->].
    + discriminate.
    + destruct (SubMaybe dst op1) as [y|e] eqn:Hsub; [|discriminate].
      intros [= <- <-]. split; [reflexivity|].
      destruct (SubMaybe_then_Add dst op1 y Hdst Hop1 Hsub) as [_ ->]. reflexivity.
Qed.

Lemma Deduce_operand_sound_witness :
  let i := vm.mkInstruction 0 1 2 vm.AP vm.AP vm.Op1SrcAP vm.ResAdd vm.PcUpdateRegular
                            vm.ApUpdateRegular vm.FpUpdateRegular vm.AssertEq in
  vm.ComputeRes vm.NewVirtualMachine i (NewMaybeRelocatableFelt 3)
                (NewMaybeRelocatableRelocatable (NewRelocatable 1 4))
  = Ok (Some (NewMaybeRelocatableRelocatable (NewRelocatable 1 7))).
Proof.
  intros i.
  destruct (Deduce_operand_sound vm.NewVirtualMachine i
              (NewMaybeRelocatableRelocatable (NewRelocatable 1 7))
              (NewMaybeRelocatableFelt 3)
              (NewMaybeRelocatableRelocatable (NewRelocatable 1 4))
              (Some (NewMaybeRelocatableRelocatable (NewRelocatable 1 7)))
              ltac:(reflexivity) ltac:(right; reflexivity) ltac:(cbn; lia)) as [Hop1 _].
  exact (proj2 (Hop1 I ltac:(reflexivity))).
Defined.

(** ** A step and the memory *)

Lemma memory_grows_refl (m : Memory) : spec.memory_grows m m.
Proof. repeat split; auto. Qed.

Lemma memory_grows_trans (m1 m2 m3 : Memory) :
  spec.memory_grows m1 m2 -> spec.memory_grows m2 m3 -> spec.memory_grows m1 m3.
Proof.
  intros (H1 & H2 & H3) (H4 & H5 & H6). repeat split; [auto|congruence|congruence].
Qed.

Lemma Insert_grows (m : Memory) (addr : Relocatable) (val : MaybeRelocatable) :
  spec.memory_grows m (fst (Insert m addr val)).
Proof.
  destruct (Insert_effect m addr val) as (Hkeep & _ & Hn & Hr & _).
  cbn zeta in *. repeat split; try assumption.
  intros a v. unfold Get, GetData.
  destruct (data m !! a) as [w|] eqn:Ha; [|discriminate].
  intros [= ->]. rewrite (Hkeep a v Ha). reflexivity.
Qed.

Lemma operands_frame_refl (v : vm.VirtualMachine) : spec.operands_frame v v.
Proof. split; [apply memory_grows_refl|split; reflexivity]. Qed.

Lemma operands_frame_trans (v1 v2 v3 : vm.VirtualMachine) :
  spec.operands_frame v1 v2 -> spec.operands_frame v2 v3 -> spec.operands_frame v1 v3.
Proof.
  intros (H1 & H2 & H3) (H4 & H5 & H6).
  split; [exact (memory_grows_trans _ _ _ H1 H4)|split; congruence].
Qed.

Lemma insert_ignore_frame (v : vm.VirtualMachine) (addr : Relocatable)
      (val : MaybeRelocatable) :
  spec.operands_frame v (vm.insert_ignore v addr val).
Proof. split; [apply Insert_grows|split; reflexivity]. Qed.

Lemma DeduceMemoryCell_frame (v : vm.VirtualMachine) (addr : Relocatable) :
  spec.operands_frame v (fst (vm.DeduceMemoryCell v addr)).
Proof.
  unfold vm.DeduceMemoryCell. destruct (vm.deduce_in _ _ _).
  split; [apply memory_grows_refl|split; reflexivity].
Qed.

Lemma ComputeOp0Deductions_frame (v : vm.VirtualMachine) (op0_addr : Relocatable)
      (i : vm.Instruction) (dst op1 : option MaybeRelocatable) :
  spec.operands_frame v (fst (vm.ComputeOp0Deductions v op0_addr i dst op1)).
Proof.
  unfold vm.ComputeOp0Deductions.
  pose proof (DeduceMemoryCell_frame v op0_addr) as H.
  destruct (vm.DeduceMemoryCell v op0_addr) as [v1 [op0|e]]; cbn [fst] in *; [|exact H].
  destruct op0 as [val|].
  - eapply operands_frame_trans; [exact H|apply insert_ignore_frame].
  - destruct (vm.DeduceOp0 v1 i dst op1) as [[[val|] res]|e]; cbn [fst]; try exact H.
    eapply operands_frame_trans; [exact H|apply insert_ignore_frame].
Qed.

Lemma ComputeOp1Deductions_frame (v : vm.VirtualMachine) (op1_addr : Relocatable)
      (i : vm.Instruction) (dst op0 res : option MaybeRelocatable) :
  spec.operands_frame v (fst (vm.ComputeOp1Deductions v op1_addr i dst op0 res)).
Proof.
  unfold vm.ComputeOp1Deductions.
  pose proof (DeduceMemoryCell_frame v op1_addr) as H.
  destruct (vm.DeduceMemoryCell v op1_addr) as [v1 [op1|e]]; cbn [fst] in *; [|exact H].
  destruct op1 as [val|].
  - eapply operands_frame_trans; [exact H|apply insert_ignore_frame].
  - destruct (vm.DeduceOp1 v1 i dst op0) as [[[val|] r]|e]; cbn [fst]; try exact H.
    eapply operands_frame_trans; [exact H|apply insert_ignore_frame].
Qed.

Lemma ComputeOperands_frame (v : vm.VirtualMachine) (i : vm.Instruction) :
  spec.operands_frame v (fst (vm.ComputeOperands v i)).
Proof.
  unfold vm.ComputeOperands.
  destruct (vm.ComputeDstAddr _ _) as [dst_addr|]; [|apply operands_frame_refl].
  destruct (vm.ComputeOp0Addr _ _) as [op0_addr|]; [|apply operands_frame_refl].
  set (op0_op := vm.result_option (Get _ op0_addr)).
  destruct (vm.ComputeOp1Addr _ _ _) as [op1_addr|]; [|apply operands_frame_refl].
  set (dst := vm.result_option (Get _ dst_addr)).
  set (op1_op := vm.result_option (Get _ op1_addr)).
  assert (H0 : spec.operands_frame v
                 (fst (match op0_op with
                       | Some op0 => (v, Ok (op0, None))
                       | None => vm.ComputeOp0Deductions v op0_addr i dst op1_op
                       end))).
  { destruct op0_op; [apply operands_frame_refl|apply ComputeOp0Deductions_frame]. }
  destruct (match op0_op with Some _ => _ | None => _ end) as [v1 [[op0 res]|e]];
    cbn [fst] in H0; [|exact H0].
  assert (H1 : spec.operands_frame v1
                 (fst (match op1_op with
                       | Some op1 => (v1, Ok op1)
                       | None => vm.ComputeOp1Deductions v1 op1_addr i dst op0_op res
                       end))).
  { destruct op1_op; [apply operands_frame_refl|apply ComputeOp1Deductions_frame]. }
  destruct (match op1_op with Some _ => _ | None => _ end) as [v2 [op1|e]];
    cbn [fst] in H1; [|exact (operands_frame_trans _ _ _ H0 H1)].
  pose proof (operands_frame_trans _ _ _ H0 H1) as H2.
  destruct (match res with Some _ => _ | None => _ end) as [res'|e]; [|exact H2].
  destruct dst as [d|]; [exact H2|].
  destruct (vm.DeduceDst v2 i res'); [|exact H2].
  eapply operands_frame_trans; [exact H2|apply insert_ignore_frame].
Qed.

(** The register updates change the run context only. *)
Lemma UpdateRegisters_frame (v : vm.VirtualMachine) (i : vm.Instruction)
      (ops : vm.Operands) :
  let v' := fst (vm.UpdateRegisters v i ops) in
  vm.Segments v' = vm.Segments v /\ vm.Trace v' = vm.Trace v /\
  vm.BuiltinRunners v' = vm.BuiltinRunners v.
Proof.
  assert (Hfp : forall u, let u' := fst (vm.UpdateFp u i ops) in
            vm.Segments u' = vm.Segments u /\ vm.Trace u' = vm.Trace u /\
            vm.BuiltinRunners u' = vm.BuiltinRunners u).
  { intros u. unfold vm.UpdateFp. destruct (vm.FpUpdate_ i); try registers_done.
    destruct (GetRelocatable (vm.Dst ops)) as [rel [|]]; [registers_done|].
    destruct (GetFelt (vm.Dst ops)) as [felt ok].
    destruct (AddFelt _ felt) as [new_fp [e|]]; registers_done. }
  assert (Hap : forall u, let u' := fst (vm.UpdateAp u i ops) in
            vm.Segments u' = vm.Segments u /\ vm.Trace u' = vm.Trace u /\
            vm.BuiltinRunners u' = vm.BuiltinRunners u).
  { intros u. unfold vm.UpdateAp. destruct (vm.ApUpdate_ i); try registers_done.
    destruct (vm.Res ops) as [res|]; [|registers_done].
    destruct (AddMaybeRelocatable _ res); registers_done. }
  assert (Hpc : forall u, let u' := fst (vm.UpdatePc u i ops) in
            vm.Segments u' = vm.Segments u /\ vm.Trace u' = vm.Trace u /\
            vm.BuiltinRunners u' = vm.BuiltinRunners u).
  { intros u. unfold vm.UpdatePc. destruct (vm.PcUpdate_ i); try registers_done.
    - destruct (vm.Res ops) as [r|]; [|registers_done].
      destruct (GetRelocatable r) as [res [|]]; registers_done.
    - destruct (vm.Res ops) as [r|]; [|registers_done].
      destruct (GetFelt r) as [res [|]]; [|registers_done].
      destruct (AddFelt _ res) as [new_pc [e|]]; registers_done.
    - destruct (IsZero (vm.Dst ops)); [registers_done|].
      destruct (AddMaybeRelocatable _ _); registers_done. }
  unfold vm.UpdateRegisters.
  pose proof (Hfp v) as (H1 & H2 & H3).
  destruct (vm.UpdateFp v i ops) as [v1 [e|]]; cbn [fst snd] in *; [auto|].
  pose proof (Hap v1) as (H4 & H5 & H6).
  destruct (vm.UpdateAp v1 i ops) as [v2 [e|]]; cbn [fst snd] in *;
    [repeat split; congruence|].
  pose proof (Hpc v2) as (H7 & H8 & H9). repeat split; congruence.
Qed.

(** The effect of running an instruction on the memory, the trace and the
    step counter. *)
Lemma RunInstruction_effect (v : vm.VirtualMachine) (i : vm.Instruction) :
  let v' := fst (vm.RunInstruction v i) in
  let entry := vm.mkTraceEntry (vm.Pc (vm.RunCtx v)) (vm.Ap (vm.RunCtx v))
                               (vm.Fp (vm.RunCtx v)) in
  spec.memory_grows (Mem (vm.Segments v)) (Mem (vm.Segments v')) /\
  SegmentSizes (vm.Segments v') = SegmentSizes (vm.Segments v) /\
  (snd (vm.RunInstruction v i) = None ->
   vm.Trace v' = vm.Trace v ++ [entry] /\
   vm.CurrentStep v' = wrap64 (vm.CurrentStep v + 1)) /\
  (snd (vm.RunInstruction v i) <> None ->
   (vm.Trace v' = vm.Trace v \/ vm.Trace v' = vm.Trace v ++ [entry]) /\
   vm.CurrentStep v' = vm.CurrentStep v).
Proof.
  unfold vm.RunInstruction.
  pose proof (ComputeOperands_frame v i) as (Hmem & Htr & Hsz).
  pose proof (ComputeOperands_registers v i) as [Hctx Hstep].
  destruct (vm.ComputeOperands v i) as [v1 [ops|e]]; cbn [fst snd] in *.
  2:{ split; [exact Hmem|]. split; [exact Hsz|]. split; [discriminate|].
      intros _. split; [left; exact Htr|exact Hstep]. }
  destruct (vm.OpcodeAssertions v1 i ops) as [e|]; cbn [fst snd].
  { split; [exact Hmem|]. split; [exact Hsz|]. split; [discriminate|].
    intros _. split; [left; exact Htr|exact Hstep]. }
  match goal with |- context [vm.UpdateRegisters ?v2 i ops] =>
    pose proof (UpdateRegisters_frame v2 i ops) as (Hseg & Htr2 & _);
    pose proof (UpdateRegisters_registers v2 i ops) as (_ & Hst2 & _);
    destruct (vm.UpdateRegisters v2 i ops) as [v3 [e|]]
  end; cbn [fst snd vm.RunCtx vm.CurrentStep vm.Segments vm.Trace] in *.
  - rewrite Hseg. split; [exact Hmem|]. split; [exact Hsz|]. split; [discriminate|].
    intros _. split; [right; rewrite Htr2, Htr, Hctx; reflexivity|congruence].
  - rewrite Hseg. split; [exact Hmem|]. split; [exact Hsz|]. split; [|congruence].
    intros _. split; [rewrite Htr2, Htr, Hctx; reflexivity|congruence].
Qed.

Lemma Step_effect (v : vm.VirtualMachine) :
  let v' := fst (vm.Step v) in
  let entry := vm.mkTraceEntry (vm.Pc (vm.RunCtx v)) (vm.Ap (vm.RunCtx v))
                               (vm.Fp (vm.RunCtx v)) in
  spec.memory_grows (Mem (vm.Segments v)) (Mem (vm.Segments v')) /\
  SegmentSizes (vm.Segments v') = SegmentSizes (vm.Segments v) /\
  (snd (vm.Step v) = None ->
   vm.Trace v' = vm.Trace v ++ [entry] /\
   vm.CurrentStep v' = wrap64 (vm.CurrentStep v + 1)) /\
  (snd (vm.Step v) <> None ->
   (vm.Trace v' = vm.Trace v \/ vm.Trace v' = vm.Trace v ++ [entry]) /\
   vm.CurrentStep v' = vm.CurrentStep v).
Proof.
  assert (Hsame : spec.memory_grows (Mem (vm.Segments v)) (Mem (vm.Segments v)) /\
                  SegmentSizes (vm.Segments v) = SegmentSizes (vm.Segments v) /\
                  (Some ErrFetchInstruction = @None Error ->
                   vm.Trace v = vm.Trace v ++ [vm.mkTraceEntry (vm.Pc (vm.RunCtx v))
                                                 (vm.Ap (vm.RunCtx v)) (vm.Fp (vm.RunCtx v))] /\
                   vm.CurrentStep v = wrap64 (vm.CurrentStep v + 1)) /\
                  (True ->
                   (vm.Trace v = vm.Trace v \/
                    vm.Trace v = vm.Trace v ++ [vm.mkTraceEntry (vm.Pc (vm.RunCtx v))
                                                  (vm.Ap (vm.RunCtx v)) (vm.Fp (vm.RunCtx v))]) /\
                   vm.CurrentStep v = vm.CurrentStep v)).
  { split; [apply memory_grows_refl|]. split; [reflexivity|]. split; [discriminate|].
    intros _. split; [left|]; reflexivity. }
  destruct Hsame as (S1 & S2 & _ & S4). specialize (S4 I).
  unfold vm.Step.
  destruct (Get _ _) as [[e|r]|err]; cbn [GetFelt negb fst snd];
    try (split; [exact S1|split; [exact S2|split; [discriminate|intros _; exact S4]]]).
  unfold lambdaworks.ToU64.
  destruct (e <? 2 ^ 64); cbn [fst snd];
    try (split; [exact S1|split; [exact S2|split; [discriminate|intros _; exact S4]]]).
  destruct (vm.DecodeInstruction e) as [i|err]; cbn [fst snd];
    try (split; [exact S1|split; [exact S2|split; [discriminate|intros _; exact S4]]]).
  apply RunInstruction_effect.
Qed.

(** X15.  The memory is write-once over a whole run: at every state that
    a run reaches by steps, successful or not, each cell that held a value
    at the start reads the same value, and the segment counter and the
    validation rules are those of the start. *)
Theorem run_memory_write_once (v0 v : vm.VirtualMachine) :
  spec.reachable v0 v ->
  (forall a val, Get (Mem (vm.Segments v0)) a = Ok val ->
                 Get (Mem (vm.Segments v)) a = Ok val) /\
  num_segments (Mem (vm.Segments v)) = num_segments (Mem (vm.Segments v0)) /\
  validation_rules (Mem (vm.Segments v)) = validation_rules (Mem (vm.Segments v0)).
Proof.
  intros Hreach. change (spec.memory_grows (Mem (vm.Segments v0)) (Mem (vm.Segments v))).
  induction Hreach as [|v Hreach IH].
  - apply memory_grows_refl.
  - eapply memory_grows_trans; [exact IH|]. exact (proj1 (Step_effect v)).
Qed.

Lemma run_memory_write_once_witness :
  let v0 := runners.Vm examples.ret_runner in
  Get (Mem (vm.Segments (fst (vm.Step v0)))) (NewRelocatable 0 0)
  = Ok (NewMaybeRelocatableFelt 0x208b7fff7fff7ffe).
Proof.
  intros v0.
  apply (run_memory_write_once v0 (fst (vm.Step v0)));
    [apply spec.reach_step, spec.reach_init|reflexivity].
Defined.

(** X16.  A step that returns no error appends exactly one entry to the
    trace, holding the registers as they were before the step, and adds one
    to the step counter.  A step that returns an error leaves the step
    counter alone; its trace is the old one, or the old one with that entry
    (the entry is appended before the registers are updated). *)
Theorem Step_trace (v : vm.VirtualMachine) :
  let v' := fst (vm.Step v) in
  let entry := vm.mkTraceEntry (vm.Pc (vm.RunCtx v)) (vm.Ap (vm.RunCtx v))
                               (vm.Fp (vm.RunCtx v)) in
  (snd (vm.Step v) = None ->
   vm.Trace v' = vm.Trace v ++ [entry] /\
   vm.CurrentStep v' = wrap64 (vm.CurrentStep v + 1)) /\
  (snd (vm.Step v) <> None ->
   (vm.Trace v' = vm.Trace v \/ vm.Trace v' = vm.Trace v ++ [entry]) /\
   vm.CurrentStep v' = vm.CurrentStep v).
Proof. exact (proj2 (proj2 (Step_effect v))). Qed.

(** ** Pedersen: the slice of verified addresses *)

Section PedersenSlice.

Import builtins.Pedersen.

Variable PedersenHash : Z -> Z -> Z.

Lemma ResizeVerifiedAddresses_effect (p : PedersenBuiltinRunner) (address : Relocatable) :
  0 <= Offset address < 2 ^ 63 ->
  Z.of_nat (length (verified_addresses p)) <> Offset address ->
  exists p',
    ResizeVerifiedAddresses p address = Ok p' /\
    base p' = base p /\ included p' = included p /\
    ratio p' = ratio p /\ instancesPerComponent p' = instancesPerComponent p /\
    Z.of_nat (length (verified_addresses p'))
    = Z.max (Z.of_nat (length (verified_addresses p))) (Offset address + 1) /\
    verified_addresses p' !! Z.to_nat (Offset address) = Some true /\
    (forall k, verified_addresses p !! k = Some true ->
               verified_addresses p' !! k = Some true).
Proof.
  intros Ho Hlen. unfold ResizeVerifiedAddresses.
  rewrite to_int_small by exact Ho.
  set (len := Z.of_nat (length (verified_addresses p))) in *.
  set (grown := if 0 <? Offset address - len
                then verified_addresses p
                     ++ replicate (Z.to_nat (Offset address - len + 1)) false
                else verified_addresses p).
  assert (Hgrown : Z.of_nat (length grown) = Z.max len (Offset address + 1) /\
                   forall k, verified_addresses p !! k = Some true ->
                             grown !! k = Some true).
  { subst grown. destruct (Z.ltb_spec 0 (Offset address - len)) as [Hgrow|Hkeep].
    - rewrite length_app, length_replicate. fold len. split; [lia|].
      intros k Hk. apply lookup_app_l_Some. exact Hk.
    - split; [lia|auto]. }
  destruct Hgrown as [Hsize Hkeep].
  destruct (Z.leb_spec (Z.of_nat (length grown)) (Offset address)) as [Hle|_]; [lia|].
  eexists. split; [reflexivity|]. cbn [base included ratio instancesPerComponent
                                         verified_addresses set_verified].
  do 4 (split; [reflexivity|]). rewrite length_insert.
  split; [exact Hsize|]. split.
  - apply list_lookup_insert_eq. lia.
  - intros k Hk. destruct (decide (k = Z.to_nat (Offset address))) as [->|Hne].
    + apply list_lookup_insert_eq. lia.
    + rewrite list_lookup_insert_ne by congruence. apply Hkeep, Hk.
Qed.

(** X17.  As long as the length of the slice of verified addresses is a
    multiple of 3 (it is 0 in a new runner), a deduction at an address
    with an offset below 2^63 never indexes the slice outside its range,
    and it keeps the invariant: the length stays a multiple of 3, no flag
    that is set is cleared, and base, included and ratio stay.  The
    invariant is needed: a slice whose length is the offset of the
    requested output cell makes the deduction fail on the index. *)
Theorem Pedersen_deduce_in_range (p : PedersenBuiltinRunner) (address : Relocatable)
        (mem : Memory) :
  0 <= Offset address < 2 ^ 63 ->
  let r := DeduceMemoryCell PedersenHash p address mem in
  (Z.of_nat (length (verified_addresses p)) mod 3 = 0 ->
   (exists val, snd r = Ok val) /\
   Z.of_nat (length (verified_addresses (fst r))) mod 3 = 0 /\
   (forall k, verified_addresses p !! k = Some true ->
              verified_addresses (fst r) !! k = Some true) /\
   base (fst r) = base p /\ included (fst r) = included p /\ ratio (fst r) = ratio p) /\
  (Offset address mod 3 = 2 ->
   Z.of_nat (length (verified_addresses p)) = Offset address ->
   r = (p, Err ErrIndexOutOfRange)).
Proof.
  intros Ho. cbn zeta. unfold DeduceMemoryCell.
  change PEDERSEN_CELLS_PER_INSTANCE with 3.
  change PEDERSEN_INPUT_CELLS_PER_INSTANCE with 2.
  split.
  - intros Hinv.
    destruct (Z.eqb_spec (Offset address mod 3) 2) as [Hmod|Hmod]; cbn [negb];
      [|cbn; repeat split; eauto].
    assert (Hne : Z.of_nat (length (verified_addresses p)) <> Offset address)
      by (intros Heq; rewrite Heq, Hmod in Hinv; discriminate).
    unfold CheckVerifiedAddresses. rewrite to_int_small by exact Ho.
    assert (Hstep : forall q, (q = (p, Ok None) \/
                               exists p' h, q = (p', Ok (Some (NewMaybeRelocatableFelt h))) /\
                                            ResizeVerifiedAddresses p address = Ok p') ->
              (exists val, snd q = Ok val) /\
              Z.of_nat (length (verified_addresses (fst q))) mod 3 = 0 /\
              (forall k, verified_addresses p !! k = Some true ->
                         verified_addresses (fst q) !! k = Some true) /\
              base (fst q) = base p /\ included (fst q) = included p /\
              ratio (fst q) = ratio p).
    { intros q [-> | (p' & h & -> & Hres)]; cbn [fst snd]; [repeat split; eauto|].
      destruct (ResizeVerifiedAddresses_effect p address Ho Hne)
        as (p'' & Hres' & Hb & Hi & Hr & _ & Hlen & _ & Hkeep).
      rewrite Hres in Hres'. injection Hres' as <-.
      split; [eauto|]. split; [|auto].
      rewrite Hlen. destruct (Z.max_spec (Z.of_nat (length (verified_addresses p)))
                                         (Offset address + 1)) as [[_ ->] | [_ ->]];
        [|exact Hinv].
      rewrite <- Z.add_mod_idemp_l, Hmod by lia. reflexivity. }
    assert (Hdeduce : forall q,
              q = match MemGetFelt mem (NewRelocatable (SegmentIndex address)
                                                       (wrap64 (Offset address - 1))) with
                  | Err _ => (p, Ok None)
                  | Ok feltA =>
                      match MemGetFelt mem (NewRelocatable (SegmentIndex address)
                                                           (wrap64 (Offset address - 2))) with
                      | Err _ => (p, Ok None)
                      | Ok feltB =>
                          match ResizeVerifiedAddresses p address with
                          | Err e => (p, Err e)
                          | Ok p' => (p', Ok (Some (NewMaybeRelocatableFelt
                                                      (PedersenHash feltB feltA))))
                          end
                      end
                  end ->
              q = (p, Ok None) \/
              exists p' h, q = (p', Ok (Some (NewMaybeRelocatableFelt h))) /\
                           ResizeVerifiedAddresses p address = Ok p').
    { intros q ->. destruct (MemGetFelt mem _) as [a|]; [|left; reflexivity].
      destruct (MemGetFelt mem _) as [b|]; [|left; reflexivity].
      destruct (ResizeVerifiedAddresses_effect p address Ho Hne) as (p' & Hres & _).
      rewrite Hres. right. eauto. }
    destruct (Z.ltb_spec (Z.of_nat (length (verified_addresses p))) (Offset address))
      as [Hshort|Hlong].
    + apply Hstep, Hdeduce. reflexivity.
    + destruct (verified_addresses p !! Z.to_nat (Offset address)) as [[|]|] eqn:Hlook.
      * apply Hstep. left. reflexivity.
      * apply Hstep, Hdeduce. reflexivity.
      * apply lookup_ge_None in Hlook. lia.
  - intros Hmod Hlen. rewrite Hmod. cbn [Z.eqb Pos.eqb negb].
    unfold CheckVerifiedAddresses. rewrite to_int_small by exact Ho.
    destruct (Z.ltb_spec (Z.of_nat (length (verified_addresses p))) (Offset address));
      [lia|].
    rewrite (proj2 (lookup_ge_None _ _)) by lia. reflexivity.
Qed.

End PedersenSlice.

(** Witness of [Pedersen_deduce_in_range]: a memory with the inputs of the
    first two instances.  The runner has deduced the cell 0:5 already, so
    its slice has length 6 with the flag of 0:5 set.  The request at 0:2
    indexes the slice inside its range, reads the inputs 1 and 2, sets
    the flag of 0:2 and keeps the flag of 0:5 and the length.  A runner
    whose slice has length 2 fails on the index at 0:2. *)
Lemma Pedersen_deduce_in_range_witness :
  let m0 := Mem (fst (AddSegment NewMemorySegmentManager)) in
  let m1 := fst (Insert m0 (NewRelocatable 0 0) (NewMaybeRelocatableFelt 1)) in
  let m2 := fst (Insert m1 (NewRelocatable 0 1) (NewMaybeRelocatableFelt 2)) in
  let m3 := fst (Insert m2 (NewRelocatable 0 3) (NewMaybeRelocatableFelt 3)) in
  let mem := fst (Insert m3 (NewRelocatable 0 4) (NewMaybeRelocatableFelt 4)) in
  let p1 := fst (builtins.Pedersen.DeduceMemoryCell Z.add examples.pedersen_runner
                   (NewRelocatable 0 5) mem) in
  let r := builtins.Pedersen.DeduceMemoryCell Z.add p1 (NewRelocatable 0 2) mem in
  let short := builtins.Pedersen.mkPedersen (NewRelocatable 0 0) true [false; false] 8 1 in
  builtins.Pedersen.verified_addresses p1 = [false; false; false; false; false; true] /\
  snd r = Ok (Some (NewMaybeRelocatableFelt 3)) /\
  builtins.Pedersen.verified_addresses (fst r) = [false; false; true; false; false; true] /\
  (exists val, snd r = Ok val) /\
  Z.of_nat (length (builtins.Pedersen.verified_addresses (fst r))) mod 3 = 0 /\
  builtins.Pedersen.verified_addresses (fst r) !! 5%nat = Some true /\
  builtins.Pedersen.DeduceMemoryCell Z.add short (NewRelocatable 0 2) mem
  = (short, Err ErrIndexOutOfRange).
Proof.
  intros m0 m1 m2 m3 mem p1 r short.
  destruct (Pedersen_deduce_in_range Z.add p1 (NewRelocatable 0 2) mem ltac:(cbn; lia))
    as [Hinv _].
  destruct (Hinv ltac:(reflexivity)) as (Hval & Hlen & Hkeep & _).
  destruct (Pedersen_deduce_in_range Z.add short (NewRelocatable 0 2) mem ltac:(cbn; lia))
    as [_ Hbad].
  split; [reflexivity|]. split; [reflexivity|]. split; [reflexivity|].
  split; [exact Hval|]. split; [exact Hlen|].
  split; [exact (Hkeep 5%nat ltac:(reflexivity))|].
  exact (Hbad ltac:(reflexivity) ltac:(reflexivity)).
Defined.

(** ** Poseidon: the cache of output cells *)

Section PoseidonCache.

Import builtins.Poseidon.

Variable PoseidonPermuteComp : Z * Z * Z -> Z * Z * Z.

(** X18.  A request at an output cell (offset mod 6 at least 3) that is
    not in the cache reads the three input cells of the instance.  When
    one of them is missing or not a felt, the error is returned and the
    runner is unchanged.  When they hold felts, the permutation of the
    three is computed, the requested component is returned, and all three
    outputs are cached: every later request at an output cell of the
    instance returns its component on any memory, without changing the
    runner again. *)
Theorem Poseidon_deduce_cached (p : PoseidonBuiltinRunner) (address : Relocatable)
        (mem : Memory) :
  0 <= Offset address -> Offset address + 2 < 2 ^ 64 ->
  3 <= Offset address mod 6 ->
  cache p !! address = None ->
  let index := Offset address mod 6 in
  let cell k := NewRelocatable (SegmentIndex address) (Offset address - index + k) in
  (forall k e, 0 <= k < 3 ->
     (forall j, 0 <= j < k -> exists f, MemGetFelt mem (cell j) = Ok f) ->
     MemGetFelt mem (cell k) = Err e ->
     DeduceMemoryCell PoseidonPermuteComp p address mem = (p, Err e)) /\
  (forall f0 f1 f2 t0 t1 t2,
     MemGetFelt mem (cell 0) = Ok f0 ->
     MemGetFelt mem (cell 1) = Ok f1 ->
     MemGetFelt mem (cell 2) = Ok f2 ->
     PoseidonPermuteComp (f0, f1, f2) = (t0, t1, t2) ->
     exists p',
       DeduceMemoryCell PoseidonPermuteComp p address mem
       = (p', Ok (Some (NewMaybeRelocatableFelt
                          (if index =? 3 then t0 else if index =? 4 then t1 else t2)))) /\
       base p' = base p /\ included p' = included p /\
       (forall mem',
          DeduceMemoryCell PoseidonPermuteComp p' (cell 3) mem'
          = (p', Ok (Some (NewMaybeRelocatableFelt t0))) /\
          DeduceMemoryCell PoseidonPermuteComp p' (cell 4) mem'
          = (p', Ok (Some (NewMaybeRelocatableFelt t1))) /\
          DeduceMemoryCell PoseidonPermuteComp p' (cell 5) mem'
          = (p', Ok (Some (NewMaybeRelocatableFelt t2))))).
Proof.
  intros Ho Hlt Hidx Hmiss index cell.
  pose proof (Z.div_mod (Offset address) 6 ltac:(lia)) as Hdm.
  pose proof (Z.mod_pos_bound (Offset address) 6 ltac:(lia)) as Hb.
  fold index in Hdm, Hb, Hidx.
  assert (Hstart : forall k, 0 <= k <= 5 ->
            AddUint (NewRelocatable (SegmentIndex address) (Offset address - index)) k
            = cell k).
  { intros k Hk. unfold AddUint, cell. cbn [SegmentIndex Offset].
    rewrite wrap64_small by lia. reflexivity. }
  assert (Hout : forall k, 0 <= k <= 2 ->
            AddUint (AddUint (NewRelocatable (SegmentIndex address) (Offset address - index)) 3) k
            = cell (3 + k)).
  { intros k Hk. rewrite Hstart by lia. unfold AddUint, cell. cbn [SegmentIndex Offset].
    rewrite wrap64_small by lia. f_equal. lia. }
  assert (Hunfold :
            DeduceMemoryCell PoseidonPermuteComp p address mem
            = match MemGetFelt mem (cell 0) with
              | Err e => (p, Err e)
              | Ok felt0 =>
              match MemGetFelt mem (cell 1) with
              | Err e => (p, Err e)
              | Ok felt1 =>
              match MemGetFelt mem (cell 2) with
              | Err e => (p, Err e)
              | Ok felt2 =>
                  let '(elem0, elem1, elem2) := PoseidonPermuteComp (felt0, felt1, felt2) in
                  let cache' := <[cell 5 := elem2]> (<[cell 4 := elem1]>
                                                       (<[cell 3 := elem0]> (cache p))) in
                  (set_cache p cache',
                   Ok (Some (NewMaybeRelocatableFelt
                               (default lambdaworks.FeltZero (cache' !! address)))))
              end end end).
  { unfold DeduceMemoryCell.
    change POSEIDON_CELLS_PER_INSTANCE with 6.
    change POSEIDON_INPUT_CELLS_PER_INSTANCE with 3. fold index.
    destruct (Z.ltb_spec index 3) as [Hin|_]; [lia|]. rewrite Hmiss.
    unfold SubUint. destruct (Z.ltb_spec (Offset address) index) as [Hneg|_]; [lia|].
    rewrite !Hout, !Hstart by lia. reflexivity. }
  assert (Hcell_ne : forall j k, j <> k -> cell j <> cell k).
  { intros j k Hne. unfold cell. intros [= Heq]. lia. }
  assert (Haddr : address = cell index).
  { unfold cell. destruct address as [s o]. cbn [SegmentIndex Offset] in *. f_equal. lia. }
  split.
  - intros k e Hk Hprev Herr. rewrite Hunfold.
    assert (Hcases : k = 0 \/ k = 1 \/ k = 2) by lia.
    destruct Hcases as [-> | [-> | ->]].
    + rewrite Herr. reflexivity.
    + destruct (Hprev 0 ltac:(lia)) as [f0 ->]. rewrite Herr. reflexivity.
    + destruct (Hprev 0 ltac:(lia)) as [f0 ->].
      destruct (Hprev 1 ltac:(lia)) as [f1 ->]. rewrite Herr. reflexivity.
  - intros f0 f1 f2 t0 t1 t2 H0 H1 H2 Hperm.
    rewrite Hunfold, H0, H1, H2, Hperm.
    set (cache' := <[cell 5 := t2]> (<[cell 4 := t1]> (<[cell 3 := t0]> (cache p)))).
    assert (H3 : cache' !! cell 3 = Some t0).
    { unfold cache'. rewrite !lookup_insert_ne by (apply Hcell_ne; lia).
      apply lookup_insert_eq. }
    assert (H4 : cache' !! cell 4 = Some t1).
    { unfold cache'. rewrite lookup_insert_ne by (apply Hcell_ne; lia).
      apply lookup_insert_eq. }
    assert (H5 : cache' !! cell 5 = Some t2).
    { unfold cache'. apply lookup_insert_eq. }
    exists (set_cache p cache'). split; [|split; [reflexivity|split; [reflexivity|]]].
    + do 4 f_equal. rewrite Haddr.
      assert (Hcases : index = 3 \/ index = 4 \/ index = 5) by lia.
      destruct Hcases as [-> | [-> | ->]]; cbn [Z.eqb Pos.eqb];
        [rewrite H3|rewrite H4|rewrite H5]; reflexivity.
    + intros mem'.
      assert (Hhit : forall k t, 3 <= k <= 5 -> cache' !! cell k = Some t ->
                DeduceMemoryCell PoseidonPermuteComp (set_cache p cache') (cell k) mem'
                = (set_cache p cache', Ok (Some (NewMaybeRelocatableFelt t)))).
      { intros k t Hk Hlook. unfold DeduceMemoryCell.
        change POSEIDON_CELLS_PER_INSTANCE with 6.
        change POSEIDON_INPUT_CELLS_PER_INSTANCE with 3.
        assert (Hmod : Offset (cell k) mod 6 = k).
        { unfold cell. cbn [Offset].
          replace (Offset address - index + k) with (k + Offset address / 6 * 6) by lia.
          rewrite Z_mod_plus_full. apply Z.mod_small. lia. }
        rewrite Hmod. destruct (Z.ltb_spec k 3) as [Hin|_]; [lia|].
        cbn [cache set_cache]. rewrite Hlook. reflexivity. }
      repeat split; apply Hhit; (lia || assumption).
Qed.

End PoseidonCache.

Lemma Poseidon_deduce_cached_witness :
  let perm := fun s : Z * Z * Z => let '(a, b, c) := s in (c, a, b) in
  let m0 := Mem (fst (AddSegment NewMemorySegmentManager)) in
  let m1 := fst (Insert m0 (NewRelocatable 0 0) (NewMaybeRelocatableFelt 1)) in
  let m2 := fst (Insert m1 (NewRelocatable 0 1) (NewMaybeRelocatableFelt 2)) in
  let m3 := fst (Insert m2 (NewRelocatable 0 2) (NewMaybeRelocatableFelt 3)) in
  let p := builtins.Poseidon.NewPoseidonBuiltinRunner true in
  snd (builtins.Poseidon.DeduceMemoryCell perm p (NewRelocatable 0 4) m3)
  = Ok (Some (NewMaybeRelocatableFelt 1)) /\
  snd (builtins.Poseidon.DeduceMemoryCell perm
         (fst (builtins.Poseidon.DeduceMemoryCell perm p (NewRelocatable 0 4) m3))
         (NewRelocatable 0 5) m0)
  = Ok (Some (NewMaybeRelocatableFelt 2)).
Proof.
  intros perm m0 m1 m2 m3 p.
  destruct (Poseidon_deduce_cached perm p (NewRelocatable 0 4) m3
              ltac:(cbn; lia) ltac:(cbn; lia) ltac:(vm_compute; discriminate)
              ltac:(reflexivity))
    as [_ Hhit].
  destruct (Hhit 1 2 3 3 1 2 ltac:(reflexivity) ltac:(reflexivity) ltac:(reflexivity)
                 ltac:(reflexivity)) as (p' & Hfirst & _ & _ & Hlater).
  rewrite Hfirst. cbn [fst snd]. split; [reflexivity|].
  destruct (Hlater m0) as (_ & _ & H5). exact (f_equal snd H5).
Defined.

(** ** The runner: the main entrypoint in proof mode *)

Lemma initializeState_keeps (r : CairoRunner) (entrypoint : Z)
      (stack : list MaybeRelocatable) :
  let r' := fst (initializeState r entrypoint stack) in
  Program_ r' = Program_ r /\ ProofMode r' = ProofMode r /\
  ExecutionPublicMemory r' = ExecutionPublicMemory r /\
  mainOffset r' = mainOffset r /\
  vm.BuiltinRunners (Vm r') = vm.BuiltinRunners (Vm r) /\
  spec.memory_grows (Mem (vm.Segments (Vm r))) (Mem (vm.Segments (Vm r'))).
Proof.
  cbv zeta. unfold initializeState, LoadData.
  pose proof (LoadData_loop_keeps (Data (Program_ r)) (Mem (vm.Segments (Vm r)))
                                  (ProgramBase r)) as (Hkeep1 & Hn1 & Hr1).
  destruct (LoadData_loop (Mem (vm.Segments (Vm r))) (ProgramBase r) (Data (Program_ r)))
    as [m1 res1]. cbn [fst] in *.
  assert (Hgrow : forall m2 m3,
            (forall a v, data m1 !! a = Some v -> data m2 !! a = Some v) ->
            num_segments m2 = num_segments m1 ->
            validation_rules m2 = validation_rules m1 ->
            data m3 = data m2 /\ num_segments m3 = num_segments m2 /\
            validation_rules m3 = validation_rules m2 /\
            validated_addresses m3 = validated_addresses m2 ->
            spec.memory_grows (Mem (vm.Segments (Vm r))) m3).
  { intros m2 m3 Hkeep2 Hn2 Hr2 (Hd & Hn & Hr & _).
    split; [|split; congruence].
    intros a val. unfold Get, GetData. rewrite Hd.
    destruct (data (Mem (vm.Segments (Vm r))) !! a) as [w|] eqn:Ha; [|discriminate].
    intros [= ->]. rewrite (Hkeep2 a val (Hkeep1 a val Ha)). reflexivity. }
  destruct res1 as [p|e]; cbn [Mem set_Mem].
  - pose proof (LoadData_loop_keeps stack m1 (executionBase r)) as (Hkeep2 & Hn2 & Hr2).
    destruct (LoadData_loop m1 (executionBase r) stack) as [m2 res2]. cbn [fst] in *.
    cbn [fst Program_ ProofMode ExecutionPublicMemory mainOffset Vm vm.BuiltinRunners
             vm.set_Segments vm.Segments Mem set_Mem].
    do 5 (split; [reflexivity|]).
    apply (Hgrow m2); [exact Hkeep2|exact Hn2|exact Hr2|].
    apply mark_accessed_from_fields.
  - cbn [fst Program_ ProofMode ExecutionPublicMemory mainOffset Vm vm.BuiltinRunners
             vm.set_Segments vm.Segments Mem set_Mem].
    do 5 (split; [reflexivity|]).
    apply (Hgrow m1); [auto|reflexivity|reflexivity|].
    apply mark_accessed_from_fields.
Qed.

(** X19.  In proof mode [initializeMainEntrypoint] never returns an error
    (the error of loading the program and the stack is dropped).  The
    stack is the address execution base + 2 and the felt 0 followed by the
    builtins' initial stacks; ap and fp start at execution base + 2, pc at
    program base + Start, and the end pointer is program base + End.  All
    stack positions are recorded as public memory.  No segment is
    allocated and the final pc of the runner is not set. *)
Theorem initializeMainEntrypoint_proof_mode (r : CairoRunner) :
  ProofMode r = true ->
  let res := initializeMainEntrypoint r in
  let r' := fst (fst (fst res)) in
  let basePlusTwo :=
    NewRelocatable (SegmentIndex (executionBase r)) (wrap64 (Offset (executionBase r) + 2)) in
  let stack :=
    [NewMaybeRelocatableRelocatable basePlusTwo; NewMaybeRelocatableFelt 0]
    ++ builtins_initial_stack (vm.BuiltinRunners (Vm r)) in
  snd res = None /\
  snd (fst (fst res)) = stack /\
  snd (fst res) = NewRelocatable (SegmentIndex (ProgramBase r))
                                 (wrap64 (Offset (ProgramBase r) + End_ (Program_ r))) /\
  initialAp r' = basePlusTwo /\ initialFp r' = basePlusTwo /\
  initialPc r' = NewRelocatable (SegmentIndex (ProgramBase r))
                                (wrap64 (Offset (ProgramBase r) + Start (Program_ r))) /\
  ExecutionPublicMemory r' = Some (map Z.of_nat (seq 0 (length stack))) /\
  finalPc r' = finalPc r /\
  num_segments (Mem (vm.Segments (Vm r'))) = num_segments (Mem (vm.Segments (Vm r))) /\
  (forall a val, Get (Mem (vm.Segments (Vm r))) a = Ok val ->
                 Get (Mem (vm.Segments (Vm r'))) a = Ok val).
Proof.
  intros Hmode. unfold initializeMainEntrypoint. rewrite Hmode. cbv zeta.
  match goal with |- context [initializeState ?r0 ?e ?s] =>
    pose proof (initializeState_fields r0 e s) as (Heb & Hpb & _ & _ & Hfin & Hpc);
    pose proof (initializeState_keeps r0 e s) as (Hprog & _ & Hpub & _ & _ & Hgrow);
    destruct (initializeState r0 e s) as [r1 err]
  end.
  cbn [fst snd Program_ Vm ProgramBase executionBase initialPc initialAp initialFp finalPc
           ExecutionPublicMemory] in *.
  destruct Hgrow as (Hkeep & Hn & _).
  repeat split; try reflexivity; try assumption; try congruence.
Qed.

Lemma initializeMainEntrypoint_proof_mode_witness :
  let r := initializeSegments examples.proof_runner in
  snd (initializeMainEntrypoint r) = None /\
  initialFp (fst (fst (fst (initializeMainEntrypoint r)))) = NewRelocatable 1 2.
Proof.
  intros r.
  destruct (initializeMainEntrypoint_proof_mode r ltac:(reflexivity))
    as (Herr & _ & _ & _ & Hfp & _).
  split; [exact Herr|exact Hfp].
Defined.

(** ** The runner: running *)

Section RunPhase.

Context {T : vm.HintTypes}.
Variable hintProcessor : vm.HintProcessor T.

Lemma run_reachable_trans (hintDataMap : gmap Z (list (vm.HintData T)))
      (s0 s1 s2 : RunState T) :
  spec.run_reachable hintProcessor hintDataMap s0 s1 ->
  spec.run_reachable hintProcessor hintDataMap s1 s2 ->
  spec.run_reachable hintProcessor hintDataMap s0 s2.
Proof.
  intros H01 H12. induction H12 as [|s H12 IH]; [exact H01|].
  apply spec.run_step. exact IH.
Qed.

Lemma run_reachable_first (hintDataMap : gmap Z (list (vm.HintData T)))
      (s s1 : RunState T) (err : option Error) :
  step_machine hintProcessor hintDataMap s = (s1, err) ->
  spec.run_reachable hintProcessor hintDataMap s s1.
Proof.
  intros Hstep. change s1 with (fst (s1, err)). rewrite <- Hstep.
  apply spec.run_step, spec.run_init.
Qed.

Lemma step_machine_kept (hintDataMap : gmap Z (list (vm.HintData T)))
      (s s1 : RunState T) (err : option Error) :
  step_machine hintProcessor hintDataMap s = (s1, err) ->
  spec.run_frame s s1 /\ RunEnded (Runner s1) = RunEnded (Runner s).
Proof.
  intros Hstep. destruct (step_machine_frame hintProcessor hintDataMap s) as (Hf & He & _).
  rewrite Hstep in Hf, He. auto.
Qed.

Lemma RunUntilPC_loop_sound (hintDataMap : gmap Z (list (vm.HintData T)))
      (end_ : Relocatable) (fuel : nat) :
  forall (s s' : RunState T) (err : option Error),
    RunUntilPC_loop hintProcessor fuel hintDataMap s end_ = Some (s', err) ->
    spec.run_reachable hintProcessor hintDataMap s s' /\
    spec.run_frame s s' /\
    (err = None -> vm.Pc (vm.RunCtx (machine s')) = end_) /\
    (forall e, err = Some e ->
       exists s1, spec.run_reachable hintProcessor hintDataMap s s1 /\
                  vm.Pc (vm.RunCtx (machine s1)) <> end_ /\
                  step_machine hintProcessor hintDataMap s1 = (s', Some e)) /\
    (forall k, RunUntilPC_loop hintProcessor (fuel + k) hintDataMap s end_ = Some (s', err)).
Proof.
  induction fuel as [|fuel IH]; intros s s' err Hrun.
  - cbn [RunUntilPC_loop] in Hrun.
    destruct (decide (vm.Pc (vm.RunCtx (machine s)) = end_)) as [Heq|Hne].
    + rewrite bool_decide_eq_true_2 in Hrun by exact Heq. injection Hrun as <- <-.
      split; [apply spec.run_init|]. split; [apply run_frame_refl|].
      split; [auto|]. split; [discriminate|].
      intros k. destruct (0 + k)%nat; cbn [RunUntilPC_loop];
        rewrite bool_decide_eq_true_2 by exact Heq; reflexivity.
    + rewrite bool_decide_eq_false_2 in Hrun by exact Hne. discriminate.
  - cbn [RunUntilPC_loop] in Hrun.
    destruct (decide (vm.Pc (vm.RunCtx (machine s)) = end_)) as [Heq|Hne].
    + rewrite bool_decide_eq_true_2 in Hrun by exact Heq. injection Hrun as <- <-.
      split; [apply spec.run_init|]. split; [apply run_frame_refl|].
      split; [auto|]. split; [discriminate|].
      intros k. cbn [RunUntilPC_loop Nat.add].
      rewrite bool_decide_eq_true_2 by exact Heq. reflexivity.
    + rewrite bool_decide_eq_false_2 in Hrun by exact Hne.
      destruct (step_machine hintProcessor hintDataMap s) as [s1 [e|]] eqn:Hstep.
      * injection Hrun as <- <-.
        split; [exact (run_reachable_first _ _ _ _ Hstep)|].
        split; [exact (proj1 (step_machine_kept _ _ _ _ Hstep))|].
        split; [discriminate|]. split.
        -- intros e' [= <-]. exists s. split; [apply spec.run_init|]. auto.
        -- intros k. cbn [RunUntilPC_loop Nat.add].
           rewrite bool_decide_eq_false_2 by exact Hne. rewrite Hstep. reflexivity.
      * destruct (IH s1 s' err Hrun) as (Hreach & Hframe & Hok & Herr & Hfuel).
        pose proof (run_reachable_first _ _ _ _ Hstep) as Hfirst.
        split; [exact (run_reachable_trans _ _ _ _ Hfirst Hreach)|].
        split; [exact (run_frame_trans _ _ _ (proj1 (step_machine_kept _ _ _ _ Hstep))
                                       Hframe)|].
        split; [exact Hok|]. split.
        -- intros e He. destruct (Herr e He) as (s2 & Hr2 & Hpc & Hs).
           exists s2. split; [exact (run_reachable_trans _ _ _ _ Hfirst Hr2)|]. auto.
        -- intros k. cbn [RunUntilPC_loop Nat.add].
           rewrite bool_decide_eq_false_2 by exact Hne. rewrite Hstep. apply Hfuel.
Qed.

(** X20.  [RunUntilPC] first compiles the hints of the program: an error
    of the compilation is returned at once, with the runner as it was and
    no step taken.  Otherwise it steps the machine of the runner, with the
    compiled hints and the execution scopes of the runner.  When it
    returns, the state it leaves is reached from the initial one by such
    steps.  If it returns no error, pc is the end address; if it returns
    an error, that is the error of a step taken from a reached state whose
    pc was not the end address.  More fuel gives the same result, and a
    runner whose pc is the end address already is returned as it is,
    without a step. *)
Theorem RunUntilPC_spec (fuel : nat) (r : CairoRunner) (h : HintFields T)
        (end_ : Relocatable) :
  (forall e, BuildHintDataMap hintProcessor h = Err e ->
             RunUntilPC hintProcessor fuel r h end_ = Some (r, h, Some e)) /\
  (forall hintDataMap,
      BuildHintDataMap hintProcessor h = Ok hintDataMap ->
      (vm.Pc (vm.RunCtx (Vm r)) = end_ ->
       RunUntilPC hintProcessor fuel r h end_ = Some (r, h, None)) /\
      (forall r' h' err,
          RunUntilPC hintProcessor fuel r h end_ = Some (r', h', err) ->
          let s0 := mkRunState r h RunnerVm in
          let s' := mkRunState r' h' RunnerVm in
          spec.run_reachable hintProcessor hintDataMap s0 s' /\
          (err = None -> vm.Pc (vm.RunCtx (Vm r')) = end_) /\
          (forall e, err = Some e ->
             exists s1, spec.run_reachable hintProcessor hintDataMap s0 s1 /\
                        vm.Pc (vm.RunCtx (machine s1)) <> end_ /\
                        step_machine hintProcessor hintDataMap s1 = (s', Some e)) /\
          (forall k, RunUntilPC hintProcessor (fuel + k) r h end_ = Some (r', h', err)))).
Proof.
  split.
  - intros e He. unfold RunUntilPC. rewrite He. reflexivity.
  - intros hintDataMap Hmap. unfold RunUntilPC. rewrite Hmap. split.
    + intros Heq.
      assert (Hloop : RunUntilPC_loop hintProcessor fuel hintDataMap
                                      (mkRunState r h RunnerVm) end_
                      = Some (mkRunState r h RunnerVm, None)).
      { destruct fuel; cbn [RunUntilPC_loop];
          rewrite bool_decide_eq_true_2 by exact Heq; reflexivity. }
      rewrite Hloop. reflexivity.
    + intros r' h' err Hrun. cbv zeta.
      destruct (RunUntilPC_loop hintProcessor fuel hintDataMap (mkRunState r h RunnerVm) end_)
        as [[s' err']|] eqn:Hloop; [|discriminate].
      injection Hrun as <- <- <-.
      destruct (RunUntilPC_loop_sound _ _ _ _ _ _ Hloop)
        as (Hreach & (Hptr & _) & Hok & Herr & Hfuel).
      specialize (Hptr eq_refl).
      assert (Hs' : mkRunState (Runner s') (HintState s') RunnerVm = s').
      { destruct s'; cbn in *; congruence. }
      rewrite Hs'. split; [exact Hreach|]. split.
      * intros Hnone. specialize (Hok Hnone). unfold machine in Hok.
        rewrite Hptr in Hok. exact Hok.
      * split; [exact Herr|]. intros k. rewrite Hfuel. reflexivity.
Qed.



(** X21.  [RunForSteps] first compiles the hints of the program and
    returns an error of the compilation at once, without a step.  When the
    hints compile: it converts its unsigned step count to a signed
    integer, so a count of 0, or of 2^63 and more, runs no step and returns
    no error; with a count between 1 and 2^63 - 1 on a machine whose pc
    is the final pc of the runner, it runs no step and returns the
    end-of-program error with the whole count; [RunUntilSteps] with a
    target at or below the current step (by at most 2^63) runs no step and
    returns no error. *)
Theorem RunForSteps_no_step (s : RunState T) (steps : Z) :
  (forall e, BuildHintDataMap hintProcessor (HintState s) = Err e ->
             RunForSteps hintProcessor s steps = (s, Some e) /\
             RunUntilSteps hintProcessor s steps = (s, Some e)) /\
  (forall hintDataMap,
      BuildHintDataMap hintProcessor (HintState s) = Ok hintDataMap ->
      (steps = 0 \/ 2 ^ 63 <= steps < 2 ^ 64 ->
       RunForSteps hintProcessor s steps = (s, None)) /\
      (0 < steps < 2 ^ 63 ->
       finalPc (Runner s) = Some (vm.Pc (vm.RunCtx (machine s))) ->
       RunForSteps hintProcessor s steps = (s, Some (ErrEndOfProgram steps))) /\
      (0 <= steps <= vm.CurrentStep (machine s) ->
       vm.CurrentStep (machine s) - steps <= 2 ^ 63 ->
       RunUntilSteps hintProcessor s steps = (s, None))).
Proof.
  split.
  - intros e He. unfold RunUntilSteps, RunForSteps. rewrite He. split; reflexivity.
  - intros hintDataMap Hmap.
    assert (Hnone : forall n, n = 0 \/ 2 ^ 63 <= n < 2 ^ 64 ->
                              RunForSteps hintProcessor s n = (s, None)).
    { intros n Hn. unfold RunForSteps, to_int. rewrite Hmap.
      destruct (Z.ltb_spec n (2 ^ 63)) as [Hlt|Hge].
      - destruct Hn as [-> | Hn]; [reflexivity|lia].
      - replace (Z.to_nat (n - 2 ^ 64)) with 0%nat by lia. reflexivity. }
    split; [apply Hnone|]. split.
    + intros Hs Hfinal. unfold RunForSteps. rewrite Hmap, to_int_small by lia.
      destruct (Z.to_nat steps) as [|k] eqn:Hk; [lia|]. cbn [RunForSteps_loop].
      rewrite bool_decide_eq_true_2 by exact Hfinal. do 3 f_equal. lia.
    + intros Hs Hdiff. unfold RunUntilSteps. apply Hnone.
      destruct (Z.eq_dec steps (vm.CurrentStep (machine s))) as [->|Hne].
      * left. rewrite Z.sub_diag. reflexivity.
      * right. unfold wrap64.
        replace (steps - vm.CurrentStep (machine s))
          with (2 ^ 64 + steps - vm.CurrentStep (machine s) + (-1) * 2 ^ 64) by lia.
        rewrite Z_mod_plus_full, Z.mod_small by lia. lia.
Qed.

(** ** The runner: the end of the run *)

Variable vmEndRun : vm.VirtualMachine -> vm.VirtualMachine * option Error.
Variable ComputeEffectiveSizes : MemorySegmentManager -> MemorySegmentManager.
Variable CheckUsedCells : CairoRunner -> vm.VirtualMachine -> option Error.




End RunPhase.

(** A hint that fails to compile stops [RunUntilPC] and [RunForSteps]
    before the first step. *)
Example run_compile_error :
  RunUntilPC examples.failing_processor 0 examples.loop_runner examples.one_hint
             (NewRelocatable 0 2)
  = Some (examples.loop_runner, examples.one_hint, Some (ErrOther 7)) /\
  RunForSteps examples.failing_processor
              (mkRunState examples.loop_runner examples.one_hint RunnerVm) 1
  = (mkRunState examples.loop_runner examples.one_hint RunnerVm, Some (ErrOther 7)).
Proof. split; reflexivity. Qed.

(** [EndRun] that fails after the padding: the accounting check returns
    an error of its own after the run was padded from step 0 to step 1.
    Called with a pointer at the machine of the runner, the runner that
    [EndRun] leaves has run that step; called with a pointer at a copy of
    the machine, the runner is as it was and the copy has run the step. *)
Example EndRun_error_after_padding :
  let run := EndRun examples.no_hint_processor examples.end_run_ok examples.sizes_unchanged
                    examples.check_fails 1 in
  (exists s', run examples.loop_state false false = Some (s', Some (ErrOther 5)) /\
              VmPtr s' = RunnerVm /\
              vm.CurrentStep (Vm (Runner examples.loop_state)) = 0 /\
              vm.CurrentStep (Vm (Runner s')) = 1 /\
              RunEnded (Runner s') = false) /\
  (exists s' v', run examples.loop_state_copy false false = Some (s', Some (ErrOther 5)) /\
                 VmPtr s' = OtherVm v' /\
                 Runner s' = examples.loop_runner /\
                 vm.CurrentStep v' = 1).
Proof.
  cbv zeta. split.
  - eexists. split; [vm_compute; reflexivity|]. repeat split.
  - eexists. eexists. split; [vm_compute; reflexivity|]. repeat split.
Qed.

(** ** The runner: selecting the builtins of the layout *)

Section SelectBuiltins.

Context {LayoutBuiltin : Type}.
Variable Name : LayoutBuiltin -> string.
Variable Include : LayoutBuiltin -> bool -> LayoutBuiltin.

Lemma difference_cons_out (S T : gset string) (n : string) :
  n ∉ S -> S ∖ T = S ∖ ({[n]} ∪ T).
Proof.
  intros Hn. apply set_eq. intros x.
  rewrite !elem_of_difference, elem_of_union, elem_of_singleton. split.
  - intros [Hx Hnx]. split; [exact Hx|]. intros [-> | Hc]; auto.
  - intros [Hx Hnx]. split; auto.
Qed.

Lemma filter_ext_elem (P Q : LayoutBuiltin -> Prop)
      `{!forall b, Decision (P b)} `{!forall b, Decision (Q b)} (l : list LayoutBuiltin) :
  (forall b, b ∈ l -> (P b <-> Q b)) -> filter P l = filter Q l.
Proof.
  induction l as [|x l IH]; intros Hl; [reflexivity|].
  assert (Hx : P x <-> Q x) by (apply Hl; left).
  assert (Htail : filter P l = filter Q l) by (apply IH; intros b Hb; apply Hl; right; exact Hb).
  rewrite !filter_cons, Htail.
  destruct (decide (P x)) as [HP|HP], (decide (Q x)) as [HQ|HQ]; tauto || reflexivity.
Qed.

Lemma select_builtins_spec (proofMode : bool) (layoutBuiltins : list LayoutBuiltin) :
  forall (programBuiltins : gset string) (builtinRunners : list LayoutBuiltin),
    NoDup (map Name layoutBuiltins) ->
    select_builtins _ Name Include layoutBuiltins programBuiltins proofMode builtinRunners
    = (builtinRunners
       ++ (if proofMode
           then map (fun b => Include b (bool_decide (Name b ∈ programBuiltins)))
                    layoutBuiltins
           else map (fun b => Include b true)
                    (filter (fun b => Name b ∈ programBuiltins) layoutBuiltins)),
       programBuiltins ∖ list_to_set (map Name layoutBuiltins)).
Proof.
  induction layoutBuiltins as [|b rest IH]; intros S acc Hnodup.
  - cbn [select_builtins map list_to_set]. rewrite difference_empty_L.
    destruct proofMode; cbn [map]; [|rewrite filter_nil; cbn [map]];
      rewrite app_nil_r; reflexivity.
  - cbn [map] in Hnodup. apply NoDup_cons in Hnodup as [Hfresh Hnodup].
    assert (Hrest : forall b', b' ∈ rest -> Name b' <> Name b).
    { intros b' Hb' Heq. apply Hfresh. rewrite <- Heq.
      apply list_elem_of_fmap. exists b'. auto. }
    assert (Hiff : forall b', b' ∈ rest -> (Name b' ∈ S ∖ {[Name b]} <-> Name b' ∈ S)).
    { intros b' Hb'. specialize (Hrest b' Hb').
      rewrite elem_of_difference, elem_of_singleton. tauto. }
    assert (Hmap : map (fun b' => Include b' (bool_decide (Name b' ∈ S ∖ {[Name b]}))) rest
                   = map (fun b' => Include b' (bool_decide (Name b' ∈ S))) rest).
    { apply map_ext_in. intros b' Hb'. apply list_elem_of_In in Hb'. f_equal.
      apply bool_decide_ext. exact (Hiff b' Hb'). }
    assert (Hfilter : filter (fun b' => Name b' ∈ S ∖ {[Name b]}) rest
                      = filter (fun b' => Name b' ∈ S) rest).
    { apply filter_ext_elem. exact Hiff. }
    cbn [select_builtins map list_to_set].
    destruct (decide (Name b ∈ S)) as [Hin|Hout].
    + rewrite bool_decide_eq_true_2 by exact Hin.
      rewrite (IH _ _ Hnodup), Hmap, Hfilter.
      rewrite filter_cons_True by exact Hin.
      rewrite difference_difference_l_L.
      destruct proofMode; cbn [map]; rewrite <- app_assoc; reflexivity.
    + rewrite bool_decide_eq_false_2 by exact Hout.
      rewrite filter_cons_False by exact Hout.
      rewrite <- (difference_cons_out S _ (Name b) Hout).
      destruct proofMode; rewrite (IH _ _ Hnodup).
      * rewrite <- app_assoc. reflexivity.
      * reflexivity.
Qed.

(** X23.  For a layout whose builtins have distinct names,
    [initializeBuiltins] fails exactly when the program names a builtin
    that the layout does not have.  Otherwise the runners it selects are,
    in the order of the layout: in proof mode every builtin of the layout,
    switched on when the program names it and off when not; outside proof
    mode only the builtins that the program names, switched on. *)
Theorem initializeBuiltins_spec (programBuiltinNames : list string)
        (layoutBuiltins : list LayoutBuiltin) (proofMode : bool) :
  NoDup (map Name layoutBuiltins) ->
  let named b := Name b ∈ programBuiltinNames in
  ((exists name, name ∈ programBuiltinNames /\ name ∉ map Name layoutBuiltins) ->
   initializeBuiltins _ Name Include programBuiltinNames layoutBuiltins proofMode
   = Err ErrBuiltinNotInLayout) /\
  ((forall name, name ∈ programBuiltinNames -> name ∈ map Name layoutBuiltins) ->
   initializeBuiltins _ Name Include programBuiltinNames layoutBuiltins proofMode
   = Ok (if proofMode
         then map (fun b => Include b (bool_decide (named b))) layoutBuiltins
         else map (fun b => Include b true) (filter named layoutBuiltins))).
Proof.
  intros Hnodup named. unfold initializeBuiltins.
  rewrite (select_builtins_spec proofMode layoutBuiltins _ [] Hnodup). cbn [app].
  set (rest := list_to_set programBuiltinNames ∖ list_to_set (map Name layoutBuiltins)).
  assert (Hmap : map (fun b => Include b (bool_decide
                                            (Name b ∈ (list_to_set programBuiltinNames
                                                       : gset string))))
                     layoutBuiltins
                 = map (fun b => Include b (bool_decide (named b))) layoutBuiltins).
  { apply map_ext. intros b. f_equal. apply bool_decide_ext. unfold named.
    apply elem_of_list_to_set. }
  assert (Hfilter : filter (fun b => Name b ∈ (list_to_set programBuiltinNames : gset string))
                           layoutBuiltins
                    = filter named layoutBuiltins).
  { apply list_filter_iff. intros b. unfold named. apply elem_of_list_to_set. }
  split.
  - intros (name & Hin & Hout).
    assert (Hne : size rest <> 0%nat).
    { intros Hz. apply size_empty_iff in Hz.
      assert (Hrest : name ∈ rest).
      { unfold rest. rewrite elem_of_difference, !elem_of_list_to_set. auto. }
      apply Hz in Hrest. exact (not_elem_of_empty name Hrest). }
    rewrite bool_decide_eq_false_2 by exact Hne. reflexivity.
  - intros Hall.
    assert (Hz : size rest = 0%nat).
    { apply size_empty_iff. intros name. split.
      - unfold rest. rewrite elem_of_difference, !elem_of_list_to_set.
        intros [Hin Hout]. exfalso. exact (Hout (Hall name Hin)).
      - intros Hin. exfalso. exact (not_elem_of_empty name Hin). }
    rewrite bool_decide_eq_true_2 by exact Hz. cbn [negb].
    rewrite Hmap, Hfilter. reflexivity.
Qed.

End SelectBuiltins.

Lemma initializeBuiltins_spec_witness :
  let layout := [("output"%string, false); ("pedersen"%string, false);
                 ("range_check"%string, false)] in
  let include := fun (b : string * bool) (on : bool) => (fst b, on) in
  initializeBuiltins _ fst include ["range_check"%string] layout true
  = Ok [("output"%string, false); ("pedersen"%string, false); ("range_check"%string, true)] /\
  initializeBuiltins _ fst include ["range_check"%string] layout false
  = Ok [("range_check"%string, true)] /\
  initializeBuiltins _ fst include ["bitwise"%string] layout false
  = Err ErrBuiltinNotInLayout.
Proof.
  intros layout include.
  assert (Hnodup : NoDup (map fst layout)).
  { apply (bool_decide_unpack _). vm_compute. exact I. }
  assert (Hall : forall name : string,
            name ∈ ["range_check"%string] -> name ∈ map fst layout).
  { intros name Hname. apply list_elem_of_singleton in Hname as ->.
    apply (bool_decide_unpack _). vm_compute. exact I. }
  split; [|split].
  - rewrite (proj2 (initializeBuiltins_spec fst include ["range_check"%string] layout true
                      Hnodup) Hall). reflexivity.
  - rewrite (proj2 (initializeBuiltins_spec fst include ["range_check"%string] layout false
                      Hnodup) Hall). reflexivity.
  - apply (proj1 (initializeBuiltins_spec fst include ["bitwise"%string] layout false Hnodup)).
    exists "bitwise"%string. split; apply (bool_decide_unpack _); vm_compute; exact I.
Defined.

(** ** Hints *)

(** X24.  The hint [assert_nn] accepts exactly the felts below 2^127: it
    rejects a felt of 128 bits, which the range-check rule accepts.  An
    error of the lookup of [a] is returned as it is. *)
Theorem assert_nn_spec (ids : hints.IdsManager) (v : vm.VirtualMachine) (a : Z) :
  lambdaworks.IsFelt a ->
  hints.ids_GetFelt ids "a" v = Ok a ->
  (hints.assert_nn ids v = None <-> a < 2 ^ 127) /\
  (2 ^ 127 <= a < 2 ^ 128 ->
   hints.assert_nn ids v = Some hints.ErrAssertNNOutOfRange /\
   forall d addr, d !! addr = Some (NewMaybeRelocatableFelt a) ->
                  builtins.RangeCheck.ValidationRule d addr = Ok [addr]).
Proof.
  intros Hfelt Hget. unfold hints.assert_nn. rewrite Hget.
  change (builtins.RangeCheck.N_PARTS * builtins.RangeCheck.INNER_RC_BOUND_SHIFT) with 128.
  unfold lambdaworks.IsFelt in Hfelt.
  assert (Hbits : 128 <= lambdaworks.Bits a <-> 2 ^ 127 <= a).
  { pose proof (Bits_le_iff a 127 ltac:(lia) ltac:(lia)) as Hle. lia. }
  split.
  - destruct (Z.leb_spec 128 (lambdaworks.Bits a)) as [Hge|Hlt].
    + split; [discriminate|]. intros Ha. apply Hbits in Hge. lia.
    + split; [|reflexivity]. intros _. destruct (Z.lt_ge_cases a (2 ^ 127)); [assumption|].
      apply Hbits in H. lia.
  - intros [Hlo Hhi]. split.
    + destruct (Z.leb_spec 128 (lambdaworks.Bits a)) as [Hge|Hlt]; [reflexivity|].
      apply Hbits in Hlo. lia.
    + intros d addr Hcell. unfold builtins.RangeCheck.ValidationRule, GetData.
      rewrite Hcell. cbn [GetFelt negb].
      change (builtins.RangeCheck.N_PARTS * builtins.RangeCheck.INNER_RC_BOUND_SHIFT) with 128.
      pose proof (Bits_le_iff a 128 ltac:(lia) ltac:(lia)) as Hle.
      destruct (Z.leb_spec (lambdaworks.Bits a) 128) as [_|Hgt]; [reflexivity|lia].
Qed.

Lemma assert_nn_spec_witness :
  let ids := hints.mkIdsManager (fun _ _ => Ok (2 ^ 127)) (fun _ _ => Err ErrValueNotFound) in
  hints.assert_nn ids vm.NewVirtualMachine = Some hints.ErrAssertNNOutOfRange /\
  builtins.RangeCheck.ValidationRule
    {[NewRelocatable 0 0 := NewMaybeRelocatableFelt (2 ^ 127)]} (NewRelocatable 0 0)
  = Ok [NewRelocatable 0 0].
Proof.
  intros ids.
  destruct (assert_nn_spec ids vm.NewVirtualMachine (2 ^ 127)
              ltac:(vm_compute; split; congruence) ltac:(reflexivity)) as [_ Hedge].
  destruct (Hedge ltac:(vm_compute; split; congruence)) as [Hhint Hrule].
  split; [exact Hhint|]. apply Hrule. apply lookup_singleton_eq.
Defined.

Lemma felt_sub_zero (x y : Z) :
  lambdaworks.IsFelt x -> lambdaworks.IsFelt y ->
  (lambdaworks.IsZero (lambdaworks.Sub x y) = true <-> x = y).
Proof.
  unfold lambdaworks.IsFelt, lambdaworks.IsZero, lambdaworks.Sub. intros Hx Hy.
  rewrite Z.eqb_eq. split.
  - intros Hz. destruct (Z.lt_trichotomy x y) as [Hlt|[Heq|Hgt]]; [|exact Heq|].
    + replace (x - y) with (x - y + lambdaworks.CAIRO_PRIME + (-1) * lambdaworks.CAIRO_PRIME)
        in Hz by lia.
      rewrite Z_mod_plus_full, Z.mod_small in Hz by lia. lia.
    + rewrite Z.mod_small in Hz by lia. lia.
  - intros ->. rewrite Z.sub_diag. reflexivity.
Qed.

(** X25.  The hint [assert_not_equal] on two canonical felts returns no
    error exactly when they differ.  On two addresses of one segment it
    returns no error exactly when the first lies above the second: when
    the first lies below the second, although they differ, the
    subtraction fails and its error is returned.  A felt and an address,
    or two addresses of different segments, are reported as not
    comparable. *)
Theorem assert_not_equal_spec (ids : hints.IdsManager) (v : vm.VirtualMachine)
        (a b : MaybeRelocatable) :
  match a with
  | NewMaybeRelocatableFelt x => lambdaworks.IsFelt x
  | NewMaybeRelocatableRelocatable r => 0 <= Offset r < 2 ^ 64
  end ->
  match b with
  | NewMaybeRelocatableFelt y => lambdaworks.IsFelt y
  | NewMaybeRelocatableRelocatable r => 0 <= Offset r < 2 ^ 64
  end ->
  hints.ids_Get ids "a" v = Ok a -> hints.ids_Get ids "b" v = Ok b ->
  match a, b with
  | NewMaybeRelocatableFelt x, NewMaybeRelocatableFelt y =>
      (hints.assert_not_equal ids v = None <-> x <> y) /\
      (x = y -> hints.assert_not_equal ids v = Some hints.ErrAssertNotEqual)
  | NewMaybeRelocatableRelocatable r1, NewMaybeRelocatableRelocatable r2 =>
      if SegmentIndex r1 =? SegmentIndex r2
      then (hints.assert_not_equal ids v = None <-> Offset r2 < Offset r1) /\
           (Offset r1 = Offset r2 ->
            hints.assert_not_equal ids v = Some hints.ErrAssertNotEqual) /\
           (Offset r1 < Offset r2 ->
            hints.assert_not_equal ids v = Some ErrNegativeOffset)
      else hints.assert_not_equal ids v = Some hints.ErrAssertNotEqualNonComparable
  | _, _ => hints.assert_not_equal ids v = Some hints.ErrAssertNotEqualNonComparable
  end.
Proof.
  intros Ha Hb Hgeta Hgetb. unfold hints.assert_not_equal. rewrite Hgeta, Hgetb.
  destruct a as [x|r1], b as [y|r2]; cbn [GetRelocatable andb orb negb SubMaybe];
    try reflexivity.
  - unfold IsZero. cbn [GetFelt andb].
    pose proof (felt_sub_zero x y Ha Hb) as Hz.
    destruct (lambdaworks.IsZero (lambdaworks.Sub x y)).
    + assert (x = y) by (apply Hz; reflexivity). split; [|reflexivity].
      split; [discriminate|contradiction].
    + assert (x <> y) by (intros Heq; apply Hz in Heq; discriminate).
      split; [tauto|contradiction].
  - destruct (Z.eqb_spec (SegmentIndex r1) (SegmentIndex r2)) as [Hs|Hs];
      cbn [andb orb negb]; [|reflexivity].
    unfold Sub. destruct (Z.eqb_spec (SegmentIndex r1) (SegmentIndex r2)) as [_|Hne];
      [|contradiction]. cbn [negb].
    destruct (Z.ltb_spec (Offset r1) (Offset r2)) as [Hlt|Hge].
    + split; [split; [discriminate|lia]|]. split; [lia|reflexivity].
    + unfold IsZero. cbn [GetFelt andb].
      pose proof two_pow_64_lt_prime as HP.
      unfold lambdaworks.FeltFromUint64, lambdaworks.IsZero.
      rewrite Z.mod_small by lia.
      destruct (Z.eqb_spec (Offset r1 - Offset r2) 0) as [Hz|Hnz].
      * split; [split; [discriminate|lia]|]. split; [reflexivity|lia].
      * split; [split; [lia|reflexivity]|]. split; lia.
Qed.

Lemma assert_not_equal_spec_witness :
  let ids := hints.mkIdsManager
               (fun _ _ => Err ErrValueNotFound)
               (fun name _ =>
                  if String.eqb name "a"
                  then Ok (NewMaybeRelocatableRelocatable (NewRelocatable 1 2))
                  else Ok (NewMaybeRelocatableRelocatable (NewRelocatable 1 5))) in
  hints.assert_not_equal ids vm.NewVirtualMachine = Some ErrNegativeOffset.
Proof.
  intros ids.
  pose proof (assert_not_equal_spec ids vm.NewVirtualMachine
                (NewMaybeRelocatableRelocatable (NewRelocatable 1 2))
                (NewMaybeRelocatableRelocatable (NewRelocatable 1 5))
                ltac:(cbn; lia) ltac:(cbn; lia) ltac:(reflexivity) ltac:(reflexivity))
    as (_ & _ & Hbelow).
  apply Hbelow. cbn. lia.
Defined.

(** ** A step that cannot fetch or decode *)

(** X26.  A step whose instruction cannot be fetched or decoded leaves
    the machine exactly as it was: no cell at pc gives the fetch error, an
    address at pc the encoding error, a felt of more than 64 bits the
    conversion error, a word with bit 63 set the high-bit error, and a
    63-bit word with a flag group outside its table that group's error. *)
Theorem Step_fetch_errors (v : vm.VirtualMachine) :
  let cell := Get (Mem (vm.Segments v)) (vm.Pc (vm.RunCtx v)) in
  (forall e, cell = Err e -> vm.Step v = (v, Some ErrFetchInstruction)) /\
  (forall r, cell = Ok (NewMaybeRelocatableRelocatable r) ->
             vm.Step v = (v, Some ErrWrongInstructionEncoding)) /\
  (forall f, cell = Ok (NewMaybeRelocatableFelt f) -> 2 ^ 64 <= f ->
             vm.Step v = (v, Some (ConversionError f))) /\
  (forall f, cell = Ok (NewMaybeRelocatableFelt f) -> 2 ^ 63 <= f < 2 ^ 64 ->
             vm.Step v = (v, Some ErrNonZeroHighBitError)) /\
  (forall f e, cell = Ok (NewMaybeRelocatableFelt f) -> 0 <= f < 2 ^ 63 ->
               spec.decode_fields f = Err e -> vm.Step v = (v, Some e)).
Proof.
  cbv zeta. unfold vm.Step. repeat split.
  - intros e ->. reflexivity.
  - intros r ->. reflexivity.
  - intros f -> Hf. cbn [GetFelt negb]. unfold lambdaworks.ToU64.
    destruct (Z.ltb_spec f (2 ^ 64)); [lia|reflexivity].
  - intros f -> Hf. cbn [GetFelt negb]. unfold lambdaworks.ToU64.
    destruct (Z.ltb_spec f (2 ^ 64)); [|lia].
    assert (Hbit : Z.testbit f 63 = true).
    { apply Z.testbit_true; [lia|].
      assert (Hq : f / 2 ^ 63 = 1).
      { symmetry. apply (Z.div_unique f (2 ^ 63) 1 (f - 2 ^ 63)); lia. }
      rewrite Hq. reflexivity. }
    unfold vm.DecodeInstruction. cbv zeta. rewrite high_bit_test, Hbit. reflexivity.
  - intros f e -> Hf Hdec. cbn [GetFelt negb]. unfold lambdaworks.ToU64.
    destruct (Z.ltb_spec f (2 ^ 64)); [|lia].
    assert (Hbit : Z.testbit f 63 = false).
    { apply Z.testbit_false; [lia|]. rewrite Z.div_small by lia. reflexivity. }
    rewrite (DecodeInstruction_fields f Hbit), Hdec. reflexivity.
Qed.

(** ** Dispatch of a deduction to the builtin runners *)

Lemma deduce_in_dispatch (addr : Relocatable) (mem : Memory)
      (pre : list builtins.BuiltinRunner) :
  forall (rest : list builtins.BuiltinRunner),
    Forall (fun b => SegmentIndex (builtins.Base b) <> SegmentIndex addr) pre ->
    vm.deduce_in (pre ++ rest) addr mem
    = (pre ++ fst (vm.deduce_in rest addr mem), snd (vm.deduce_in rest addr mem)).
Proof.
  induction pre as [|b pre IH]; intros rest Hpre.
  - cbn [app]. destruct (vm.deduce_in rest addr mem). reflexivity.
  - apply Forall_cons in Hpre as [Hb Hpre]. cbn [app vm.deduce_in].
    destruct (Z.eqb_spec (SegmentIndex (builtins.Base b)) (SegmentIndex addr)) as [Heq|_];
      [contradiction|].
    rewrite (IH rest Hpre). reflexivity.
Qed.

(** X27.  A deduction is sent to the first builtin runner whose base lies
    in the segment of the address, and to no other: the runners before and
    after it are unchanged, also a later runner with a base in that
    segment.  When no runner has its base there, nothing is deduced and
    the machine is unchanged. *)
Theorem DeduceMemoryCell_dispatch (v : vm.VirtualMachine) (addr : Relocatable) :
  (Forall (fun b => SegmentIndex (builtins.Base b) <> SegmentIndex addr)
          (vm.BuiltinRunners v) ->
   vm.DeduceMemoryCell v addr = (v, Ok None)) /\
  (forall pre b post,
     vm.BuiltinRunners v = pre ++ b :: post ->
     Forall (fun b => SegmentIndex (builtins.Base b) <> SegmentIndex addr) pre ->
     SegmentIndex (builtins.Base b) = SegmentIndex addr ->
     let r := builtins.DeduceMemoryCell b addr (Mem (vm.Segments v)) in
     vm.DeduceMemoryCell v addr = (vm.set_BuiltinRunners v (pre ++ fst r :: post), snd r)).
Proof.
  unfold vm.DeduceMemoryCell. split.
  - intros Hnone.
    pose proof (deduce_in_dispatch addr (Mem (vm.Segments v)) (vm.BuiltinRunners v) [] Hnone)
      as Hd.
    rewrite app_nil_r in Hd. rewrite Hd. cbn [vm.deduce_in fst snd].
    rewrite app_nil_r. destruct v; reflexivity.
  - intros pre b post Hrunners Hpre Hb. cbv zeta.
    rewrite Hrunners, (deduce_in_dispatch addr _ pre (b :: post) Hpre).
    cbn [vm.deduce_in]. rewrite Hb, Z.eqb_refl.
    destruct (builtins.DeduceMemoryCell b addr (Mem (vm.Segments v))) as [b' r].
    reflexivity.
Qed.

(** ** Operand addresses *)

Lemma round_float64_exact (n : Z) : 0 <= n <= 2 ^ 53 -> vm.round_float64 n = n.
Proof.
  intros Hn. unfold vm.round_float64.
  destruct (Z.ltb_spec n (2 ^ 53)) as [_|Hge]; [reflexivity|].
  assert (n = 2 ^ 53) as -> by lia. reflexivity.
Qed.

Lemma add_offset_spec (base_addr : Relocatable) (off : Z) :
  0 <= Offset base_addr -> - 2 ^ 53 <= off ->
  vm.add_offset base_addr off
  = if Offset base_addr + off <? 0 then Err ErrNegativeOffset
    else Ok (NewRelocatable (SegmentIndex base_addr)
                            (if off <? 0 then Offset base_addr + off
                             else wrap64 (Offset base_addr + off))).
Proof.
  intros Hbase Hoff. unfold vm.add_offset, SubUint, AddUint.
  destruct (Z.ltb_spec off 0) as [Hneg|Hpos].
  - rewrite Z.abs_neq by lia. rewrite round_float64_exact by lia.
    destruct (Z.ltb_spec (Offset base_addr) (- off)), (Z.ltb_spec (Offset base_addr + off) 0);
      try lia; [reflexivity|]. do 2 f_equal. lia.
  - destruct (Z.ltb_spec (Offset base_addr + off) 0); [lia|reflexivity].
Qed.

(** Beyond 53 bits the magnitude of a negative offset is rounded: from the
    offset 2^53 + 1, the offset -(2^53 + 1) leads to the offset 1. *)
Example add_offset_rounds :
  vm.add_offset (NewRelocatable 1 (2 ^ 53 + 1)) (- (2 ^ 53 + 1)) = Ok (NewRelocatable 1 1).
Proof. reflexivity. Qed.

(** X28.  The addresses of the operands.  With registers of non-negative
    offsets and instruction offsets off0 and off1 that are not below -2^53
    (the offsets of a decoded instruction lie in [-2^15, 2^15)), the
    address of dst (of op0) lies in the segment of the register that the
    instruction selects, at the register's offset plus the signed offset
    off0 (off1); the computation fails exactly when that sum is negative.
    The address of an immediate op1 is defined only for off2 = 1 and is
    then pc + 1. *)
Theorem operand_addresses (ctx : vm.RunContext) (i : vm.Instruction) :
  0 <= Offset (vm.Ap ctx) -> 0 <= Offset (vm.Fp ctx) -> 0 <= Offset (vm.Pc ctx) ->
  - 2 ^ 53 <= vm.Off0 i -> - 2 ^ 53 <= vm.Off1 i ->
  let reg r := match r with vm.AP => vm.Ap ctx | vm.FP => vm.Fp ctx end in
  let at_offset base off :=
    if Offset base + off <? 0 then Err ErrNegativeOffset
    else Ok (NewRelocatable (SegmentIndex base)
                            (if off <? 0 then Offset base + off
                             else wrap64 (Offset base + off))) in
  vm.ComputeDstAddr ctx i = at_offset (reg (vm.DstReg i)) (vm.Off0 i) /\
  vm.ComputeOp0Addr ctx i = at_offset (reg (vm.Op0Reg i)) (vm.Off1 i) /\
  (vm.Op1Addr i = vm.Op1SrcImm ->
   forall op0,
     vm.ComputeOp1Addr ctx i op0
     = if vm.Off2 i =? 1
       then Ok (NewRelocatable (SegmentIndex (vm.Pc ctx)) (wrap64 (Offset (vm.Pc ctx) + 1)))
       else Err ErrUnknownOp0Imm).
Proof.
  intros Hap Hfp Hpc Hoff0 Hoff1. cbv zeta. split; [|split].
  - unfold vm.ComputeDstAddr. destruct (vm.DstReg i); apply add_offset_spec; assumption.
  - unfold vm.ComputeOp0Addr. destruct (vm.Op0Reg i); apply add_offset_spec; assumption.
  - intros Himm op0. unfold vm.ComputeOp1Addr. rewrite Himm.
    destruct (Z.eqb_spec (vm.Off2 i) 1) as [Hone|Hne]; [|reflexivity].
    rewrite Hone. rewrite add_offset_spec by (assumption || lia).
    destruct (Z.ltb_spec (Offset (vm.Pc ctx) + 1) 0); [lia|]. reflexivity.
Qed.

Lemma operand_addresses_witness :
  let ctx := vm.mkRunContext (NewRelocatable 0 0) (NewRelocatable 1 4) (NewRelocatable 1 0) in
  vm.ComputeDstAddr ctx examples.jnz_instruction = Ok (NewRelocatable 1 3) /\
  vm.ComputeOp0Addr ctx examples.jnz_instruction = Err ErrNegativeOffset.
Proof.
  intros ctx.
  destruct (operand_addresses ctx examples.jnz_instruction
              ltac:(cbn; lia) ltac:(cbn; lia) ltac:(cbn; lia)
              ltac:(cbn; lia) ltac:(cbn; lia)) as (Hdst & Hop0 & _).
  split; [exact Hdst|exact Hop0].
Defined.
